(** * storj-badger-storage: key codec, blob writer, blob reader and blob store

    A shallow embedding of the Go package [badger] (the newest revision of
    each file: [key.go], [writer.go], [reader.go], [blobs.go]) together with
    the properties of its specification.

    Conventions.
    - A Go [[]byte] is a [list byte]; the nil slice and the empty slice are
      both [[]] (no operation of the package tells them apart, except the
      writer's [buffer == nil] test, for which the writer's buffer is an
      [option]).
    - A Go [int]/[int64] is a [Z] with the two's complement wrap-around
      written where the program computes ([wrap64]); [uint64(x)] is [u64].
    - A run-time panic (slice bounds, the "implement me" panics) is the
      [Panic] outcome of [exec].
    - A Go [error] result is an [option error], [None] being [nil]. *)

From Stdlib Require Import ZArith List Lia Bool String Ascii.
From Stdlib Require Import Strings.Byte.
Import ListNotations.

Local Open Scope Z_scope.

Set Implicit Arguments.

(* ================================================================= *)
(** ** Bytes and byte strings *)

Definition bytes : Type := list byte.

(** [[]byte("...")]: the bytes of a string literal. *)
Definition bytes_of (s : string) : bytes := list_byte_of_string s.

(** The numeric value of a byte, 0..255. *)
Definition byte_val (b : byte) : Z := Z.of_N (Byte.to_N b).

(** [byte(v)]: conversion of an unsigned integer to a byte keeps the low
    eight bits. *)
Definition byte_of_Z (v : Z) : byte :=
  match Byte.of_N (Z.to_N (v mod 256)) with
  | Some b => b
  | None => x00
  end.

(** [len(s)] as a Go [int]. *)
Definition len (s : bytes) : Z := Z.of_nat (List.length s).

(** [bytes.Compare]: lexicographic comparison of byte strings, the order of
    the keys of the key-value engine. *)
Fixpoint lex_compare (a b : bytes) : comparison :=
  match a, b with
  | [], [] => Eq
  | [], _ :: _ => Lt
  | _ :: _, [] => Gt
  | x :: a', y :: b' =>
      match Z.compare (byte_val x) (byte_val y) with
      | Eq => lex_compare a' b'
      | c => c
      end
  end.

Definition lex_ltb (a b : bytes) : bool :=
  match lex_compare a b with Lt => true | _ => false end.

Definition bytes_eqb (a b : bytes) : bool :=
  match lex_compare a b with Eq => true | _ => false end.

(** [bytes.HasPrefix(k, p)]. *)
Fixpoint has_prefix (p k : bytes) : bool :=
  match p, k with
  | [], _ => true
  | _ :: _, [] => false
  | x :: p', y :: k' => Byte.eqb x y && has_prefix p' k'
  end.

(* ================================================================= *)
(** ** Machine integers *)

(** [int64(x)] and [int(x)] (64-bit platform): two's complement. *)
Definition wrap64 (z : Z) : Z := (z + 2^63) mod 2^64 - 2^63.

(** [uint64(x)]. *)
Definition u64 (z : Z) : Z := z mod 2^64.

Definition int64_range (z : Z) : Prop := - 2^63 <= z < 2^63.

(* ================================================================= *)
(** ** Outcomes *)

Inductive error : Type :=
| ErrMissingBlob          (* errs.New("missing blob") *)
| ErrAlreadyCommitted     (* errs.New("Already committed") *)
| ErrUnsupportedFormat    (* errs.New("Unsupported format") *)
| ErrReadOnlyTxn          (* badger.ErrReadOnlyTxn *)
| ErrKeyNotFound          (* badger.ErrKeyNotFound *)
| EOF.                    (* io.EOF *)

Inductive panic : Type :=
| PanicImplementMe        (* panic("implement me") *)
| PanicSliceBounds.       (* runtime error: slice bounds out of range *)

Inductive exec (A : Type) : Type :=
| Done (a : A)
| Panic (p : panic).

Arguments Done {A} a.
Arguments Panic {A} p.

(* ================================================================= *)
(** ** encoding/binary, big endian *)

(** The [n] low bytes of [v], most significant first.
    [binary.BigEndian.AppendUint64(nil, v)] is [be_encode 8 v]. *)
Fixpoint be_encode (n : nat) (v : Z) : bytes :=
  match n with
  | O => []
  | S n' => be_encode n' (v / 256) ++ [byte_of_Z v]
  end.

(** [binary.BigEndian.Uint64] on an 8-byte slice: the bytes read as one
    number, most significant first. *)
Definition be_decode (b : bytes) : Z :=
  fold_left (fun acc x => acc * 256 + byte_val x) b 0.

Definition AppendUint64 (dst : bytes) (v : Z) : bytes := dst ++ be_encode 8 v.
Definition Uint64 (b : bytes) : Z := be_decode b.

(* ================================================================= *)
(** ** time.Time *)

(** An instant: whole seconds since the Unix epoch and the nanoseconds
    within that second. *)
Record Time : Type := mkTime { t_sec : Z; t_nsec : Z }.

(** [t.Unix()]. *)
Definition Time_Unix (t : Time) : Z := t_sec t.

(** [time.Unix(sec, 0)]. *)
Definition time_Unix0 (sec : Z) : Time := mkTime sec 0.

(** [t.Truncate(time.Second)]. *)
Definition Truncate_Second (t : Time) : Time := mkTime (t_sec t) 0.

(* ================================================================= *)
(** ** key.go *)

Record BlobRef : Type := mkRef { Namespace : bytes; Key : bytes }.

Definition namespacePrefix : bytes := bytes_of "nmspc".
Definition blobPrefix : bytes := bytes_of "blobs".
Definition trashPrefix : bytes := bytes_of "trash".

(** [func key(ref, time, size) []byte]. The three package-level prefixes
    have capacity equal to their length, so every [append] onto them
    allocates: appending is concatenation. *)
Definition key (ref : BlobRef) (time : Time) (size : Z) : bytes :=
  let rawStat := [] in
  let rawStat := AppendUint64 rawStat (u64 (Time_Unix time)) in
  let rawStat := AppendUint64 rawStat (u64 size) in
  let res := blobPrefix in
  let res := res ++ Namespace ref in
  let res := res ++ Key ref in
  let res := res ++ rawStat in
  res.

(** [func stat(from []byte) (time.Time, int)]; slicing panics when [from]
    is shorter than 16 bytes. *)
Definition stat (from : bytes) : exec (Time * Z) :=
  if len from - 16 <? 0 then Panic PanicSliceBounds
  else
    let key := skipn (Z.to_nat (len from - 16)) from in
    let seconds := Uint64 (firstn 8 key) in
    let bytes := Uint64 (skipn 8 key) in
    Done (time_Unix0 (wrap64 seconds), wrap64 bytes).

Definition keyPrefix (ref : BlobRef) : bytes :=
  (blobPrefix ++ Namespace ref) ++ Key ref.

Definition trashKey (ref : BlobRef) : bytes :=
  (trashPrefix ++ Namespace ref) ++ Key ref.

(* ================================================================= *)
(** ** Go slices of bytes *)

(** [copy(dst, src)]: the number of bytes copied and the new contents of
    [dst]. *)
Definition go_copy (dst src : bytes) : Z * bytes :=
  let n := Nat.min (List.length dst) (List.length src) in
  (Z.of_nat n, firstn n src ++ skipn n dst).

(** [s[lo:]] on a slice whose capacity is its length. *)
Definition slice_from (s : bytes) (lo : Z) : exec bytes :=
  if (0 <=? lo) && (lo <=? len s) then Done (skipn (Z.to_nat lo) s)
  else Panic PanicSliceBounds.

(** The writer's staging array, [make([]byte, n)]: [b_len] bytes, all
    zero when made. The array is kept as its leading bytes [b_head]; every
    position from [length b_head] up to [b_len] still holds the zero it
    was made with. [buf_list] is the array written out in full. *)
Record buffer : Type := mkBuf { b_len : Z; b_head : bytes }.

Definition make_bytes (n : Z) : buffer := mkBuf n [].

Definition buf_list (b : buffer) : bytes :=
  b_head b ++ repeat x00 (Z.to_nat (b_len b) - List.length (b_head b)).

Definition buf_wf (b : buffer) : Prop := len (b_head b) <= b_len b.

(** The first [n] bytes of an array given by its leading bytes. *)
Definition head_upto (n : nat) (h : bytes) : bytes :=
  firstn n (h ++ repeat x00 (n - List.length h)).

(** [b[:hi]], for [0 <= hi <= len(b)]. *)
Definition buf_slice_to (b : buffer) (hi : Z) : bytes :=
  head_upto (Z.to_nat hi) (b_head b).

(** The array after [copy(b[off:off+len(p)], p)], for
    [0 <= off] and [off + len(p) <= len(b)]. *)
Definition buf_copy_at (b : buffer) (off : Z) (p : bytes) : buffer :=
  mkBuf (b_len b)
        (head_upto (Z.to_nat off) (b_head b) ++ p
         ++ skipn (Z.to_nat off + List.length p) (b_head b)).

(* ================================================================= *)
(** ** The key-value engine (badger), as the package uses it

    The engine is an ordered map from byte-string keys to byte-string
    values. A store is the list of its entries in ascending key order.
    [View] runs a function on a read-only transaction, [Update] on a
    read-write one that is committed when the function returns [nil] and
    discarded otherwise. Inside a transaction reads see the transaction's
    own writes; an iterator ranges over the entries as they were when it
    was made. [Set] and [Delete] on a read-only transaction fail with
    [ErrReadOnlyTxn]. *)

Definition entry : Type := (bytes * bytes)%type.
Definition store : Type := list entry.

Definition db_delete (k : bytes) (db : store) : store :=
  filter (fun e => negb (bytes_eqb (fst e) k)) db.

Fixpoint db_insert (k v : bytes) (db : store) : store :=
  match db with
  | [] => [(k, v)]
  | e :: rest =>
      if lex_ltb k (fst e) then (k, v) :: e :: rest
      else e :: db_insert k v rest
  end.

Definition db_set (k v : bytes) (db : store) : store :=
  db_insert k v (db_delete k db).

Fixpoint db_get (k : bytes) (db : store) : option bytes :=
  match db with
  | [] => None
  | e :: rest => if bytes_eqb (fst e) k then Some (snd e) else db_get k rest
  end.

(** Keys strictly ascending: the invariant of a store. *)
Fixpoint store_sorted (db : store) : bool :=
  match db with
  | [] => true
  | e :: rest =>
      match rest with
      | [] => true
      | e' :: _ => lex_ltb (fst e) (fst e') && store_sorted rest
      end
  end.

Record Txn : Type := mkTxn { txn_update : bool; txn_view : store }.

Definition txn_Set (k v : bytes) (t : Txn) : Txn * option error :=
  if txn_update t then (mkTxn true (db_set k v (txn_view t)), None)
  else (t, Some ErrReadOnlyTxn).

Definition txn_Delete (k : bytes) (t : Txn) : Txn * option error :=
  if txn_update t then (mkTxn true (db_delete k (txn_view t)), None)
  else (t, Some ErrReadOnlyTxn).

Definition txn_Get (k : bytes) (t : Txn) : option bytes * option error :=
  match db_get k (txn_view t) with
  | Some v => (Some v, None)
  | None => (None, Some ErrKeyNotFound)
  end.

(** [db.View(fn)]; [A] is the state of the variables [fn] captures. *)
Definition db_View {A : Type} (fn : Txn -> A * Txn * option error)
    (db : store) : A * option error :=
  let '(a, _, err) := fn (mkTxn false db) in (a, err).

(** [db.Update(fn)]. *)
Definition db_Update {A : Type} (fn : Txn -> A * Txn * option error)
    (db : store) : A * option error * store :=
  let '(a, t, err) := fn (mkTxn true db) in
  match err with
  | None => (a, None, txn_view t)
  | Some e => (a, Some e, db)
  end.

(** [badger.IteratorOptions]; [DefaultIteratorOptions] has no prefix. *)
Record IteratorOptions : Type := mkOpts { Prefix : bytes }.
Definition DefaultIteratorOptions : IteratorOptions := mkOpts [].

(** An iterator: the entries it ranges over, and those from the current
    position on (the first of them is [it.Item()]). *)
Record Iterator : Type := mkIt { it_all : list entry; it_cur : list entry }.

Definition txn_NewIterator (opt : IteratorOptions) (t : Txn) : Iterator :=
  mkIt (filter (fun e => has_prefix (Prefix opt) (fst e)) (txn_view t)) [].

Fixpoint seek_from (k : bytes) (l : list entry) : list entry :=
  match l with
  | [] => []
  | e :: rest => if lex_ltb (fst e) k then seek_from k rest else l
  end.

Definition it_Seek (k : bytes) (it : Iterator) : Iterator :=
  mkIt (it_all it) (seek_from k (it_all it)).

Definition it_ValidForPrefix (p : bytes) (it : Iterator) : bool :=
  match it_cur it with
  | [] => false
  | e :: _ => has_prefix p (fst e)
  end.

Definition it_Next (it : Iterator) : Iterator :=
  mkIt (it_all it) (tl (it_cur it)).

(** [it.Item()], meaningful while the iterator is valid. *)
Definition it_Item (it : Iterator) : entry := hd ([], []) (it_cur it).

(** [for ; it.ValidForPrefix(pref); it.Next() { body }] inside a
    transaction function, from the position [cur]: [body] gets the current
    item and the state, and gives the new state and the error it returns
    from the function with, if any. *)
Fixpoint for_valid_prefix {S : Type} (pref : bytes) (cur : list entry)
    (body : entry -> S -> S * option error) (s : S) : S * option error :=
  match cur with
  | [] => (s, None)
  | item :: rest =>
      if has_prefix pref (fst item) then
        match body item s with
        | (s', Some e) => (s', Some e)
        | (s', None) => for_valid_prefix pref rest body s'
        end
      else (s, None)
  end.

(* ================================================================= *)
(** ** The range of the engine model *)

(** A badger iterator holds [PrefetchSize] items at a time: 100 with
    [DefaultIteratorOptions], 2 with options that do not ask for the
    values, as [IteratorOptions{Prefix: pref}]. Once the records from the
    position of [Seek] on are more than that, [Next] fills the item it has
    just left with a later record, and a slice [it.Item().Key()], or a
    value handed to the function of [Item.Value], that was kept without a
    copy holds other bytes from then on. The model takes keys and values by
    value: for the loops that keep such a slice ([NewBlobStore],
    [DeleteNamespace], [Trash], [RestoreTrash]) it is the program as long
    as the records from the position of [Seek] on fit the window. [Delete]
    copies the key ([KeyCopy]) and the loops that only read are not
    concerned. *)
Definition defaultPrefetchSize : nat := 100.
Definition keyOnlyPrefetchSize : nat := 2.

Definition within_window (window : nat) (cur : list entry) : Prop :=
  (List.length cur <= window)%nat.

(** badger keeps a value shorter than [ValueThreshold], 1 MiB by default,
    beside its key and a longer one in the value log; of a value in the
    value log [Item.ValueSize()] is an estimate, of the others it is the
    length. *)
Definition valueThreshold : Z := 1048576.

Definition values_inline (l : list entry) : Prop :=
  Forall (fun e => len (snd e) < valueThreshold) l.

(** badger refuses a write once the pending writes of the transaction come
    to about 10 MB ([ErrTxnTooBig]: 15% of the 64 MiB of a memtable). A
    transaction that writes each of the records [l] at most twice, with
    [records_size l] within [txnBudget], stays below that. *)
Definition records_size (l : list entry) : Z :=
  fold_right (fun e acc => len (fst e) + len (snd e) + acc) 0 l.

Definition txnBudget : Z := 4000000.

(* ================================================================= *)
(** ** writer.go *)

Record writer : Type := mkWriter {
  w_offset : Z;
  w_length : Z;
  w_buffer : option buffer;      (* [None] is the nil slice *)
  w_ref : BlobRef
}.

Definition bufferCap : Z := 5000000.

Definition SeekStart : Z := 0.     (* io.SeekStart *)

Definition NewWriter (ref : BlobRef) : writer :=
  mkWriter 0 0 (Some (make_bytes 5000000)) ref.

Definition writer_Seek (w : writer) (offset whence : Z)
  : exec (Z * option error * writer) :=
  if negb (whence =? SeekStart) then Panic PanicImplementMe
  else
    let w := mkWriter (wrap64 offset) (w_length w) (w_buffer w) (w_ref w) in
    let w := if w_offset w >? w_length w
             then mkWriter (w_offset w) (w_offset w) (w_buffer w) (w_ref w)
             else w in
    Done (wrap64 (w_offset w), None, w).

Definition Cancel (w : writer) : option error * writer :=
  (None, mkWriter (w_offset w) (w_length w) None (w_ref w)).

(** [Commit]; [now] is the value of [time.Now()], [db] the contents of
    the engine the writer was made for. *)
Definition Commit (w : writer) (now : Time) (db : store)
  : exec (option error * writer * store) :=
  match w_buffer w with
  | None => Done (Some ErrAlreadyCommitted, w, db)
  | Some b =>
      if (0 <=? w_offset w) && (w_offset w <=? b_len b) then
        let '(_, err, db') :=
          db_Update (fun txn =>
            let '(txn, e) := txn_Set (key (w_ref w) now (w_offset w))
                                     (buf_slice_to b (w_offset w)) txn in
            (tt, txn, e)) db in
        Done (err, mkWriter (w_offset w) (w_length w) None (w_ref w), db')
      else Panic PanicSliceBounds
  end.

Definition writer_Size (w : writer) : Z * option error :=
  (wrap64 (w_offset w), None).

(** [Write]: the destination [w.buffer[w.offset:len(p)+w.offset]] must lie
    within the array (within the nil slice once the buffer is released). *)
Definition Write (w : writer) (p : bytes) : exec (Z * option error * writer) :=
  let lo := w_offset w in
  let hi := wrap64 (len p + w_offset w) in
  let cap := match w_buffer w with Some b => b_len b | None => 0 end in
  if (0 <=? lo) && (lo <=? hi) && (hi <=? cap) then
    let i := Z.min (hi - lo) (len p) in
    let buf := match w_buffer w with
               | Some b => Some (buf_copy_at b lo (firstn (Z.to_nat i) p))
               | None => None
               end in
    let w := mkWriter (wrap64 (w_offset w + i)) (w_length w) buf (w_ref w) in
    let w := if w_offset w >? w_length w
             then mkWriter (w_offset w) (w_offset w) (w_buffer w) (w_ref w)
             else w in
    Done (i, None, w)
  else Panic PanicSliceBounds.

(* ================================================================= *)
(** ** reader.go *)

Record reader : Type := mkReader {
  r_offset : Z;
  r_length : Z;
  r_buffer : bytes
}.

Definition NewReader (db : store) (ref : BlobRef)
  : option reader * option error :=
  let '((r, found), err) :=
    db_View (fun txn =>
      let pref := keyPrefix ref in
      let it := txn_NewIterator (mkOpts pref) txn in
      let it := it_Seek pref it in
      let '(buffer, found) :=
        if it_ValidForPrefix pref it then (snd (it_Item it), true)
        else ([], false) in
      ((mkReader 0 (len buffer) buffer, found), txn, None)) db in
  match err with
  | Some e => (None, Some e)
  | None => if found then (Some r, None) else (None, Some ErrMissingBlob)
  end.

(** [Read(p)]: the count, the error, the new contents of [p], the reader. *)
Definition Read (r : reader) (p : bytes)
  : exec (Z * option error * bytes * reader) :=
  if r_offset r >=? r_length r then Done (0, Some EOF, p, r)
  else
    match slice_from (r_buffer r) (r_offset r) with
    | Panic e => Panic e
    | Done src =>
        let '(n, p') := go_copy p src in
        Done (n, None, p',
              mkReader (wrap64 (r_offset r + n)) (r_length r) (r_buffer r))
    end.

Definition ReadAt (r : reader) (p : bytes) (off : Z)
  : exec (Z * option error * bytes * reader) :=
  match slice_from (r_buffer r) off with
  | Panic e => Panic e
  | Done src =>
      let '(n, p') := go_copy p src in
      Done (n, None, p',
            mkReader (wrap64 (r_offset r + n)) (r_length r) (r_buffer r))
  end.

Definition reader_Seek (r : reader) (offset whence : Z)
  : exec (Z * option error * reader) :=
  if negb (whence =? SeekStart) then Panic PanicImplementMe
  else
    let r := mkReader (wrap64 offset) (r_length r) (r_buffer r) in
    Done (wrap64 (r_offset r), None, r).

Definition Close (r : reader) : option error * reader :=
  (None, mkReader (r_offset r) (r_length r) []).

Definition reader_Size (r : reader) : Z * option error :=
  (len (r_buffer r), None).

(* ================================================================= *)
(** ** blobs.go *)

Record BlobStore : Type := mkStore {
  bs_db : store;                 (* the contents of the engine [b.db] *)
  namespaces : list bytes;
  dir : string
}.

Definition FormatV1 : Z := 1.      (* filestore.FormatV1 *)

(** [NewBlobStore(dir)]; [db] is what the engine opened on [dir] holds
    (nothing, for a new directory). The entries of the registry are
    sub-slices of [it.Item().Key()], here their bytes when they were
    appended: the program's registry while the records from "nmspc" on are
    [within_window defaultPrefetchSize]. *)
Definition NewBlobStore (dir : string) (db : store) : BlobStore :=
  let '(namespaces, _) :=
    db_View (fun txn =>
      let it := txn_NewIterator DefaultIteratorOptions txn in
      let it := it_Seek namespacePrefix it in
      let '(namespaces, _) :=
        for_valid_prefix namespacePrefix (it_cur it)
          (fun item namespaces =>
             (namespaces ++ [skipn (List.length namespacePrefix) (fst item)],
              None))
          [] in
      (namespaces, txn, None)) db in
  mkStore db namespaces dir.

Fixpoint bytesEq_loop (ns namespace : bytes) : bool :=
  match ns, namespace with
  | x :: ns', y :: namespace' =>
      if negb (Byte.eqb x y) then false else bytesEq_loop ns' namespace'
  | _, _ => true
  end.

Definition bytesEq (ns namespace : bytes) : bool :=
  if negb (len ns =? len namespace) then false
  else bytesEq_loop ns namespace.

Definition ensureNamespace (b : BlobStore) (ref : BlobRef)
  : option error * BlobStore :=
  if existsb (fun ns => bytesEq ns (Namespace ref)) (namespaces b)
  then (None, b)
  else
    let '(_, err, db') :=
      db_Update (fun txn =>
        let '(txn, e) :=
          txn_Set (namespacePrefix ++ Namespace ref) [x01] txn in
        (tt, txn, e)) (bs_db b) in
    match err with
    | Some e => (Some e, mkStore db' (namespaces b) (dir b))
    | None => (None, mkStore db' (namespaces b ++ [Namespace ref]) (dir b))
    end.

Definition Create (b : BlobStore) (ref : BlobRef)
  : writer * option error * BlobStore :=
  let '(err, b) := ensureNamespace b ref in
  (NewWriter ref, err, b).

Definition Open (b : BlobStore) (ref : BlobRef)
  : option reader * option error :=
  NewReader (bs_db b) ref.

Definition OpenWithStorageFormat (b : BlobStore) (ref : BlobRef)
    (formatVer : Z) : option reader * option error :=
  if negb (formatVer =? FormatV1) then (None, Some ErrUnsupportedFormat)
  else Open b ref.

Definition Delete (b : BlobStore) (ref : BlobRef)
  : option error * BlobStore :=
  let '(_, err, db') :=
    db_Update (fun txn =>
      let pref := keyPrefix ref in
      let it := txn_NewIterator (mkOpts pref) txn in
      let it := it_Seek pref it in
      let '(txn, err) :=
        for_valid_prefix pref (it_cur it)
          (fun item txn => let key := fst item in txn_Delete key txn)
          txn in
      (tt, txn, err)) (bs_db b) in
  (err, mkStore db' (namespaces b) (dir b)).

(** [Trash]; the body runs only on keys that begin with [keyPrefix ref],
    so [key[5:]] is within bounds. [txn.Set] and [txn.Delete] get the
    slices of the item, here their bytes at the call: the program's
    writes while the records under the prefix are
    [within_window keyOnlyPrefetchSize]. *)
Definition Trash (b : BlobStore) (ref : BlobRef) (timestamp : Time)
  : option error * BlobStore :=
  let '(_, err, db') :=
    db_Update (fun txn =>
      let pref := keyPrefix ref in
      let it := txn_NewIterator (mkOpts pref) txn in
      let it := it_Seek pref it in
      let '(txn, err) :=
        for_valid_prefix pref (it_cur it)
          (fun item txn =>
             let key := fst item in
             let '(txn, err) :=
               txn_Set (trashPrefix ++ skipn 5 key) (snd item) txn in
             match err with
             | Some e => (txn, Some e)
             | None => txn_Delete key txn
             end)
          txn in
      (tt, txn, err)) (bs_db b) in
  (err, mkStore db' (namespaces b) (dir b)).

Definition move (txn : Txn) (from to : bytes) : Txn * option error :=
  match txn_Get from txn with
  | (Some val, None) =>
      let '(txn, err) := txn_Set to val txn in
      match err with
      | Some e => (txn, Some e)
      | None => txn_Delete from txn
      end
  | (_, Some e) => (txn, Some e)
  | (None, None) => (txn, Some ErrKeyNotFound)
  end.

(** [RestoreTrash]; [keys] and [txn.Delete] get [it.Item().Key()], here
    its bytes at the call: the program's keys while the records from
    "trash" on are [within_window defaultPrefetchSize], and its writes
    while they also stay within [txnBudget]. *)
Definition RestoreTrash (b : BlobStore) (namespace : bytes)
  : list bytes * option error * BlobStore :=
  let '(keys, err, db') :=
    db_Update (fun txn =>
      let it := txn_NewIterator DefaultIteratorOptions txn in
      let it := it_Seek trashPrefix it in
      let '((keys, txn), err) :=
        for_valid_prefix trashPrefix (it_cur it)
          (fun item '(keys, txn) =>
             let key := fst item in
             let keys := keys ++ [key] in
             let origKey :=
               blobPrefix ++ skipn (List.length trashPrefix) key in
             let '(txn, err) := move txn key origKey in
             ((keys, txn), err))
          ([], txn) in
      (keys, txn, err)) (bs_db b) in
  (keys, err, mkStore db' (namespaces b) (dir b)).

(** [EmptyTrash] runs its function with [b.db.View]: the transaction is
    read-only. *)
Definition EmptyTrash (b : BlobStore) (namespace : bytes)
    (trashedBefore : Time) : Z * list bytes * option error * BlobStore :=
  let '(keys, err) :=
    db_View (fun txn =>
      let it := txn_NewIterator DefaultIteratorOptions txn in
      let it := it_Seek trashPrefix it in
      let '((keys, txn), err) :=
        for_valid_prefix trashPrefix (it_cur it)
          (fun item '(keys, txn) =>
             let key := fst item in
             let keys := keys ++ [key] in
             let '(txn, err) := txn_Delete key txn in
             ((keys, txn), err))
          ([], txn) in
      (keys, txn, err)) (bs_db b) in
  (0, keys, err, b).

Definition ListNamespaces (b : BlobStore) : list bytes * option error :=
  (namespaces b, None).

(* ================================================================= *)
(** ** blobs_test.go: the helpers [save] and [rall] *)

(** [save(ctx, store, ref, raw)]: create, write once, commit at time
    [now]. *)
Definition save (b : BlobStore) (ref : BlobRef) (raw : bytes) (now : Time)
  : exec (option error * BlobStore) :=
  let '(out, err, b) := Create b ref in
  match err with
  | Some e => Done (Some e, b)
  | None =>
      match Write out raw with
      | Panic e => Panic e
      | Done (_, Some e, _) => Done (Some e, b)
      | Done (_, None, out) =>
          match Commit out now (bs_db b) with
          | Panic e => Panic e
          | Done (err, _, db') =>
              Done (err, mkStore db' (namespaces b) (dir b))
          end
      end
  end.

Section ReadAll.

(** The capacity [append(b, 0)] gives a full slice of length [c]: the
    choice of the Go runtime, only known to exceed [c]. *)
Variable grow : nat -> nat.

(** [rall(r)]: [b] is the slice read so far, [cap] its capacity; [fuel]
    bounds the number of turns of the loop. [None] when the fuel runs
    out. *)
Fixpoint rall_loop (fuel : nat) (r : reader) (b : bytes) (cap : nat)
  : option (exec (bytes * option error)) :=
  match fuel with
  | O => None
  | S fuel' =>
      let cap := if Nat.eqb (List.length b) cap
                 then grow (List.length b) else cap in
      match Read r (repeat x00 (cap - List.length b)) with
      | Panic e => Some (Panic e)
      | Done (n, err, p, r) =>
          let b := b ++ firstn (Z.to_nat n) p in
          match err with
          | Some EOF => Some (Done (b, None))
          | Some e => Some (Done (b, Some e))
          | None => rall_loop fuel' r b cap
          end
      end
  end.

Definition rall (fuel : nat) (r : reader)
  : option (exec (bytes * option error)) :=
  rall_loop fuel r [] 1.

End ReadAll.

(* ================================================================= *)
(** ** Sessions of a writer, as the tests run them *)

Inductive writer_op : Type :=
| OpSeek (offset : Z)            (* out.Seek(offset, io.SeekStart) *)
| OpWrite (p : bytes).           (* out.Write(p) *)

Fixpoint run_ops (w : writer) (ops : list writer_op) : exec writer :=
  match ops with
  | [] => Done w
  | OpSeek offset :: rest =>
      match writer_Seek w offset SeekStart with
      | Panic e => Panic e
      | Done (_, _, w) => run_ops w rest
      end
  | OpWrite p :: rest =>
      match Write w p with
      | Panic e => Panic e
      | Done (_, _, w) => run_ops w rest
      end
  end.

(** [Create], the operations, [Commit] at time [now]: the store that
    results. *)
Definition create_commit (b : BlobStore) (ref : BlobRef)
    (ops : list writer_op) (now : Time) : exec (option error * BlobStore) :=
  let '(out, err, b) := Create b ref in
  match err with
  | Some e => Done (Some e, b)
  | None =>
      match run_ops out ops with
      | Panic e => Panic e
      | Done out =>
          match Commit out now (bs_db b) with
          | Panic e => Panic e
          | Done (err, _, db') =>
              Done (err, mkStore db' (namespaces b) (dir b))
          end
      end
  end.

(** [Open] and read to the end with [rall]. *)
Definition open_rall (grow : nat -> nat) (fuel : nat) (b : BlobStore)
    (ref : BlobRef) : option (exec (bytes * option error)) :=
  match Open b ref with
  | (Some r, None) => rall grow fuel r
  | (_, Some e) => Some (Done ([], Some e))
  | (None, None) => Some (Done ([], None))
  end.

(** The body of [TestReadWrite], [TestMultiWrite] and [TestWriteWithSeek]:
    create, operate, commit, open, read all. *)
Definition write_then_read (grow : nat -> nat) (fuel : nat) (b : BlobStore)
    (ref : BlobRef) (ops : list writer_op) (now : Time)
  : option (exec (bytes * option error)) :=
  match create_commit b ref ops now with
  | Panic e => Some (Panic e)
  | Done (Some e, _) => Some (Done ([], Some e))
  | Done (None, b) => open_rall grow fuel b ref
  end.

(** An open reader: the state [NewReader] leaves, and [Read], [ReadAt] and
    seeks within the content keep. *)
Definition reader_ok (r : reader) : Prop :=
  r_length r = len (r_buffer r) /\ len (r_buffer r) < 2 ^ 63 /\
  0 <= r_offset r <= r_length r.

(** A writer whose buffer is the staging array, not released. *)
Definition writer_wf (w : writer) : Prop :=
  exists b, w_buffer w = Some b /\ buf_wf b /\ b_len b = bufferCap.

(* ================================================================= *)
(** ** Properties named by the specification *)

(** The order of the quadruples (namespace, key, seconds, size). *)
Definition quad_compare (r1 r2 : BlobRef) (sec1 sec2 s1 s2 : Z)
  : comparison :=
  match lex_compare (Namespace r1) (Namespace r2) with
  | Eq =>
      match lex_compare (Key r1) (Key r2) with
      | Eq => match sec1 ?= sec2 with Eq => s1 ?= s2 | o => o end
      | o => o
      end
  | o => o
  end.

(** Distinct triples have distinct keys. *)
Definition key_injective : Prop :=
  forall r1 t1 s1 r2 t2 s2,
    (r1, t1, s1) <> (r2, t2, s2) -> key r1 t1 s1 <> key r2 t2 s2.

(** The records of one namespace are contiguous in key order. *)
Definition namespace_contiguous : Prop :=
  forall r1 t1 s1 r2 t2 s2 r3 t3 s3,
    lex_ltb (key r1 t1 s1) (key r2 t2 s2) = true ->
    lex_ltb (key r2 t2 s2) (key r3 t3 s3) = true ->
    Namespace r1 = Namespace r3 -> Namespace r2 = Namespace r1.

(** Within one namespace, the records of one key are contiguous in key
    order. *)
Definition key_contiguous : Prop :=
  forall r1 t1 s1 r2 t2 s2 r3 t3 s3,
    Namespace r1 = Namespace r2 -> Namespace r2 = Namespace r3 ->
    lex_ltb (key r1 t1 s1) (key r2 t2 s2) = true ->
    lex_ltb (key r2 t2 s2) (key r3 t3 s3) = true ->
    Key r1 = Key r3 -> Key r2 = Key r1.

(** A successful commit stores the first [w.length] bytes of the buffer
    under the key that carries [w.length]. *)
Definition commit_persists_logical_length : Prop :=
  forall w b now db w' db',
    w_buffer w = Some b ->
    Commit w now db = Done (None, w', db') ->
    db_get (key (w_ref w) now (w_length w)) db'
    = Some (buf_slice_to b (w_length w)).

(** Every commit and every cancel of a finalized writer reports an
    error. *)
Definition refinalization_is_an_error : Prop :=
  forall w now db,
    w_buffer w = None ->
    (exists e w' db', Commit w now db = Done (Some e, w', db')) /\
    (exists e w', Cancel w = (Some e, w')).

(** [EmptyTrash] removes every record of the trash partition and returns
    the keys removed. *)
Definition empty_trash_removes_all : Prop :=
  forall b namespace trashedBefore,
    store_sorted (bs_db b) = true ->
    let '(_, keys, err, b') := EmptyTrash b namespace trashedBefore in
    err = None /\
    bs_db b' = filter (fun e => negb (has_prefix trashPrefix (fst e)))
                      (bs_db b) /\
    keys = map fst (filter (fun e => has_prefix trashPrefix (fst e))
                           (bs_db b)).

(** The records under a prefix. *)
Definition under (pref : bytes) (e : entry) : bool := has_prefix pref (fst e).

(* ================================================================= *)
(** ** Inputs of the tests and of the examples *)

Definition test_ref : BlobRef := mkRef (bytes_of "ns") (bytes_of "key1").

(** A store in which one blob was saved and then trashed. *)
Definition store_with_trashed_blob : BlobStore :=
  match save (NewBlobStore "storage" []) test_ref (bytes_of "1234567890")
             (mkTime 1700000000 0) with
  | Done (_, b) => snd (Trash b test_ref (mkTime 1700000060 0))
  | Panic _ => NewBlobStore "storage" []
  end.

Definition trashed_key : bytes :=
  trashPrefix ++ bytes_of "ns" ++ bytes_of "key1"
  ++ be_encode 8 1700000000 ++ be_encode 8 10.

(** The operations of [TestWriteWithSeek], and the sequence of the
    specification's example, which has no write of "abcdefghijkl". *)
Definition documented_ops : list writer_op :=
  [OpSeek 10; OpWrite (bytes_of "1234567890");
   OpWrite (bytes_of "abcdefghijkl"); OpSeek 0; OpWrite (bytes_of "ST");
   OpWrite (bytes_of "MNB"); OpSeek 31].


Definition documented_payload : bytes :=
  bytes_of "STMNB" ++ repeat x00 5 ++ bytes_of "1234567890abcdefghijk".

(** Ten bytes written, the cursor moved back to 0. *)
Definition rewound_writer : writer :=
  mkWriter 0 10 (Some (mkBuf bufferCap (bytes_of "1234567890")))
           (mkRef (bytes_of "ns") (bytes_of "key1")).

(* ================================================================= *)
(** ** info.go *)

Record FileInfo : Type := mkFileInfo {
  fi_name : bytes;
  fi_size : Z;
  fi_modTime : Time
}.

Record BlobInfo : Type := mkBlobInfo {
  bi_ref : BlobRef;
  bi_size : Z;
  bi_name : bytes;
  bi_modTime : Time
}.

(** The zero [time.Time], January 1 of year 1, in Unix seconds. *)
Definition zeroTime : Time := mkTime (-62135596800) 0.

(** [BlobInfo{}]. *)
Definition zeroBlobInfo : BlobInfo := mkBlobInfo (mkRef [] []) 0 [] zeroTime.

Definition BlobInfo_BlobRef (i : BlobInfo) : BlobRef := bi_ref i.

Definition BlobInfo_Stat (i : BlobInfo) : FileInfo * option error :=
  (mkFileInfo (bi_name i) (bi_size i) (bi_modTime i), None).

(* ================================================================= *)
(** ** blobs.go: the other operations *)

Definition DeleteWithStorageFormat (b : BlobStore) (ref : BlobRef)
    (formatVer : Z) : option error * BlobStore :=
  if negb (formatVer =? FormatV1) then (Some ErrUnsupportedFormat, b)
  else Delete b ref.

(** [DeleteNamespace]; [txn.Delete] gets [it.Item().Key()], here its
    bytes at the call: the program's deletes while the records from the
    marker prefix on are [within_window defaultPrefetchSize]. *)
Definition DeleteNamespace (b : BlobStore) (ref : bytes)
  : option error * BlobStore :=
  let ns := namespacePrefix ++ ref in
  let '(_, err, db') :=
    db_Update (fun txn =>
      let it := txn_NewIterator DefaultIteratorOptions txn in
      let it := it_Seek ns it in
      let '(txn, err) :=
        for_valid_prefix ns (it_cur it)
          (fun item txn => txn_Delete (fst item) txn)
          txn in
      (tt, txn, err)) (bs_db b) in
  (err, mkStore db' (namespaces b) (dir b)).

(** [Stat]: the loop breaks at once and [info] is never assigned. *)
Definition Stat (b : BlobStore) (ref : BlobRef) : BlobInfo * option error :=
  let info := zeroBlobInfo in
  let pref := keyPrefix ref in
  let '(_, err) :=
    db_View (fun txn =>
      let it := txn_NewIterator (mkOpts pref) txn in
      let it := it_Seek pref it in
      let _ := it_ValidForPrefix pref it in
      (tt, txn, None)) (bs_db b) in
  (info, err).

Definition StatWithStorageFormat (b : BlobStore) (ref : BlobRef)
    (formatVer : Z) : option BlobInfo * option error :=
  if negb (formatVer =? FormatV1) then (None, Some ErrUnsupportedFormat)
  else let '(info, err) := Stat b ref in (Some info, err).

(** The three sums of [item.ValueSize()] over a prefix; [s] is an
    [int64]. [ValueSize] is taken as the length of the value, which it is
    for the values shorter than [valueThreshold], the 1-byte values of the
    marker records among them. *)
Definition space_used (pref : bytes) (b : BlobStore) : Z * option error :=
  db_View (fun txn =>
    let it := txn_NewIterator DefaultIteratorOptions txn in
    let it := it_Seek pref it in
    let '(s, err) :=
      for_valid_prefix pref (it_cur it)
        (fun item s => (wrap64 (s + len (snd item)), None))
        0 in
    (s, txn, err)) (bs_db b).

Definition SpaceUsedForTrash (b : BlobStore) : Z * option error :=
  space_used trashPrefix b.

(** [SpaceUsedForBlobs] seeks to [namespacePrefix]. *)
Definition SpaceUsedForBlobs (b : BlobStore) : Z * option error :=
  space_used namespacePrefix b.

Definition SpaceUsedForBlobsInNamespace (b : BlobStore) (namespace : bytes)
  : Z * option error :=
  let ns := namespacePrefix ++ namespace in
  space_used ns b.

Definition ns (namespace : bytes) : bytes := blobPrefix ++ namespace.

(** The loop of a transaction function whose body can panic. *)
Fixpoint for_valid_prefix_exec {S : Type} (pref : bytes) (cur : list entry)
    (body : entry -> S -> exec (S * option error)) (s : S)
  : exec (S * option error) :=
  match cur with
  | [] => Done (s, None)
  | item :: rest =>
      if has_prefix pref (fst item) then
        match body item s with
        | Panic p => Panic p
        | Done (s', Some e) => Done (s', Some e)
        | Done (s', None) => for_valid_prefix_exec pref rest body s'
        end
      else Done (s, None)
  end.

(** What the body of [WalkNamespace] passes to [walkFunc] for a key;
    [key[len(ns(namespace)) : len(key)-16]] panics on a key shorter than
    the prefix and the suffix together. *)
Definition walk_info (namespace key : bytes) : exec BlobInfo :=
  let lo := len (ns namespace) in
  let hi := len key - 16 in
  if (0 <=? lo) && (lo <=? hi) && (hi <=? len key) then
    let blobKey := skipn (Z.to_nat lo) (firstn (Z.to_nat hi) key) in
    match stat key with
    | Panic p => Panic p
    | Done (t, s) =>
        Done (mkBlobInfo (mkRef namespace blobKey) (wrap64 s) blobKey t)
    end
  else Panic PanicSliceBounds.

(** [WalkNamespace]; [S] is the state of the variables [walkFunc]
    captures. The argument [startFromPrefix] is not used. *)
Definition WalkNamespace {S : Type} (b : BlobStore) (namespace : bytes)
    (startFromPrefix : string) (walkFunc : BlobInfo -> S -> S * option error)
    (s : S) : exec (S * option error) :=
  let txn := mkTxn false (bs_db b) in
  let it := txn_NewIterator DefaultIteratorOptions txn in
  let it := it_Seek (ns namespace) it in
  for_valid_prefix_exec (ns namespace) (it_cur it)
    (fun item s =>
       let key := fst item in
       match walk_info namespace key with
       | Panic p => Panic p
       | Done info => Done (walkFunc info s)
       end) s.

(* ================================================================= *)
(** ** Notions used by the properties of the other operations *)

(** The items a loop [for ; it.ValidForPrefix(pref); it.Next()] visits
    from the position [cur]. *)
Fixpoint valid_items (pref : bytes) (cur : list entry) : list entry :=
  match cur with
  | [] => []
  | item :: rest =>
      if has_prefix pref (fst item) then item :: valid_items pref rest
      else []
  end.

(** One turn of the loop of [Trash] on the view of the transaction. *)
Definition trash_step (view : store) (item : entry) : store :=
  db_delete (fst item)
            (db_set (trashPrefix ++ skipn 5 (fst item)) (snd item) view).

(** Every namespace of the registry has its marker record. *)
Definition registry_consistent (b : BlobStore) : Prop :=
  forall n, In n (namespaces b) ->
            db_get (namespacePrefix ++ n) (bs_db b) = Some [x01].

(** The total size of the values of a list of records. *)
Definition values_size (l : list entry) : Z :=
  fold_right (fun e acc => len (snd e) + acc) 0 l.

(** One turn of the loop of [RestoreTrash] on the view of the
    transaction. *)
Definition restore_step (view : store) (item : entry) : store :=
  db_delete (fst item)
            (db_set (blobPrefix ++ skipn (List.length trashPrefix) (fst item))
                    (snd item) view).

(** The calls of [walkFunc] on a list of descriptors, up to the first
    error. *)
Fixpoint walk_fold {S : Type} (walkFunc : BlobInfo -> S -> S * option error)
    (infos : list BlobInfo) (s : S) : S * option error :=
  match infos with
  | [] => (s, None)
  | info :: rest =>
      match walkFunc info s with
      | (s', Some e) => (s', Some e)
      | (s', None) => walk_fold walkFunc rest s'
      end
  end.

(** The state every session keeps. *)
Definition session_inv (w : writer) : Prop :=
  writer_wf w /\ w_offset w <= w_length w /\ 0 <= w_length w /\
  forall b, w_buffer w = Some b -> len (b_head b) <= w_length w.

(* ================================================================= *)
(** * Properties *)

(* ================================================================= *)
(** ** Bytes *)

Lemma byte_val_range (b : byte) : 0 <= byte_val b < 256.
Proof.
  unfold byte_val. pose proof (Byte.to_N_bounded b). lia.
Qed.

Lemma byte_val_inj (x y : byte) : byte_val x = byte_val y -> x = y.
Proof.
  unfold byte_val. intros H.
  apply N2Z.inj in H.
  pose proof (Byte.of_to_N x) as Hx.
  pose proof (Byte.of_to_N y) as Hy.
  rewrite H in Hx. congruence.
Qed.

Lemma byte_val_of_Z (v : Z) : byte_val (byte_of_Z v) = v mod 256.
Proof.
  unfold byte_of_Z, byte_val.
  pose proof (Z.mod_pos_bound v 256 ltac:(lia)) as Hb.
  destruct (Byte.of_N (Z.to_N (v mod 256))) as [b|] eqn:E.
  - apply Byte.to_of_N in E. rewrite E. lia.
  - apply Byte.of_N_None_iff in E. lia.
Qed.

Lemma byte_eqb_eq (x y : byte) : Byte.eqb x y = true <-> x = y.
Proof.
  split; [apply Byte.byte_dec_bl | apply Byte.byte_dec_lb].
Qed.

Lemma byte_compare_eq (x y : byte) :
  (byte_val x ?= byte_val y) = Eq <-> x = y.
Proof.
  rewrite Z.compare_eq_iff. split; [apply byte_val_inj | congruence].
Qed.

(* ================================================================= *)
(** ** The lexicographic order *)

Lemma lex_compare_refl (a : bytes) : lex_compare a a = Eq.
Proof.
  induction a as [|x a IH]; simpl; [reflexivity|].
  now rewrite Z.compare_refl.
Qed.

Lemma lex_compare_eq (a b : bytes) : lex_compare a b = Eq -> a = b.
Proof.
  revert b; induction a as [|x a IH]; intros [|y b]; simpl; try congruence.
  destruct (byte_val x ?= byte_val y) eqn:E; try congruence.
  intros H. apply byte_compare_eq in E. f_equal; auto.
Qed.

Lemma lex_compare_antisym (a b : bytes) :
  lex_compare b a = CompOpp (lex_compare a b).
Proof.
  revert b; induction a as [|x a IH]; intros [|y b]; simpl; try reflexivity.
  rewrite (Z.compare_antisym (byte_val x) (byte_val y)).
  destruct (byte_val x ?= byte_val y); simpl; auto.
Qed.

Lemma lex_compare_trans (a b c : bytes) :
  lex_compare a b = Lt -> lex_compare b c = Lt -> lex_compare a c = Lt.
Proof.
  revert b c; induction a as [|x a IH]; intros [|y b] [|z c]; simpl;
    try congruence.
  destruct (Z.compare_spec (byte_val x) (byte_val y));
    destruct (Z.compare_spec (byte_val y) (byte_val z));
    destruct (Z.compare_spec (byte_val x) (byte_val z));
    try congruence; try lia; eauto.
Qed.

Lemma bytes_eqb_eq (a b : bytes) : bytes_eqb a b = true <-> a = b.
Proof.
  unfold bytes_eqb. split.
  - destruct (lex_compare a b) eqn:E; try discriminate.
    intros _. now apply lex_compare_eq.
  - intros ->. now rewrite lex_compare_refl.
Qed.

Lemma lex_ltb_irrefl (a : bytes) : lex_ltb a a = false.
Proof. unfold lex_ltb. now rewrite lex_compare_refl. Qed.

Lemma lex_ltb_trans (a b c : bytes) :
  lex_ltb a b = true -> lex_ltb b c = true -> lex_ltb a c = true.
Proof.
  unfold lex_ltb.
  destruct (lex_compare a b) eqn:E1; try discriminate.
  destruct (lex_compare b c) eqn:E2; try discriminate.
  now rewrite (lex_compare_trans _ _ _ E1 E2).
Qed.

(** Strings of equal length are compared before what follows them. *)
Lemma lex_compare_app (a b c d : bytes) :
  List.length a = List.length b ->
  lex_compare (a ++ c) (b ++ d) =
  match lex_compare a b with Eq => lex_compare c d | o => o end.
Proof.
  revert b; induction a as [|x a IH]; intros [|y b] H; simpl in *;
    try discriminate; [reflexivity|].
  destruct (byte_val x ?= byte_val y); auto.
Qed.

Lemma app_inj_length (a b c d : bytes) :
  List.length a = List.length b -> a ++ c = b ++ d -> a = b /\ c = d.
Proof.
  revert b; induction a as [|x a IH]; intros [|y b] H E; simpl in *;
    try discriminate; [auto|].
  injection E as -> E. destruct (IH b) as [-> ->]; auto.
Qed.

(* ================================================================= *)
(** ** Prefixes *)

Lemma has_prefix_app (p s : bytes) : has_prefix p (p ++ s) = true.
Proof.
  induction p as [|x p IH]; simpl; [reflexivity|].
  rewrite IH, andb_true_r. now apply byte_eqb_eq.
Qed.

Lemma has_prefix_split (p k : bytes) :
  has_prefix p k = true -> exists s, k = p ++ s.
Proof.
  revert k; induction p as [|x p IH]; intros k H; simpl in *.
  - now exists k.
  - destruct k as [|y k]; [discriminate|].
    apply andb_true_iff in H as [H1 H2]. apply byte_eqb_eq in H1 as ->.
    destruct (IH _ H2) as [s ->]. now exists s.
Qed.

(** A key that has the prefix is not below it. *)
Lemma prefix_not_below (p k : bytes) :
  has_prefix p k = true -> lex_ltb k p = false.
Proof.
  revert k; induction p as [|x p IH]; intros k H; simpl in *.
  - unfold lex_ltb. now destruct k.
  - destruct k as [|y k]; [discriminate|].
    apply andb_true_iff in H as [H1 H2]. apply byte_eqb_eq in H1 as ->.
    specialize (IH _ H2). unfold lex_ltb in *. simpl.
    now rewrite Z.compare_refl.
Qed.

(** Past a key that is not below the prefix and does not have it, no key
    has it. *)
Lemma prefix_passed (p k k' : bytes) :
  lex_ltb k p = false -> has_prefix p k = false ->
  lex_ltb k k' = true -> has_prefix p k' = false.
Proof.
  unfold lex_ltb.
  revert k k'; induction p as [|x p IH]; intros k k' H1 H2 H3; simpl in *.
  - discriminate.
  - destruct k' as [|z k']; [reflexivity|].
    destruct k as [|y k]; simpl in *; [discriminate|].
    destruct (Byte.eqb x z) eqn:Exz; [|reflexivity]. simpl.
    apply byte_eqb_eq in Exz. subst z.
    destruct (Z.compare_spec (byte_val y) (byte_val x)) as [E|E|E];
      try discriminate.
    apply byte_val_inj in E. subst y.
    assert (Byte.eqb x x = true) as Hxx by now apply byte_eqb_eq.
    rewrite Hxx in H2. simpl in H2. eapply IH; eauto.
Qed.

(* ================================================================= *)
(** ** Big-endian integers *)

Lemma be_encode_length (n : nat) (v : Z) : List.length (be_encode n v) = n.
Proof.
  revert v; induction n as [|n IH]; intros v; simpl; [reflexivity|].
  rewrite length_app, IH. simpl. lia.
Qed.

Lemma be_decode_snoc (l : bytes) (x : byte) :
  be_decode (l ++ [x]) = be_decode l * 256 + byte_val x.
Proof. unfold be_decode. now rewrite fold_left_app. Qed.

Lemma be_decode_encode (n : nat) (v : Z) :
  be_decode (be_encode n v) = v mod 256 ^ Z.of_nat n.
Proof.
  revert v; induction n as [|n IH]; intros v.
  - simpl. now rewrite Z.mod_1_r.
  - simpl be_encode. rewrite be_decode_snoc, IH, byte_val_of_Z.
    rewrite Nat2Z.inj_succ, Z.pow_succ_r by lia.
    rewrite (Z.rem_mul_r v 256 (256 ^ Z.of_nat n)) by lia. lia.
Qed.

Lemma be_encode_compare (n : nat) (a b : Z) :
  0 <= a < 256 ^ Z.of_nat n -> 0 <= b < 256 ^ Z.of_nat n ->
  lex_compare (be_encode n a) (be_encode n b) = (a ?= b).
Proof.
  revert a b; induction n as [|n IH]; intros a b Ha Hb.
  - simpl in *. assert (a = 0) by lia. assert (b = 0) by lia. subst.
    reflexivity.
  - rewrite Nat2Z.inj_succ, Z.pow_succ_r in Ha, Hb by lia.
    simpl be_encode.
    rewrite lex_compare_app by now rewrite !be_encode_length.
    rewrite IH by (split; [apply Z.div_pos; lia
                          | apply Z.div_lt_upper_bound; lia]).
    simpl. rewrite !byte_val_of_Z.
    pose proof (Z.div_mod a 256 ltac:(lia)).
    pose proof (Z.div_mod b 256 ltac:(lia)).
    pose proof (Z.mod_pos_bound a 256 ltac:(lia)).
    pose proof (Z.mod_pos_bound b 256 ltac:(lia)).
    destruct (Z.compare_spec (a / 256) (b / 256));
      destruct (Z.compare_spec (a mod 256) (b mod 256));
      destruct (Z.compare_spec a b); try reflexivity; lia.
Qed.

Lemma wrap64_u64 (z : Z) : int64_range z -> wrap64 (u64 z) = z.
Proof.
  unfold int64_range, wrap64, u64. intros H.
  rewrite Zplus_mod_idemp_l.
  change (2 ^ 64) with 18446744073709551616 in *.
  change (2 ^ 63) with 9223372036854775808 in *.
  rewrite Z.mod_small; lia.
Qed.

Lemma u64_inj (a b : Z) :
  int64_range a -> int64_range b -> u64 a = u64 b -> a = b.
Proof.
  intros Ha Hb E. rewrite <- (wrap64_u64 Ha), <- (wrap64_u64 Hb).
  now rewrite E.
Qed.

Lemma u64_range (z : Z) : 0 <= u64 z < 256 ^ Z.of_nat 8.
Proof.
  unfold u64. change (256 ^ Z.of_nat 8) with (2 ^ 64).
  apply Z.mod_pos_bound. reflexivity.
Qed.

Lemma u64_nonneg (z : Z) : 0 <= z < 2 ^ 63 -> u64 z = z.
Proof.
  unfold u64. intros H. change (2 ^ 64) with 18446744073709551616 in *.
  change (2 ^ 63) with 9223372036854775808 in *.
  apply Z.mod_small. lia.
Qed.

Lemma Uint64_be_encode (v : Z) : Uint64 (be_encode 8 (u64 v)) = u64 v.
Proof.
  unfold Uint64. rewrite be_decode_encode.
  apply Z.mod_small, u64_range.
Qed.

(* ================================================================= *)
(** ** The key codec *)

Lemma key_unfold (ref : BlobRef) (t : Time) (size : Z) :
  key ref t size =
  blobPrefix ++ Namespace ref ++ Key ref
  ++ be_encode 8 (u64 (Time_Unix t)) ++ be_encode 8 (u64 size).
Proof.
  unfold key, AppendUint64. simpl app at 1.
  now rewrite <- !app_assoc.
Qed.

Lemma key_prefix_suffix (ref : BlobRef) (t : Time) (size : Z) :
  key ref t size =
  keyPrefix ref ++ be_encode 8 (u64 (Time_Unix t)) ++ be_encode 8 (u64 size).
Proof.
  rewrite key_unfold. unfold keyPrefix. now rewrite <- !app_assoc.
Qed.

Lemma skipn_length_app (A : Type) (a b : list A) (n : nat) :
  n = List.length a -> skipn n (a ++ b) = b.
Proof.
  intros ->. rewrite skipn_app, skipn_all, Nat.sub_diag. reflexivity.
Qed.

Lemma firstn_length_app (A : Type) (a b : list A) (n : nat) :
  n = List.length a -> firstn n (a ++ b) = a.
Proof.
  intros ->. rewrite firstn_app, firstn_all, Nat.sub_diag. simpl.
  apply app_nil_r.
Qed.

(** C7. For every reference, every size of the non-negative [int] range
    and every time whose Unix seconds fit an [int64], [stat] applied to
    [key ref t size] returns the time truncated to whole seconds and the
    size: the trailing 16 bytes are read back as two big-endian 64-bit
    integers. *)
Theorem stat_key_roundtrip (ref : BlobRef) (t : Time) (size : Z) :
  int64_range (Time_Unix t) ->
  0 <= size < 2 ^ 63 ->
  stat (key ref t size) = Done (Truncate_Second t, size).
Proof.
  intros Ht Hs.
  rewrite key_prefix_suffix. unfold stat, len.
  set (raw := be_encode 8 (u64 (Time_Unix t)) ++ be_encode 8 (u64 size)).
  assert (List.length raw = 16%nat) as Hraw
    by (unfold raw; now rewrite length_app, !be_encode_length).
  rewrite length_app, Hraw.
  destruct (Z.ltb_spec (Z.of_nat (List.length (keyPrefix ref) + 16) - 16) 0);
    [lia|].
  rewrite skipn_length_app by lia.
  unfold raw.
  rewrite firstn_length_app by now rewrite be_encode_length.
  rewrite skipn_length_app by now rewrite be_encode_length.
  rewrite !Uint64_be_encode, !wrap64_u64; try assumption.
  - reflexivity.
  - unfold int64_range. lia.
Qed.

Lemma stat_key_roundtrip_witness :
  stat (key (mkRef (bytes_of "ns") (bytes_of "key")) (mkTime 1700000000 250)
            1234)
  = Done (mkTime 1700000000 0, 1234).
Proof.
  apply (@stat_key_roundtrip (mkRef (bytes_of "ns") (bytes_of "key"))
           (mkTime 1700000000 250) 1234).
  - unfold int64_range; simpl; lia.
  - lia.
Defined.

Lemma key_concat (ref : BlobRef) (t : Time) (size : Z) :
  key ref t size =
  blobPrefix ++ (Namespace ref ++ Key ref)
  ++ be_encode 8 (u64 (Time_Unix t)) ++ be_encode 8 (u64 size).
Proof.
  rewrite key_unfold. now rewrite <- !app_assoc.
Qed.

Lemma app_inj_tail_length (a b c d : bytes) :
  List.length c = List.length d -> a ++ c = b ++ d -> a = b /\ c = d.
Proof.
  intros Hl E. apply app_inj_length; [|assumption].
  apply (f_equal (@List.length byte)) in E.
  rewrite !length_app in E. lia.
Qed.

(** C6, as the code has it. [key] is a function of the reference, the
    Unix seconds of the time and the size, and the suffix it appends has
    16 bytes whatever they are. Two encoded keys are therefore equal
    exactly when the concatenations of namespace and key, the seconds and
    the sizes are equal. Among references whose namespaces have one
    length that is exactly when the references, the seconds and the sizes
    are equal, whatever the lengths of the keys, and the keys of two such
    references with different namespaces compare as the namespaces do, so
    that the records of one namespace are contiguous. Among references
    whose namespaces have one length and whose keys have one length the
    lexicographic order of the encoded keys is the order by namespace,
    then key, then seconds, then size, the seconds and the sizes compared
    as unsigned 64-bit integers, so that the records of one key are
    contiguous; that is the order of the seconds and sizes themselves
    when they are not negative, and then the versions of one reference
    are ordered by seconds, then size. *)
Theorem key_injective_and_ordered
    (r1 r2 : BlobRef) (t1 t2 : Time) (s1 s2 : Z) :
  int64_range (Time_Unix t1) -> int64_range (Time_Unix t2) ->
  int64_range s1 -> int64_range s2 ->
  (key r1 t1 s1 = key r2 t2 s2 <->
   Namespace r1 ++ Key r1 = Namespace r2 ++ Key r2 /\
   Time_Unix t1 = Time_Unix t2 /\ s1 = s2) /\
  (List.length (Namespace r1) = List.length (Namespace r2) ->
   (key r1 t1 s1 = key r2 t2 s2 <->
    r1 = r2 /\ Time_Unix t1 = Time_Unix t2 /\ s1 = s2) /\
   (Namespace r1 <> Namespace r2 ->
    lex_compare (key r1 t1 s1) (key r2 t2 s2)
    = lex_compare (Namespace r1) (Namespace r2))) /\
  (List.length (Namespace r1) = List.length (Namespace r2) ->
   List.length (Key r1) = List.length (Key r2) ->
   lex_compare (key r1 t1 s1) (key r2 t2 s2)
   = quad_compare r1 r2 (u64 (Time_Unix t1)) (u64 (Time_Unix t2))
                  (u64 s1) (u64 s2)) /\
  (0 <= Time_Unix t1 -> 0 <= Time_Unix t2 -> 0 <= s1 -> 0 <= s2 ->
   (List.length (Namespace r1) = List.length (Namespace r2) ->
    List.length (Key r1) = List.length (Key r2) ->
    lex_compare (key r1 t1 s1) (key r2 t2 s2)
    = quad_compare r1 r2 (Time_Unix t1) (Time_Unix t2) s1 s2) /\
   (r1 = r2 ->
    lex_compare (key r1 t1 s1) (key r2 t2 s2)
    = match Time_Unix t1 ?= Time_Unix t2 with Eq => s1 ?= s2 | o => o end)).
Proof.
  intros Ht1 Ht2 Hs1 Hs2.
  assert (key r1 t1 s1 = key r2 t2 s2 <->
          Namespace r1 ++ Key r1 = Namespace r2 ++ Key r2 /\
          Time_Unix t1 = Time_Unix t2 /\ s1 = s2) as Hinj.
  { rewrite !key_concat. split.
    - intros E.
      apply app_inv_head in E. rewrite !app_assoc in E.
      apply app_inj_tail_length in E as [E Es];
        [|now rewrite !be_encode_length].
      apply app_inj_tail_length in E as [E Et];
        [|now rewrite !be_encode_length].
      apply (f_equal Uint64) in Et, Es.
      rewrite !Uint64_be_encode in Et, Es.
      apply u64_inj in Et, Es; auto.
    - intros (-> & -> & ->). reflexivity. }
  assert (List.length (Namespace r1) = List.length (Namespace r2) ->
          List.length (Key r1) = List.length (Key r2) ->
          lex_compare (key r1 t1 s1) (key r2 t2 s2)
          = quad_compare r1 r2 (u64 (Time_Unix t1)) (u64 (Time_Unix t2))
                         (u64 s1) (u64 s2)) as Hord.
  { intros Hn Hk. unfold quad_compare. rewrite !key_unfold.
    rewrite lex_compare_app by reflexivity. rewrite lex_compare_refl.
    rewrite lex_compare_app by assumption.
    destruct (lex_compare (Namespace r1) (Namespace r2)); try reflexivity.
    rewrite lex_compare_app by assumption.
    destruct (lex_compare (Key r1) (Key r2)); try reflexivity.
    rewrite lex_compare_app by now rewrite !be_encode_length.
    now rewrite !be_encode_compare by apply u64_range. }
  split; [exact Hinj|]. split; [|split; [exact Hord|]].
  - intros Hn. split.
    + rewrite Hinj. split.
      * intros (E & Et & Es).
        apply app_inj_length in E as [En Ek]; [|assumption].
        destruct r1, r2; simpl in *; subst; auto.
      * intros (-> & Et & Es). auto.
    + intros Hne. rewrite !key_unfold.
      rewrite lex_compare_app by reflexivity. rewrite lex_compare_refl.
      rewrite lex_compare_app by assumption.
      destruct (lex_compare (Namespace r1) (Namespace r2)) eqn:C;
        try reflexivity.
      apply lex_compare_eq in C. contradiction.
  - intros P1 P2 P3 P4. unfold int64_range in *.
    assert (u64 (Time_Unix t1) = Time_Unix t1) as U1 by (apply u64_nonneg; lia).
    assert (u64 (Time_Unix t2) = Time_Unix t2) as U2 by (apply u64_nonneg; lia).
    assert (u64 s1 = s1) as U3 by (apply u64_nonneg; lia).
    assert (u64 s2 = s2) as U4 by (apply u64_nonneg; lia).
    rewrite U1, U2, U3, U4 in Hord. split; [exact Hord|].
    intros E. rewrite Hord by now rewrite E.
    unfold quad_compare. rewrite E, !lex_compare_refl. reflexivity.
Qed.

Lemma key_injective_and_ordered_witness :
  let r1 := mkRef (bytes_of "ns") (bytes_of "key") in
  let r2 := mkRef (bytes_of "nt") (bytes_of "k") in
  (key r1 (mkTime 5 0) 10 = key r2 (mkTime 4 0) 3 <->
   Namespace r1 ++ Key r1 = Namespace r2 ++ Key r2 /\ 5 = 4 /\ 10 = 3) /\
  (List.length (Namespace r1) = List.length (Namespace r2) ->
   (key r1 (mkTime 5 0) 10 = key r2 (mkTime 4 0) 3 <->
    r1 = r2 /\ 5 = 4 /\ 10 = 3) /\
   (Namespace r1 <> Namespace r2 ->
    lex_compare (key r1 (mkTime 5 0) 10) (key r2 (mkTime 4 0) 3)
    = lex_compare (Namespace r1) (Namespace r2))) /\
  (List.length (Namespace r1) = List.length (Namespace r2) ->
   List.length (Key r1) = List.length (Key r2) ->
   lex_compare (key r1 (mkTime 5 0) 10) (key r2 (mkTime 4 0) 3)
   = quad_compare r1 r2 (u64 5) (u64 4) (u64 10) (u64 3)) /\
  (0 <= 5 -> 0 <= 4 -> 0 <= 10 -> 0 <= 3 ->
   (List.length (Namespace r1) = List.length (Namespace r2) ->
    List.length (Key r1) = List.length (Key r2) ->
    lex_compare (key r1 (mkTime 5 0) 10) (key r2 (mkTime 4 0) 3)
    = quad_compare r1 r2 5 4 10 3) /\
   (r1 = r2 ->
    lex_compare (key r1 (mkTime 5 0) 10) (key r2 (mkTime 4 0) 3)
    = match 5 ?= 4 with Eq => 10 ?= 3 | o => o end)).
Proof.
  intros r1 r2.
  apply (@key_injective_and_ordered r1 r2 (mkTime 5 0) (mkTime 4 0) 10 3);
    unfold int64_range; simpl; lia.
Defined.

Lemma key_not_injective_nor_contiguous :
  ~ key_injective /\
  ((mkRef (bytes_of "ns") (bytes_of "k"), mkTime 1 0, 7)
   <> (mkRef (bytes_of "ns") (bytes_of "k"), mkTime 1 500, 7) /\
   key (mkRef (bytes_of "ns") (bytes_of "k")) (mkTime 1 0) 7
   = key (mkRef (bytes_of "ns") (bytes_of "k")) (mkTime 1 500) 7) /\
  ~ namespace_contiguous /\ ~ key_contiguous /\
  lex_compare (key (mkRef (bytes_of "ns") (bytes_of "k")) (mkTime 1 0) 7)
              (key (mkRef (bytes_of "ns") (bytes_of "k")) (mkTime (-1) 0) 7)
  = Lt /\
  lex_compare (key (mkRef (bytes_of "ns") (bytes_of "k")) (mkTime 1 0) 7)
              (key (mkRef (bytes_of "ns") (bytes_of "k")) (mkTime 1 0) (-1))
  = Lt.
Proof.
  split; [|split; [|split; [|split; [|split]]]].
  - intros H.
    apply (H (mkRef (bytes_of "a") (bytes_of "bc")) (mkTime 1 0) 7
             (mkRef (bytes_of "ab") (bytes_of "c")) (mkTime 1 0) 7).
    + discriminate.
    + reflexivity.
  - split; [discriminate|reflexivity].
  - intros H.
    specialize (H (mkRef (bytes_of "a") (bytes_of "a")) (mkTime 1 0) 7
                  (mkRef (bytes_of "ab") (bytes_of "")) (mkTime 1 0) 7
                  (mkRef (bytes_of "a") (bytes_of "c")) (mkTime 1 0) 7
                  eq_refl eq_refl eq_refl).
    discriminate H.
  - intros H.
    specialize (H (mkRef (bytes_of "ns") (bytes_of "k")) (mkTime 1 0) 7
                  (mkRef (bytes_of "ns")
                         (bytes_of "k" ++ be_encode 8 2)) (mkTime 9 0) 7
                  (mkRef (bytes_of "ns") (bytes_of "k")) (mkTime 3 0) 7
                  eq_refl eq_refl eq_refl eq_refl eq_refl).
    discriminate H.
  - reflexivity.
  - reflexivity.
Qed.

(* ================================================================= *)
(** ** The staging array *)

Lemma firstn_repeat (A : Type) (x : A) (n m : nat) :
  firstn n (repeat x m) = repeat x (Nat.min n m).
Proof.
  revert m; induction n as [|n IH]; intros [|m]; simpl; try reflexivity.
  now rewrite IH.
Qed.

Lemma skipn_repeat (A : Type) (x : A) (n m : nat) :
  skipn n (repeat x m) = repeat x (m - n).
Proof.
  revert m; induction n as [|n IH]; intros [|m]; simpl; try reflexivity.
  now rewrite IH.
Qed.

Lemma head_upto_length (n : nat) (h : bytes) :
  List.length (head_upto n h) = n.
Proof.
  unfold head_upto. rewrite length_firstn, length_app, repeat_length. lia.
Qed.

(** Padding with more zeros than needed changes nothing. *)
Lemma head_upto_pad (n m : nat) (h : bytes) :
  (n - List.length h <= m)%nat ->
  head_upto n h = firstn n (h ++ repeat x00 m).
Proof.
  intros H. unfold head_upto. rewrite !firstn_app, !firstn_repeat.
  do 2 f_equal. lia.
Qed.

Lemma head_upto_short (n : nat) (h : bytes) :
  (List.length h <= n)%nat ->
  head_upto n h = h ++ repeat x00 (n - List.length h).
Proof.
  intros H. unfold head_upto. apply firstn_all2.
  rewrite length_app, repeat_length. lia.
Qed.

Lemma head_upto_all (h : bytes) : head_upto (List.length h) h = h.
Proof.
  rewrite head_upto_short, Nat.sub_diag by lia. apply app_nil_r.
Qed.

(** [b[:hi]] in the representation is [b[:hi]] of the array. *)
Lemma buf_slice_to_list (b : buffer) (hi : Z) :
  buf_wf b -> 0 <= hi <= b_len b ->
  buf_slice_to b hi = firstn (Z.to_nat hi) (buf_list b).
Proof.
  unfold buf_wf, len, buf_slice_to, buf_list. intros W H.
  apply head_upto_pad. lia.
Qed.

(** [copy(b[off:off+len(p)], p)] in the representation is the copy into
    the array. *)
Lemma buf_copy_at_list (b : buffer) (off : Z) (p : bytes) :
  buf_wf b -> 0 <= off -> off + len p <= b_len b ->
  buf_list (buf_copy_at b off p)
  = firstn (Z.to_nat off) (buf_list b) ++ p
    ++ skipn (Z.to_nat off + List.length p) (buf_list b).
Proof.
  unfold buf_wf, len. intros W H0 H1.
  unfold buf_list at 1. unfold buf_copy_at. cbn [b_len b_head].
  rewrite <- buf_slice_to_list by (unfold buf_wf, len; lia).
  unfold buf_slice_to, buf_list.
  rewrite skipn_app, skipn_repeat.
  rewrite !length_app, head_upto_length, length_skipn.
  rewrite <- !app_assoc. do 3 f_equal. f_equal. lia.
Qed.

Lemma buf_copy_at_wf (b : buffer) (off : Z) (p : bytes) :
  buf_wf b -> 0 <= off -> off + len p <= b_len b ->
  buf_wf (buf_copy_at b off p).
Proof.
  unfold buf_wf, buf_copy_at, len. cbn [b_len b_head]. intros W H0 H1.
  rewrite !length_app, head_upto_length, length_skipn. lia.
Qed.

Lemma make_bytes_list (n : Z) : buf_list (make_bytes n) = repeat x00 (Z.to_nat n).
Proof. unfold buf_list, make_bytes. simpl. now rewrite Nat.sub_0_r. Qed.

(* ================================================================= *)
(** ** Machine integers in range *)

Lemma wrap64_small (z : Z) : - 2 ^ 63 <= z < 2 ^ 63 -> wrap64 z = z.
Proof.
  unfold wrap64. intros H.
  change (2 ^ 64) with 18446744073709551616 in *.
  change (2 ^ 63) with 9223372036854775808 in *.
  rewrite Z.mod_small; lia.
Qed.

Lemma bufferCap_small : bufferCap < 2 ^ 63.
Proof. reflexivity. Qed.

(* ================================================================= *)
(** ** The writer *)

(** A write that fits the array copies all of [p] at the cursor. *)
Lemma Write_fits (w : writer) (b : buffer) (p : bytes) :
  w_buffer w = Some b -> b_len b < 2 ^ 63 ->
  0 <= w_offset w -> w_offset w + len p <= b_len b ->
  let w' := mkWriter (w_offset w + len p)
                     (Z.max (w_length w) (w_offset w + len p))
                     (Some (buf_copy_at b (w_offset w) p)) (w_ref w) in
  Write w p = Done (len p, None, w').
Proof.
  intros Hb Hcap H0 H1 w'. unfold w', Write. rewrite Hb.
  assert (0 <= len p) by (unfold len; lia).
  rewrite (wrap64_small (z := len p + w_offset w)) by lia.
  destruct (Z.leb_spec 0 (w_offset w)); [|lia].
  destruct (Z.leb_spec (w_offset w) (len p + w_offset w)); [|lia].
  destruct (Z.leb_spec (len p + w_offset w) (b_len b)); [|lia].
  cbn [andb].
  replace (len p + w_offset w - w_offset w) with (len p) by lia.
  rewrite Z.min_id.
  replace (Z.to_nat (len p)) with (List.length p) by (unfold len; lia).
  rewrite firstn_all.
  rewrite (wrap64_small (z := w_offset w + len p)) by lia.
  cbn [w_offset w_length w_buffer w_ref].
  destruct (Z.gtb_spec (w_offset w + len p) (w_length w)).
  - now rewrite Z.max_r by lia.
  - now rewrite Z.max_l by lia.
Qed.

Lemma writer_Seek_start (w : writer) (offset : Z) :
  - 2 ^ 63 <= offset < 2 ^ 63 ->
  writer_Seek w offset SeekStart =
  Done (offset, None,
        mkWriter offset (Z.max (w_length w) offset) (w_buffer w) (w_ref w)).
Proof.
  intros H. unfold writer_Seek. simpl negb. cbv iota.
  cbn [w_offset w_length w_buffer w_ref].
  rewrite !(wrap64_small H).
  destruct (Z.gtb_spec offset (w_length w));
    cbn [w_offset w_length w_buffer w_ref]; rewrite !(wrap64_small H).
  - now rewrite Z.max_r by lia.
  - now rewrite Z.max_l by lia.
Qed.

Lemma Commit_open (w : writer) (b : buffer) (now : Time) (db : store) :
  w_buffer w = Some b -> 0 <= w_offset w <= b_len b ->
  Commit w now db =
  Done (None, mkWriter (w_offset w) (w_length w) None (w_ref w),
        db_set (key (w_ref w) now (w_offset w))
               (buf_slice_to b (w_offset w)) db).
Proof.
  intros Hb H. unfold Commit. rewrite Hb.
  destruct (Z.leb_spec 0 (w_offset w)); [|lia].
  destruct (Z.leb_spec (w_offset w) (b_len b)); [|lia].
  reflexivity.
Qed.

(** Sequential writes from the state in which [acc] has been written. *)
Lemma run_ops_writes (ref : BlobRef) (chunks : list bytes) (acc : bytes) :
  len (acc ++ List.concat chunks) <= bufferCap ->
  run_ops (mkWriter (len acc) (len acc) (Some (mkBuf bufferCap acc)) ref)
          (map OpWrite chunks)
  = Done (mkWriter (len (acc ++ List.concat chunks)) (len (acc ++ List.concat chunks))
                   (Some (mkBuf bufferCap (acc ++ List.concat chunks))) ref).
Proof.
  revert acc; induction chunks as [|p chunks IH]; intros acc H.
  - simpl. now rewrite app_nil_r.
  - simpl map. simpl List.concat in *. cbn [run_ops].
    assert (len (acc ++ p) = len acc + len p) as Hl
      by (unfold len; rewrite length_app; lia).
    assert (len ((acc ++ p) ++ List.concat chunks)
            = len (acc ++ p) + len (List.concat chunks)) as Hl2
      by (unfold len; rewrite !length_app; lia).
    rewrite app_assoc in H |- *.
    assert (0 <= len (List.concat chunks)) by (unfold len; lia).
    assert (0 <= len acc) by (unfold len; lia).
    assert (0 <= len p) by (unfold len; lia).
    pose proof bufferCap_small.
    rewrite (@Write_fits
               (mkWriter (len acc) (len acc) (Some (mkBuf bufferCap acc)) ref)
               (mkBuf bufferCap acc) p eq_refl);
      cbn [w_offset w_length w_buffer w_ref b_len]; try lia.
    cbn [w_offset w_length w_buffer w_ref].
    unfold buf_copy_at. cbn [b_len b_head].
    replace (Z.to_nat (len acc)) with (List.length acc) by (unfold len; lia).
    rewrite head_upto_all, skipn_all2, app_nil_r by lia.
    rewrite Z.max_r, <- Hl by lia.
    now apply IH.
Qed.

(* ================================================================= *)
(** ** The writers a session reaches *)

Lemma Write_wf (w w' : writer) (p : bytes) (i : Z) (err : option error) :
  writer_wf w -> Write w p = Done (i, err, w') -> writer_wf w'.
Proof.
  intros (b & Hb & Hwf & Hlen). unfold Write. rewrite Hb.
  set (hi := wrap64 (len p + w_offset w)).
  destruct (Z.leb_spec 0 (w_offset w)); [|discriminate].
  destruct (Z.leb_spec (w_offset w) hi); [|discriminate].
  destruct (Z.leb_spec hi (b_len b)); [|discriminate].
  cbn [andb]. intros [= _ _ <-].
  set (q := firstn (Z.to_nat (Z.min (hi - w_offset w) (len p))) p).
  exists (buf_copy_at b (w_offset w) q).
  split; [|split].
  - cbn [w_offset w_length w_buffer w_ref].
    match goal with |- w_buffer (if ?c then _ else _) = _ => now destruct c end.
  - apply buf_copy_at_wf; [assumption|assumption|].
    unfold q, len. rewrite length_firstn. unfold len in *. lia.
  - exact Hlen.
Qed.

Lemma run_ops_wf (ops : list writer_op) :
  forall w w', writer_wf w -> run_ops w ops = Done w' -> writer_wf w'.
Proof.
  induction ops as [|[offset|p] ops IH]; intros w w' Hw H; cbn [run_ops] in H.
  - now injection H as <-.
  - unfold writer_Seek in H.
    change (negb (SeekStart =? SeekStart)) with false in H. cbv iota in H.
    apply IH in H; [exact H|].
    destruct Hw as (b & Hb & Hwf & Hlen). exists b.
    cbn [w_offset w_length w_buffer w_ref].
    destruct (wrap64 offset >? w_length w); cbn [w_buffer]; auto.
  - destruct (Write w p) as [[[i err] w1]|] eqn:E; [|discriminate].
    apply (IH w1); [|exact H]. eapply Write_wf; eassumption.
Qed.

Lemma NewWriter_wf (ref : BlobRef) : writer_wf (NewWriter ref).
Proof.
  exists (make_bytes 5000000). repeat split. unfold buf_wf. cbn. lia.
Qed.

(* ================================================================= *)
(** ** The engine keeps its order and answers as a map *)

Lemma store_sorted_tail (e : entry) (db : store) :
  store_sorted (e :: db) = true ->
  store_sorted db = true /\
  forall e', In e' db -> lex_ltb (fst e) (fst e') = true.
Proof.
  revert e; induction db as [|x db IH]; intros e H.
  - split; [reflexivity|intros e' []].
  - cbn [store_sorted] in H. apply andb_true_iff in H as [H1 H2].
    split; [exact H2|].
    intros e' [<-|He']; [exact H1|].
    apply lex_ltb_trans with (fst x); [exact H1|].
    now apply (IH x).
Qed.

Lemma store_sorted_cons (e : entry) (db : store) :
  store_sorted db = true ->
  (forall e', In e' db -> lex_ltb (fst e) (fst e') = true) ->
  store_sorted (e :: db) = true.
Proof.
  intros Hs Hlt. destruct db as [|x db]; [reflexivity|].
  cbn [store_sorted]. rewrite (Hlt x) by now left. exact Hs.
Qed.

Lemma db_delete_sorted (k : bytes) (db : store) :
  store_sorted db = true -> store_sorted (db_delete k db) = true.
Proof.
  unfold db_delete. induction db as [|e db IH]; intros Hs; [reflexivity|].
  destruct (store_sorted_tail _ _ Hs) as [Hs' Hlt].
  cbn [filter]. destruct (negb (bytes_eqb (fst e) k)); [|now apply IH].
  apply store_sorted_cons; [now apply IH|].
  intros e' He'. apply filter_In in He' as [He' _]. now apply Hlt.
Qed.

Lemma db_insert_In (k v : bytes) (db : store) (e : entry) :
  In e (db_insert k v db) -> e = (k, v) \/ In e db.
Proof.
  induction db as [|x db IH]; cbn [db_insert].
  - intros [<-|[]]. now left.
  - destruct (lex_ltb k (fst x)).
    + intros [<-|H]; [now left|now right].
    + intros [<-|H]; [right; now left|].
      destruct (IH H) as [->|H']; [now left|right; now right].
Qed.

Lemma db_insert_sorted (k v : bytes) (db : store) :
  store_sorted db = true ->
  (forall e, In e db -> fst e <> k) ->
  store_sorted (db_insert k v db) = true.
Proof.
  induction db as [|x db IH]; intros Hs Hne; [reflexivity|].
  destruct (store_sorted_tail _ _ Hs) as [Hs' Hlt].
  cbn [db_insert]. destruct (lex_ltb k (fst x)) eqn:Hk.
  - apply store_sorted_cons; [exact Hs|].
    intros e' [<-|He']; [exact Hk|].
    apply lex_ltb_trans with (fst x); [exact Hk|now apply Hlt].
  - apply store_sorted_cons.
    + apply IH; [exact Hs'|]. intros e He. apply Hne. now right.
    + intros e' He'. apply db_insert_In in He' as [->|He']; [|now apply Hlt].
      cbn [fst]. unfold lex_ltb in *.
      rewrite (lex_compare_antisym k (fst x)).
      destruct (lex_compare k (fst x)) eqn:E; cbn [CompOpp];
        try discriminate; try reflexivity.
      apply lex_compare_eq in E. exfalso. apply (Hne x); [now left|].
      now symmetry.
Qed.

Lemma db_set_sorted (k v : bytes) (db : store) :
  store_sorted db = true -> store_sorted (db_set k v db) = true.
Proof.
  intros Hs. unfold db_set. apply db_insert_sorted.
  - now apply db_delete_sorted.
  - intros e He. unfold db_delete in He. apply filter_In in He as [_ He].
    intros Heq. apply bytes_eqb_eq in Heq. rewrite Heq in He. discriminate.
Qed.

Lemma db_get_delete (k k' : bytes) (db : store) :
  db_get k' (db_delete k db) = if bytes_eqb k' k then None else db_get k' db.
Proof.
  unfold db_delete. induction db as [|e db IH]; cbn [filter db_get].
  - now destruct (bytes_eqb k' k).
  - destruct (bytes_eqb (fst e) k) eqn:E; cbn [negb db_get].
    + rewrite IH. apply bytes_eqb_eq in E.
      destruct (bytes_eqb k' k) eqn:E'; [reflexivity|].
      destruct (bytes_eqb (fst e) k') eqn:E''; [|reflexivity].
      apply bytes_eqb_eq in E''. rewrite <- E'', E in E'.
      rewrite (proj2 (bytes_eqb_eq k k) eq_refl) in E'. discriminate.
    + rewrite IH.
      destruct (bytes_eqb (fst e) k') eqn:E''; [|reflexivity].
      apply bytes_eqb_eq in E''. rewrite E'' in E. now rewrite E.
Qed.

Lemma db_get_insert (k k' v : bytes) (db : store) :
  db_get k db = None ->
  db_get k' (db_insert k v db)
  = if bytes_eqb k k' then Some v else db_get k' db.
Proof.
  induction db as [|e db IH]; intros Hk; cbn [db_insert db_get fst snd].
  - reflexivity.
  - cbn [db_get] in Hk.
    destruct (bytes_eqb (fst e) k) eqn:Ek; [discriminate|].
    destruct (lex_ltb k (fst e)); cbn [db_get fst snd]; [reflexivity|].
    rewrite (IH Hk).
    destruct (bytes_eqb (fst e) k') eqn:E'; [|reflexivity].
    apply bytes_eqb_eq in E'. subst k'.
    destruct (bytes_eqb k (fst e)) eqn:E''; [|reflexivity].
    apply bytes_eqb_eq in E''. subst k.
    rewrite (proj2 (bytes_eqb_eq (fst e) (fst e)) eq_refl) in Ek.
    discriminate.
Qed.

(** A store answers as a map: the value last set under the key, nothing
    once the key is deleted. *)
Lemma db_get_set (k k' v : bytes) (db : store) :
  db_get k' (db_set k v db)
  = if bytes_eqb k k' then Some v else db_get k' db.
Proof.
  unfold db_set. rewrite db_get_insert.
  - rewrite db_get_delete.
    destruct (bytes_eqb k k') eqn:E; [reflexivity|].
    destruct (bytes_eqb k' k) eqn:E'; [|reflexivity].
    apply bytes_eqb_eq in E'. subst k'.
    rewrite (proj2 (bytes_eqb_eq k k) eq_refl) in E. discriminate.
  - rewrite db_get_delete.
    now rewrite (proj2 (bytes_eqb_eq k k) eq_refl).
Qed.

(* ================================================================= *)
(** ** The three partitions of the key space *)

Section Partitions.
Variables (r : BlobRef) (t : Time) (n : Z) (x y : bytes).

Lemma cmp_blob_nmspc :
  lex_compare (key r t n) (namespacePrefix ++ x) = Lt.
Proof. reflexivity. Qed.
Lemma cmp_nmspc_blob :
  lex_compare (namespacePrefix ++ x) (key r t n) = Gt.
Proof. reflexivity. Qed.
Lemma cmp_blob_trash :
  lex_compare (key r t n) (trashPrefix ++ x) = Lt.
Proof. reflexivity. Qed.
Lemma cmp_trash_blob :
  lex_compare (trashPrefix ++ x) (key r t n) = Gt.
Proof. reflexivity. Qed.
Lemma cmp_nmspc_trash :
  lex_compare (namespacePrefix ++ x) (trashPrefix ++ y) = Lt.
Proof. reflexivity. Qed.
Lemma cmp_trash_nmspc :
  lex_compare (trashPrefix ++ x) (namespacePrefix ++ y) = Gt.
Proof. reflexivity. Qed.

Lemma cmp_nmspc_keyPrefix :
  lex_compare (namespacePrefix ++ x) (keyPrefix r) = Gt.
Proof. reflexivity. Qed.
Lemma cmp_trash_keyPrefix :
  lex_compare (trashPrefix ++ x) (keyPrefix r) = Gt.
Proof. reflexivity. Qed.
Lemma cmp_blob_trashPrefix :
  lex_compare (key r t n) trashPrefix = Lt.
Proof. reflexivity. Qed.
Lemma cmp_nmspc_trashPrefix :
  lex_compare (namespacePrefix ++ x) trashPrefix = Lt.
Proof. reflexivity. Qed.

Lemma keyPrefix_not_nmspc :
  has_prefix (keyPrefix r) (namespacePrefix ++ x) = false.
Proof. reflexivity. Qed.
Lemma keyPrefix_not_trash :
  has_prefix (keyPrefix r) (trashPrefix ++ x) = false.
Proof. reflexivity. Qed.
Lemma trashPrefix_not_nmspc :
  has_prefix trashPrefix (namespacePrefix ++ x) = false.
Proof. reflexivity. Qed.
Lemma trashPrefix_not_blob :
  has_prefix trashPrefix (key r t n) = false.
Proof. reflexivity. Qed.
Lemma nmspcPrefix_not_blob :
  has_prefix namespacePrefix (key r t n) = false.
Proof. reflexivity. Qed.
Lemma nmspcPrefix_not_trash :
  has_prefix namespacePrefix (trashPrefix ++ x) = false.
Proof. reflexivity. Qed.

Lemma keyPrefix_key : has_prefix (keyPrefix r) (key r t n) = true.
Proof. rewrite key_prefix_suffix. apply has_prefix_app. Qed.

Lemma key_not_below_keyPrefix : lex_ltb (key r t n) (keyPrefix r) = false.
Proof. apply prefix_not_below, keyPrefix_key. Qed.

Lemma trash_not_below_trashPrefix :
  lex_ltb (trashPrefix ++ x) trashPrefix = false.
Proof. apply prefix_not_below, has_prefix_app. Qed.

(** Moving a blob key to the trash partition and back. *)
Lemma untrash_trash_key :
  blobPrefix
  ++ skipn (List.length trashPrefix) (trashPrefix ++ skipn 5 (key r t n))
  = key r t n.
Proof. rewrite key_unfold. reflexivity. Qed.

End Partitions.

Create Rewrite HintDb partitions.
#[local] Hint Rewrite cmp_blob_nmspc cmp_nmspc_blob cmp_blob_trash
  cmp_trash_blob cmp_nmspc_trash cmp_trash_nmspc cmp_nmspc_keyPrefix
  cmp_trash_keyPrefix cmp_blob_trashPrefix cmp_nmspc_trashPrefix
  keyPrefix_not_nmspc keyPrefix_not_trash trashPrefix_not_nmspc
  trashPrefix_not_blob nmspcPrefix_not_blob nmspcPrefix_not_trash
  keyPrefix_key key_not_below_keyPrefix trash_not_below_trashPrefix
  has_prefix_app lex_compare_refl untrash_trash_key : partitions.

(** Evaluate a store operation on keys of known partitions. *)
Ltac store_eval :=
  repeat first
    [ progress
        cbv beta iota zeta delta
            [db_View db_Update DefaultIteratorOptions txn_NewIterator
             it_Seek it_ValidForPrefix it_Item txn_Set txn_Delete txn_Get
             move db_set db_delete Prefix it_all it_cur txn_view txn_update
             bs_db namespaces dir fst snd negb andb]
    | progress cbn [has_prefix filter seek_from for_valid_prefix db_insert
                    db_get app hd]
    | progress autorewrite with partitions
    | progress unfold lex_ltb, bytes_eqb ].

Lemma Create_fresh (d : string) (ref : BlobRef) :
  Create (NewBlobStore d []) ref
  = (NewWriter ref, None,
     mkStore [(namespacePrefix ++ Namespace ref, [x01])] [Namespace ref] d).
Proof. reflexivity. Qed.

Lemma db_set_key_marker (ref : BlobRef) (now : Time) (n : Z)
    (v ns m : bytes) :
  db_set (key ref now n) v [(namespacePrefix ++ ns, m)]
  = [(key ref now n, v); (namespacePrefix ++ ns, m)].
Proof. reflexivity. Qed.

Lemma NewReader_committed (ref : BlobRef) (now : Time) (n : Z)
    (v ns m : bytes) :
  NewReader [(key ref now n, v); (namespacePrefix ++ ns, m)] ref
  = (Some (mkReader 0 (len v) v), None).
Proof.
  unfold NewReader. store_eval. reflexivity.
Qed.

Lemma Trash_committed (ref : BlobRef) (now ts : Time) (n : Z)
    (v ns m : bytes) (nss : list bytes) (d : string) :
  Trash (mkStore [(key ref now n, v); (namespacePrefix ++ ns, m)] nss d)
        ref ts
  = (None,
     mkStore [(namespacePrefix ++ ns, m);
              (trashPrefix ++ skipn 5 (key ref now n), v)] nss d).
Proof.
  unfold Trash. store_eval. reflexivity.
Qed.

Lemma NewReader_trashed (ref : BlobRef) (x v ns m : bytes) :
  NewReader [(namespacePrefix ++ ns, m); (trashPrefix ++ x, v)] ref
  = (None, Some ErrMissingBlob).
Proof.
  unfold NewReader. store_eval. reflexivity.
Qed.

Lemma RestoreTrash_trashed (ref : BlobRef) (now : Time) (n : Z)
    (v ns m namespace : bytes) (nss : list bytes) (d : string) :
  RestoreTrash
    (mkStore [(namespacePrefix ++ ns, m);
              (trashPrefix ++ skipn 5 (key ref now n), v)] nss d)
    namespace
  = ([trashPrefix ++ skipn 5 (key ref now n)], None,
     mkStore [(key ref now n, v); (namespacePrefix ++ ns, m)] nss d).
Proof.
  unfold RestoreTrash. store_eval. reflexivity.
Qed.

Lemma EmptyTrash_trashed (x v ns m namespace : bytes) (ts : Time)
    (nss : list bytes) (d : string) :
  let b := mkStore [(namespacePrefix ++ ns, m); (trashPrefix ++ x, v)] nss d in
  EmptyTrash b namespace ts = (0, [trashPrefix ++ x], Some ErrReadOnlyTxn, b).
Proof.
  intros b. unfold EmptyTrash, b. store_eval. reflexivity.
Qed.

(* ================================================================= *)
(** ** The reader *)

Lemma Read_at_end (r : reader) (p : bytes) :
  r_length r <= r_offset r -> Read r p = Done (0, Some EOF, p, r).
Proof.
  intros H. unfold Read. rewrite Z.geb_leb.
  destruct (Z.leb_spec (r_length r) (r_offset r)); [reflexivity|lia].
Qed.

Lemma Read_inside (r : reader) (p : bytes) :
  reader_ok r -> r_offset r < r_length r ->
  let src := skipn (Z.to_nat (r_offset r)) (r_buffer r) in
  let n := Nat.min (List.length p) (List.length src) in
  Read r p =
  Done (Z.of_nat n, None, firstn n src ++ skipn n p,
        mkReader (r_offset r + Z.of_nat n) (r_length r) (r_buffer r)).
Proof.
  intros (Hl & Hb & Ho) Hlt src n. unfold Read, slice_from, go_copy.
  rewrite Z.geb_leb.
  destruct (Z.leb_spec (r_length r) (r_offset r)); [lia|].
  destruct (Z.leb_spec 0 (r_offset r)); [|lia].
  destruct (Z.leb_spec (r_offset r) (len (r_buffer r))); [|lia].
  cbn [andb]. fold src. fold n.
  rewrite wrap64_small; [reflexivity|].
  assert (Z.of_nat n <= len (r_buffer r) - r_offset r).
  { unfold n, src, len in *. rewrite length_skipn. lia. }
  lia.
Qed.

Section ReadAllSpec.

Variable grow : nat -> nat.
Hypothesis grow_more : forall c, (c < grow c)%nat.

Lemma rall_loop_spec (fuel : nat) :
  forall (r : reader) (b : bytes) (cap : nat),
    reader_ok r ->
    (List.length b <= cap)%nat ->
    (List.length (r_buffer r) - Z.to_nat (r_offset r) < fuel)%nat ->
    rall_loop grow fuel r b cap
    = Some (Done (b ++ skipn (Z.to_nat (r_offset r)) (r_buffer r), None)).
Proof.
  induction fuel as [|fuel IH]; intros r b cap Hok Hcap Hfuel; [lia|].
  cbn [rall_loop].
  set (cap' := if Nat.eqb (List.length b) cap
               then grow (List.length b) else cap).
  assert (List.length b < cap')%nat as Hcap'.
  { unfold cap'. destruct (Nat.eqb_spec (List.length b) cap).
    - apply grow_more.
    - lia. }
  pose proof Hok as (Hl & Hb & Ho).
  destruct (Z_lt_le_dec (r_offset r) (r_length r)) as [Hin|Hend].
  - rewrite Read_inside by assumption.
    set (src := skipn (Z.to_nat (r_offset r)) (r_buffer r)).
    set (n := Nat.min (List.length (repeat x00 (cap' - List.length b)))
                      (List.length src)).
    assert (List.length src
            = (List.length (r_buffer r) - Z.to_nat (r_offset r))%nat)
      as Hsrc by (unfold src; now rewrite length_skipn).
    assert (0 < n <= cap' - List.length b)%nat as Hn.
    { unfold n. rewrite repeat_length, Hsrc. unfold len in *. lia. }
    assert (n <= List.length src)%nat as Hn' by (unfold n; lia).
    rewrite Nat2Z.id.
    rewrite firstn_app, firstn_firstn, Nat.min_id.
    rewrite length_firstn, (Nat.min_l n) by lia.
    rewrite Nat.sub_diag. cbn [firstn]. rewrite app_nil_r.
    rewrite IH.
    + cbn [r_offset r_buffer].
      replace (Z.to_nat (r_offset r + Z.of_nat n))
        with (n + Z.to_nat (r_offset r))%nat by lia.
      rewrite <- skipn_skipn. fold src.
      rewrite <- app_assoc, firstn_skipn. reflexivity.
    + unfold reader_ok, len in *. cbn [r_offset r_length r_buffer]. lia.
    + rewrite length_app, length_firstn. lia.
    + cbn [r_offset r_buffer]. unfold len in *. lia.
  - rewrite Read_at_end by assumption.
    cbn [firstn Z.to_nat]. rewrite app_nil_r.
    rewrite skipn_all2 by (unfold len in *; lia).
    now rewrite app_nil_r.
Qed.

Lemma rall_spec (fuel : nat) (v : bytes) :
  len v < 2 ^ 63 -> (List.length v < fuel)%nat ->
  rall grow fuel (mkReader 0 (len v) v) = Some (Done (v, None)).
Proof.
  intros Hv Hfuel. unfold rall.
  rewrite rall_loop_spec.
  - reflexivity.
  - unfold reader_ok, len in *. cbn [r_offset r_length r_buffer]. lia.
  - simpl. lia.
  - cbn [r_offset r_buffer]. simpl. lia.
Qed.

End ReadAllSpec.

(* ================================================================= *)
(** ** Sessions on a new store *)

Lemma run_ops_ref (ops : list writer_op) :
  forall w w', run_ops w ops = Done w' -> w_ref w' = w_ref w.
Proof.
  induction ops as [|[offset|p] ops IH]; intros w w' H; cbn [run_ops] in H.
  - now injection H as <-.
  - unfold writer_Seek in H. cbn [negb Z.eqb SeekStart] in H.
    change (negb (SeekStart =? SeekStart)) with false in H. cbv iota in H.
    apply IH in H. rewrite H.
    cbn [w_offset w_length w_buffer w_ref].
    now destruct (wrap64 offset >? w_length w).
  - unfold Write in H.
    destruct ((0 <=? w_offset w) && _ && _); [|discriminate].
    apply IH in H. rewrite H.
    cbn [w_offset w_length w_buffer w_ref].
    match goal with |- w_ref (if ?c then _ else _) = _ => now destruct c end.
Qed.

Section Sessions.

Variable grow : nat -> nat.
Hypothesis grow_more : forall c, (c < grow c)%nat.
Variables (d : string) (ref : BlobRef) (now : Time).

(** What a session on a new store reads back is the array up to the
    cursor at commit. *)
Lemma write_then_read_spec (ops : list writer_op) (w : writer)
    (b : buffer) (fuel : nat) :
  run_ops (NewWriter ref) ops = Done w ->
  w_buffer w = Some b ->
  0 <= w_offset w <= b_len b -> b_len b < 2 ^ 63 ->
  (Z.to_nat (w_offset w) < fuel)%nat ->
  write_then_read grow fuel (NewBlobStore d []) ref ops now
  = Some (Done (buf_slice_to b (w_offset w), None)).
Proof.
  intros Hrun Hb Ho Hcap Hfuel.
  unfold write_then_read, create_commit.
  rewrite Create_fresh, Hrun, (Commit_open w now _ Hb Ho).
  rewrite (run_ops_ref _ _ Hrun). cbn [w_ref NewWriter bs_db].
  rewrite db_set_key_marker.
  unfold open_rall, Open. cbn [bs_db].
  rewrite NewReader_committed.
  assert (List.length (buf_slice_to b (w_offset w))
          = Z.to_nat (w_offset w)) as Hlen
    by apply head_upto_length.
  apply rall_spec; [assumption | unfold len; lia | lia].
Qed.

End Sessions.

(* ================================================================= *)
(** ** Write, commit, open, read *)

(** C1. On a new store, for every sequence of writes whose bytes together
    fit the staging capacity of 5,000,000 bytes, creating a blob, writing
    the chunks one after the other with no seek, committing, opening the
    same reference and reading to the end of the stream returns exactly
    the bytes written ([rall] is given more turns than there are bytes). *)
Theorem write_commit_open_read (grow : nat -> nat) (d : string)
    (ref : BlobRef) (now : Time) (chunks : list bytes) (fuel : nat) :
  (forall c, (c < grow c)%nat) ->
  len (List.concat chunks) <= bufferCap ->
  (List.length (List.concat chunks) < fuel)%nat ->
  write_then_read grow fuel (NewBlobStore d []) ref (map OpWrite chunks) now
  = Some (Done (List.concat chunks, None)).
Proof.
  intros Hgrow Hcap Hfuel.
  pose proof (@run_ops_writes ref chunks [] Hcap) as Hrun.
  cbn [app] in Hrun.
  rewrite (@write_then_read_spec grow Hgrow d ref now _ _ _ fuel Hrun eq_refl).
  - unfold buf_slice_to. cbn [w_offset b_head].
    replace (Z.to_nat (len (List.concat chunks)))
      with (List.length (List.concat chunks)) by (unfold len; lia).
    now rewrite head_upto_all.
  - cbn [w_offset b_len]. unfold len in *. lia.
  - reflexivity.
  - cbn [w_offset]. unfold len. lia.
Qed.

(** [TestMultiWrite]: ten writes of "test" read back as 40 bytes. *)
Lemma write_commit_open_read_witness :
  write_then_read (fun c => S (2 * c)) 41 (NewBlobStore "storage" [])
    (mkRef (bytes_of "ns") (bytes_of "key1"))
    (map OpWrite (repeat (bytes_of "test") 10)) (mkTime 1700000000 0)
  = Some (Done (bytes_of "testtesttesttesttesttesttesttesttesttest", None)).
Proof.
  apply (@write_commit_open_read (fun c => S (2 * c)) "storage"
           (mkRef (bytes_of "ns") (bytes_of "key1")) (mkTime 1700000000 0)
           (repeat (bytes_of "test") 10) 41).
  - intros c. lia.
  - vm_compute. discriminate.
  - vm_compute. lia.
Defined.

(* ================================================================= *)
(** ** Seeks *)




(* ================================================================= *)
(** ** Commit *)

Lemma filter_db_insert (P : entry -> bool) (k v : bytes) (db : store) :
  P (k, v) = false -> filter P (db_insert k v db) = filter P db.
Proof.
  intros H. induction db as [|e db IH]; cbn [db_insert filter].
  - now rewrite H.
  - destruct (lex_ltb k (fst e)); cbn [filter].
    + now rewrite H.
    + now rewrite IH.
Qed.

Lemma filter_db_delete (P : entry -> bool) (k : bytes) (db : store) :
  (forall v, P (k, v) = false) -> filter P (db_delete k db) = filter P db.
Proof.
  intros H. unfold db_delete.
  induction db as [|[k' v'] db IH]; cbn [filter fst]; [reflexivity|].
  destruct (bytes_eqb k' k) eqn:E; cbn [negb filter].
  - apply bytes_eqb_eq in E. subst k'. now rewrite H.
  - now rewrite IH.
Qed.

Lemma filter_db_set (P : entry -> bool) (k v : bytes) (db : store) :
  (forall v', P (k, v') = false) -> filter P (db_set k v db) = filter P db.
Proof.
  intros H. unfold db_set.
  now rewrite filter_db_insert, filter_db_delete.
Qed.

(** What [NewReader] finds depends on the records under the prefix
    only. *)
Lemma NewReader_filter (db db' : store) (ref : BlobRef) :
  filter (fun e => has_prefix (keyPrefix ref) (fst e)) db
  = filter (fun e => has_prefix (keyPrefix ref) (fst e)) db' ->
  NewReader db ref = NewReader db' ref.
Proof.
  intros H. unfold NewReader, db_View, txn_NewIterator, it_Seek.
  unfold it_ValidForPrefix, it_Item.
  cbn [txn_view Prefix it_all it_cur]. rewrite H.
  destruct (seek_from _ _) as [|item rest]; [reflexivity|].
  cbn [hd]. now destruct (has_prefix _ _).
Qed.

(** Creating a writer leaves every blob as it reads. *)
Lemma Create_invisible (b : BlobStore) (ref ref' : BlobRef) :
  Open (snd (Create b ref)) ref' = Open b ref'.
Proof.
  unfold Create, ensureNamespace, Open.
  destruct (existsb _ (namespaces b)); [reflexivity|].
  unfold db_Update, txn_Set. cbn [txn_update txn_view snd bs_db].
  apply NewReader_filter, filter_db_set.
  intros v'. cbn [fst]. apply keyPrefix_not_nmspc.
Qed.

(** C2, as the code has it. A commit on a writer that is not finalized
    and whose cursor lies within the array succeeds: in one transaction it
    stores, under the key made of the reference, the current time and the
    cursor position [w.offset], the bytes of the array before the cursor,
    [buffer[0:offset]], and releases the buffer. Before that nothing of the
    blob can be read: creating the writer leaves the result of every [Open]
    as it was, and [Write] and [Seek] act on the writer alone. *)
Theorem commit_persists_upto_cursor (w : writer) (b : buffer) (now : Time)
    (bs : BlobStore) (ref' : BlobRef) :
  w_buffer w = Some b -> buf_wf b -> 0 <= w_offset w <= b_len b ->
  Commit w now (bs_db bs)
  = Done (None, mkWriter (w_offset w) (w_length w) None (w_ref w),
          db_set (key (w_ref w) now (w_offset w))
                 (firstn (Z.to_nat (w_offset w)) (buf_list b)) (bs_db bs))
  /\ Open (snd (Create bs (w_ref w))) ref' = Open bs ref'.
Proof.
  intros Hb Hwf Ho. split.
  - rewrite (Commit_open w now _ Hb Ho).
    now rewrite buf_slice_to_list.
  - apply Create_invisible.
Qed.

Lemma rewound_writer_reached :
  run_ops (NewWriter (mkRef (bytes_of "ns") (bytes_of "key1")))
          [OpWrite (bytes_of "1234567890"); OpSeek 0]
  = Done rewound_writer.
Proof. reflexivity. Qed.

Lemma commit_persists_upto_cursor_witness :
  Commit rewound_writer (mkTime 1700000000 0) (bs_db (NewBlobStore "" []))
  = Done (None,
          mkWriter 0 10 None (mkRef (bytes_of "ns") (bytes_of "key1")),
          db_set (key (mkRef (bytes_of "ns") (bytes_of "key1"))
                      (mkTime 1700000000 0) 0)
                 (firstn (Z.to_nat 0)
                    (buf_list (mkBuf bufferCap (bytes_of "1234567890"))))
                 (bs_db (NewBlobStore "" [])))
  /\ Open (snd (Create (NewBlobStore "" [])
                       (mkRef (bytes_of "ns") (bytes_of "key1"))))
          (mkRef (bytes_of "ns") (bytes_of "key1"))
     = Open (NewBlobStore "" []) (mkRef (bytes_of "ns") (bytes_of "key1")).
Proof.
  apply (@commit_persists_upto_cursor rewound_writer
           (mkBuf bufferCap (bytes_of "1234567890")) (mkTime 1700000000 0)
           (NewBlobStore "" []) (mkRef (bytes_of "ns") (bytes_of "key1"))).
  - reflexivity.
  - unfold buf_wf. vm_compute. discriminate.
  - vm_compute. split; discriminate.
Defined.

(** After ten bytes and a seek back to 0 the commit stores no byte, under
    the key of size 0: the ten bytes of the logical length are not
    persisted. *)
Lemma commit_ignores_logical_length : ~ commit_persists_logical_length.
Proof.
  intros H.
  specialize (H rewound_writer (mkBuf bufferCap (bytes_of "1234567890"))
                (mkTime 1700000000 0) [] _ _ eq_refl eq_refl).
  vm_compute in H. discriminate H.
Qed.

(* ================================================================= *)
(** ** Finalization *)

(** C9, as the code has it. On a writer that is finalized (its buffer
    released by a commit or a cancel) a commit fails with "Already
    committed" and changes neither the writer nor the store, and a cancel
    returns no error and leaves the writer finalized; a cancel, and a
    commit that returns, finalize the writer. *)
Theorem finalized_commit_fails_cancel_passes (w w0 : writer) (now : Time)
    (db : store) :
  w_buffer w = None ->
  Commit w now db = Done (Some ErrAlreadyCommitted, w, db) /\
  Cancel w = (None, w) /\
  w_buffer (snd (Cancel w0)) = None /\
  (forall err w' db', Commit w0 now db = Done (err, w', db') ->
                      w_buffer w' = None).
Proof.
  intros H. repeat split.
  - unfold Commit. now rewrite H.
  - unfold Cancel. destruct w; cbn in *. now subst.
  - intros err w' db'. unfold Commit.
    destruct (w_buffer w0) eqn:E.
    + destruct (_ && _); [|discriminate].
      unfold db_Update, txn_Set. cbn [txn_update].
      intros [= _ <- _]. reflexivity.
    + intros [= _ <- _]. assumption.
Qed.

Lemma finalized_commit_fails_cancel_passes_witness :
  let w := mkWriter 4 4 None (mkRef (bytes_of "ns") (bytes_of "key1")) in
  Commit w (mkTime 1700000000 0) [] = Done (Some ErrAlreadyCommitted, w, [])
  /\ Cancel w = (None, w)
  /\ w_buffer (snd (Cancel (NewWriter (mkRef [] [])))) = None
  /\ (forall err w' db',
        Commit (NewWriter (mkRef [] [])) (mkTime 1700000000 0) []
        = Done (err, w', db') -> w_buffer w' = None).
Proof.
  intros w.
  apply (@finalized_commit_fails_cancel_passes w (NewWriter (mkRef [] []))
           (mkTime 1700000000 0) []).
  reflexivity.
Defined.

(** A cancel after a cancel returns [nil]. *)
Lemma second_cancel_reports_no_error : ~ refinalization_is_an_error.
Proof.
  intros H.
  destruct (H (snd (Cancel (NewWriter (mkRef [] [])))) (mkTime 0 0) []
              eq_refl) as [_ (e & w' & Hc)].
  discriminate Hc.
Qed.

(* ================================================================= *)
(** ** Trash and restore *)

Lemma save_fresh (d : string) (ref : BlobRef) (B : bytes) (now : Time) :
  len B <= bufferCap ->
  save (NewBlobStore d []) ref B now
  = Done (None,
          mkStore [(key ref now (len B), B);
                   (namespacePrefix ++ Namespace ref, [x01])]
                  [Namespace ref] d).
Proof.
  intros H. unfold save. rewrite Create_fresh.
  assert (0 <= len B) by (unfold len; lia).
  pose proof bufferCap_small.
  rewrite (@Write_fits (NewWriter ref) (make_bytes 5000000) B eq_refl);
    unfold make_bytes;
    cbn [NewWriter w_offset w_length w_buffer w_ref b_len];
    fold bufferCap; try lia.
  erewrite Commit_open;
    [|reflexivity|unfold buf_copy_at; cbn [w_offset b_len]; lia].
  cbn [w_offset w_ref bs_db namespaces dir].
  rewrite db_set_key_marker.
  unfold buf_slice_to, buf_copy_at. cbn [b_head].
  change (head_upto (Z.to_nat 0) []) with (@nil byte).
  rewrite skipn_nil, app_nil_r. cbn [app].
  rewrite Z.add_0_l.
  replace (Z.to_nat (len B)) with (List.length B) by (unfold len; lia).
  rewrite head_upto_all. reflexivity.
Qed.

(** C4. For every reference and every payload [B] that fits the staging
    capacity, saved in a new store: [Trash] moves the one record to the key
    with the trash prefix in place of the blob prefix, value unchanged, and
    the blob cannot be opened ("missing blob"); a following [RestoreTrash]
    - whatever its namespace argument - moves it back, the store is again
    as it was after the save, and the blob opens and reads to the end as
    exactly [B]. *)
Theorem trash_restore_roundtrip (grow : nat -> nat) (d : string)
    (ref : BlobRef) (B namespace : bytes) (now ts : Time) (fuel : nat) :
  (forall c, (c < grow c)%nat) ->
  len B <= bufferCap -> (List.length B < fuel)%nat ->
  let k := key ref now (len B) in
  let marker := (namespacePrefix ++ Namespace ref, [x01]) in
  let b1 := mkStore [(k, B); marker] [Namespace ref] d in
  let b2 := mkStore [marker; (trashPrefix ++ skipn 5 k, B)]
                    [Namespace ref] d in
  save (NewBlobStore d []) ref B now = Done (None, b1) /\
  Trash b1 ref ts = (None, b2) /\
  Open b2 ref = (None, Some ErrMissingBlob) /\
  RestoreTrash b2 namespace = ([trashPrefix ++ skipn 5 k], None, b1) /\
  open_rall grow fuel b1 ref = Some (Done (B, None)).
Proof.
  intros Hgrow Hcap Hfuel k marker b1 b2.
  pose proof bufferCap_small.
  split; [apply save_fresh; assumption|].
  split; [apply Trash_committed|].
  split; [apply NewReader_trashed|].
  split; [apply RestoreTrash_trashed|].
  unfold open_rall, Open, b1. cbn [bs_db].
  unfold k, marker. rewrite NewReader_committed.
  apply rall_spec; [assumption | lia | assumption].
Qed.

Lemma trash_restore_roundtrip_witness :
  let B := bytes_of "1234567890" in
  let k := key test_ref (mkTime 1700000000 0) (len B) in
  let marker := (namespacePrefix ++ bytes_of "ns", [x01]) in
  let b1 := mkStore [(k, B); marker] [bytes_of "ns"] "storage" in
  let b2 := mkStore [marker; (trashPrefix ++ skipn 5 k, B)]
                    [bytes_of "ns"] "storage" in
  save (NewBlobStore "storage" []) test_ref B (mkTime 1700000000 0)
  = Done (None, b1) /\
  Trash b1 test_ref (mkTime 1700000001 0) = (None, b2) /\
  Open b2 test_ref = (None, Some ErrMissingBlob) /\
  RestoreTrash b2 (bytes_of "ns")
  = ([trashPrefix ++ skipn 5 k], None, b1) /\
  open_rall (fun c => S (2 * c)) 11 b1 test_ref = Some (Done (B, None)).
Proof.
  apply (@trash_restore_roundtrip (fun c => S (2 * c)) "storage" test_ref
           (bytes_of "1234567890") (bytes_of "ns") (mkTime 1700000000 0)
           (mkTime 1700000001 0) 11).
  - intros c. lia.
  - vm_compute. discriminate.
  - vm_compute. lia.
Defined.

(* ================================================================= *)
(** ** ReadAt *)

(** C10. On an open reader, [ReadAt(p, off)] with [off] within the
    buffered content copies [n = min(len(p), len(buffer) - off)] bytes from
    [off] and adds [n] to the reader's sequential cursor; the buffer and the
    length are unchanged. A following [Read] then copies from the old
    cursor position plus [n]. *)
Theorem ReadAt_moves_cursor (r : reader) (p q : bytes) (off : Z) :
  reader_ok r -> 0 <= off <= len (r_buffer r) ->
  let n := Nat.min (List.length p)
                   (List.length (skipn (Z.to_nat off) (r_buffer r))) in
  let r' := mkReader (wrap64 (r_offset r + Z.of_nat n)) (r_length r)
                     (r_buffer r) in
  ReadAt r p off
  = Done (Z.of_nat n, None,
          firstn n (skipn (Z.to_nat off) (r_buffer r)) ++ skipn n p, r') /\
  (r_offset r + Z.of_nat n < r_length r ->
   let src := skipn (Z.to_nat (r_offset r + Z.of_nat n)) (r_buffer r) in
   let m := Nat.min (List.length q) (List.length src) in
   Read r' q
   = Done (Z.of_nat m, None, firstn m src ++ skipn m q,
           mkReader (r_offset r + Z.of_nat n + Z.of_nat m) (r_length r)
                    (r_buffer r))).
Proof.
  intros (Hl & Hb & Ho) Hoff n r'. split.
  - unfold ReadAt, slice_from, go_copy.
    destruct (Z.leb_spec 0 off); [|lia].
    destruct (Z.leb_spec off (len (r_buffer r))); [|lia].
    reflexivity.
  - intros Hlt src m.
    assert (wrap64 (r_offset r + Z.of_nat n) = r_offset r + Z.of_nat n)
      as Hw by (apply wrap64_small; lia).
    unfold r'. rewrite Hw.
    apply (@Read_inside (mkReader (r_offset r + Z.of_nat n) (r_length r)
                                  (r_buffer r)) q).
    + unfold reader_ok. cbn [r_offset r_length r_buffer]. lia.
    + cbn [r_offset r_length]. lia.
Qed.

Lemma ReadAt_moves_cursor_witness :
  let r := mkReader 2 10 (bytes_of "1234567890") in
  let r' := mkReader (wrap64 (2 + Z.of_nat 3)) 10 (bytes_of "1234567890") in
  ReadAt r (bytes_of "...") 4
  = Done (Z.of_nat 3, None, bytes_of "567" ++ [], r') /\
  (2 + Z.of_nat 3 < 10 ->
   Read r' (bytes_of "..")
   = Done (Z.of_nat 2, None, bytes_of "67" ++ [],
           mkReader (2 + Z.of_nat 3 + Z.of_nat 2) 10
                    (bytes_of "1234567890"))).
Proof.
  intros r r'.
  apply (@ReadAt_moves_cursor r (bytes_of "...") (bytes_of "..") 4).
  - unfold reader_ok. vm_compute. repeat split; discriminate.
  - vm_compute. split; discriminate.
Defined.

(* ================================================================= *)
(** ** Delete *)

(** One turn of the loop, in the words of the iterator. *)
Lemma for_valid_prefix_turn (S : Type) (pref : bytes) (it : Iterator)
    (body : entry -> S -> S * option error) (s : S) :
  for_valid_prefix pref (it_cur it) body s
  = if it_ValidForPrefix pref it then
      match body (it_Item it) s with
      | (s', Some e) => (s', Some e)
      | (s', None) => for_valid_prefix pref (it_cur (it_Next it)) body s'
      end
    else (s, None).
Proof.
  unfold it_ValidForPrefix, it_Item, it_Next.
  destruct (it_cur it) as [|item rest]; reflexivity.
Qed.

Lemma seek_from_all_under (pref : bytes) (l : list entry) :
  Forall (fun e => under pref e = true) l -> seek_from pref l = l.
Proof.
  intros H. destruct H as [|e l He Hl]; [reflexivity|].
  cbn [seek_from]. unfold under in He.
  now rewrite (prefix_not_below _ _ He).
Qed.

Lemma Forall_filter_under (pref : bytes) (db : store) :
  Forall (fun e => under pref e = true) (filter (under pref) db).
Proof.
  apply Forall_forall. intros e He. now apply filter_In in He.
Qed.

(** The loop of [Delete] deletes the key of every item. *)
Lemma for_valid_prefix_delete (pref : bytes) (l : list entry) :
  forall view,
    Forall (fun e => under pref e = true) l ->
    for_valid_prefix pref l
      (fun item txn => let key := fst item in txn_Delete key txn)
      (mkTxn true view)
    = (mkTxn true (fold_left (fun db e => db_delete (fst e) db) l view),
       None).
Proof.
  induction l as [|e l IH]; intros view H; cbn [for_valid_prefix fold_left].
  - reflexivity.
  - inversion H as [|? ? He Hl]; subst. unfold under in He. rewrite He.
    unfold txn_Delete. cbn [txn_update txn_view]. now apply IH.
Qed.

Lemma filter_filter (A : Type) (P Q : A -> bool) (l : list A) :
  filter P (filter Q l) = filter (fun x => Q x && P x) l.
Proof.
  induction l as [|x l IH]; cbn [filter]; [reflexivity|].
  destruct (Q x); cbn [filter andb]; now rewrite IH.
Qed.

Lemma filter_all (A : Type) (P : A -> bool) (l : list A) :
  (forall x, P x = true) -> filter P l = l.
Proof.
  intros H. induction l as [|x l IH]; cbn [filter]; [reflexivity|].
  now rewrite H, IH.
Qed.

Lemma filter_none (A : Type) (P : A -> bool) (l : list A) :
  (forall x, In x l -> P x = false) -> filter P l = [].
Proof.
  intros H. induction l as [|x l IH]; cbn [filter]; [reflexivity|].
  rewrite (H x) by now left. apply IH. intros y Hy. apply H. now right.
Qed.

Lemma fold_db_delete (l : list entry) :
  forall db,
    fold_left (fun db e => db_delete (fst e) db) l db
    = filter (fun e => negb (existsb (fun e' => bytes_eqb (fst e) (fst e')) l))
             db.
Proof.
  induction l as [|x l IH]; intros db; cbn [fold_left existsb].
  - symmetry. now apply filter_all.
  - rewrite IH. unfold db_delete. rewrite filter_filter.
    apply filter_ext. intros e. now rewrite negb_orb.
Qed.

(** Deleting the keys of the records under a prefix leaves the records
    that are not under it. *)
Lemma delete_all_under (pref : bytes) (db : store) :
  fold_left (fun db e => db_delete (fst e) db) (filter (under pref) db) db
  = filter (fun e => negb (under pref e)) db.
Proof.
  rewrite fold_db_delete. apply filter_ext_in. intros e He. f_equal.
  destruct (under pref e) eqn:E.
  - apply existsb_exists. exists e. split.
    + apply filter_In. now split.
    + now apply bytes_eqb_eq.
  - apply not_true_iff_false. intros Hex.
    apply existsb_exists in Hex as (e' & He' & Heq).
    apply filter_In in He' as [_ He']. apply bytes_eqb_eq in Heq.
    unfold under in *. rewrite Heq in E. congruence.
Qed.

(** C3. [Delete] succeeds and removes, in its one transaction, every
    record whose key begins with [keyPrefix ref] - all the versions under
    the reference - and no other record; afterwards [Open ref] fails with
    "missing blob"; when no record matches, the store is unchanged. *)
Theorem Delete_removes_every_match (b : BlobStore) (ref : BlobRef) :
  let db' := filter (fun e => negb (has_prefix (keyPrefix ref) (fst e)))
                    (bs_db b) in
  let b' := mkStore db' (namespaces b) (dir b) in
  Delete b ref = (None, b') /\
  Open b' ref = (None, Some ErrMissingBlob) /\
  ((forall e, In e (bs_db b) -> has_prefix (keyPrefix ref) (fst e) = false)
   -> db' = bs_db b).
Proof.
  intros db' b'. repeat split.
  - unfold Delete, db_Update, txn_NewIterator, it_Seek.
    cbn [Prefix it_all it_cur txn_view].
    change (fun e : bytes * bytes => has_prefix (keyPrefix ref) (fst e))
      with (under (keyPrefix ref)).
    rewrite seek_from_all_under by apply Forall_filter_under.
    rewrite for_valid_prefix_delete by apply Forall_filter_under.
    cbn [txn_view]. now rewrite delete_all_under.
  - unfold Open, b', db', NewReader, db_View, txn_NewIterator, it_Seek,
      it_ValidForPrefix.
    cbn [bs_db Prefix it_all it_cur txn_view].
    rewrite filter_filter.
    rewrite filter_none by (intros e _; apply andb_negb_l).
    reflexivity.
  - intros H. unfold db'.
    induction (bs_db b) as [|e l IH]; cbn [filter]; [reflexivity|].
    rewrite (H e) by now left. cbn [negb]. f_equal.
    apply IH. intros e' He'. apply H. now right.
Qed.

(* ================================================================= *)
(** ** EmptyTrash *)

(** On a store in key order, the first entry at or after a prefix is under
    the prefix as soon as some entry is. *)
Lemma seek_from_sorted (pref : bytes) (db : store) (e : entry) :
  store_sorted db = true -> In e db -> under pref e = true ->
  exists e' rest,
    seek_from pref db = e' :: rest /\ under pref e' = true.
Proof.
  induction db as [|x db IH]; intros Hs Hin He; [destruct Hin|].
  destruct (store_sorted_tail _ _ Hs) as [Hs' Hlt].
  cbn [seek_from].
  destruct (lex_ltb (fst x) pref) eqn:Hx.
  - destruct Hin as [<-|Hin]; [|now apply IH].
    unfold under in He. rewrite (prefix_not_below _ _ He) in Hx.
    discriminate.
  - exists x, db. split; [reflexivity|].
    destruct Hin as [<-|Hin]; [assumption|].
    destruct (under pref x) eqn:Ux; [reflexivity|].
    unfold under in *.
    rewrite (prefix_passed _ _ _ Hx Ux (Hlt _ Hin)) in He. discriminate.
Qed.

(** [EmptyTrash] on a store that holds a trashed record: the read-only
    transaction refuses the first delete, the error is returned with the
    one key met, and the store is as before. *)
Lemma EmptyTrash_read_only (b : BlobStore) (namespace : bytes)
    (trashedBefore : Time) (e : entry) :
  store_sorted (bs_db b) = true ->
  In e (bs_db b) -> has_prefix trashPrefix (fst e) = true ->
  exists k,
    has_prefix trashPrefix k = true /\
    EmptyTrash b namespace trashedBefore = (0, [k], Some ErrReadOnlyTxn, b).
Proof.
  intros Hs Hin He.
  unfold EmptyTrash, db_View, txn_NewIterator, it_Seek.
  cbn [Prefix DefaultIteratorOptions it_all it_cur txn_view has_prefix].
  rewrite filter_all by reflexivity.
  destruct (@seek_from_sorted trashPrefix (bs_db b) e Hs Hin He)
    as (e' & rest & -> & He').
  exists (fst e'). split; [exact He'|].
  cbn [for_valid_prefix]. unfold under in He'. rewrite He'.
  reflexivity.
Qed.

(** Without a trashed record [EmptyTrash] returns no key and no error. *)
Lemma seek_from_In (k : bytes) (l : list entry) (e : entry) :
  In e (seek_from k l) -> In e l.
Proof.
  induction l as [|x l IH]; cbn [seek_from]; [auto|].
  destruct (lex_ltb (fst x) k); [|auto].
  intros H. right. now apply IH.
Qed.

Lemma EmptyTrash_nothing_trashed (b : BlobStore) (namespace : bytes)
    (trashedBefore : Time) :
  (forall e, In e (bs_db b) -> has_prefix trashPrefix (fst e) = false) ->
  EmptyTrash b namespace trashedBefore = (0, [], None, b).
Proof.
  intros H.
  unfold EmptyTrash, db_View, txn_NewIterator, it_Seek.
  cbn [Prefix DefaultIteratorOptions it_all it_cur txn_view has_prefix].
  rewrite filter_all by reflexivity.
  destruct (seek_from trashPrefix (bs_db b)) as [|e rest] eqn:E;
    [reflexivity|].
  cbn [for_valid_prefix]. rewrite H; [reflexivity|].
  apply (seek_from_In trashPrefix). rewrite E. now left.
Qed.

(** C5. On the store that holds one trashed blob, [EmptyTrash] - with a
    time bound later than the blob - returns the error of the read-only
    transaction together with the one key it met, and removes nothing: the
    trashed record is still stored. *)
Theorem EmptyTrash_keeps_trashed_blob :
  bs_db store_with_trashed_blob
  = [(namespacePrefix ++ bytes_of "ns", [x01]);
     (trashed_key, bytes_of "1234567890")] /\
  EmptyTrash store_with_trashed_blob (bytes_of "ns") (mkTime 1800000000 0)
  = (0, [trashed_key], Some ErrReadOnlyTxn, store_with_trashed_blob) /\
  db_get trashed_key (bs_db store_with_trashed_blob)
  = Some (bytes_of "1234567890").
Proof.
  repeat split; vm_compute; reflexivity.
Qed.

Lemma EmptyTrash_removes_nothing : ~ empty_trash_removes_all.
Proof.
  intros H.
  specialize (H store_with_trashed_blob (bytes_of "ns")
                (mkTime 1800000000 0) eq_refl).
  vm_compute in H. destruct H as [H _]. discriminate H.
Qed.

(* ================================================================= *)
(** * Properties of the other operations *)

(* ================================================================= *)
(** ** Scans of a store in key order *)

Lemma for_valid_prefix_items (S : Type) (pref : bytes)
    (body : entry -> S -> S * option error) (cur : list entry) :
  forall s,
    for_valid_prefix pref cur body s
    = for_valid_prefix pref (valid_items pref cur) body s.
Proof.
  induction cur as [|item rest IH]; intros s; cbn [valid_items];
    [reflexivity|].
  cbn [for_valid_prefix].
  destruct (has_prefix pref (fst item)) eqn:E; [|reflexivity].
  cbn [for_valid_prefix]. rewrite E.
  destruct (body item s) as [s' [e|]]; [reflexivity|apply IH].
Qed.

Lemma for_valid_prefix_exec_items (S : Type) (pref : bytes)
    (body : entry -> S -> exec (S * option error)) (cur : list entry) :
  forall s,
    for_valid_prefix_exec pref cur body s
    = for_valid_prefix_exec pref (valid_items pref cur) body s.
Proof.
  induction cur as [|item rest IH]; intros s; cbn [valid_items];
    [reflexivity|].
  cbn [for_valid_prefix_exec].
  destruct (has_prefix pref (fst item)) eqn:E; [|reflexivity].
  cbn [for_valid_prefix_exec]. rewrite E.
  destruct (body item s) as [[s' [e|]]|p]; try reflexivity. apply IH.
Qed.

Lemma valid_items_all_under (pref : bytes) (l : list entry) :
  Forall (fun e => under pref e = true) l -> valid_items pref l = l.
Proof.
  induction 1 as [|e l He Hl IH]; cbn [valid_items]; [reflexivity|].
  unfold under in He. now rewrite He, IH.
Qed.

(** From an entry that is not below the prefix on, the entries under the
    prefix come first. *)
Lemma valid_items_not_below (pref : bytes) (db : store) :
  forall x,
    store_sorted (x :: db) = true -> lex_ltb (fst x) pref = false ->
    valid_items pref (x :: db) = filter (under pref) (x :: db).
Proof.
  induction db as [|y db IH]; intros x Hs Hx.
  - cbn [valid_items filter]. unfold under. now destruct (has_prefix _ _).
  - destruct (store_sorted_tail _ _ Hs) as [Hs' Hlt].
    change (filter (under pref) (x :: y :: db))
      with (if under pref x then x :: filter (under pref) (y :: db)
            else filter (under pref) (y :: db)).
    change (valid_items pref (x :: y :: db))
      with (if has_prefix pref (fst x)
            then x :: valid_items pref (y :: db) else []).
    unfold under at 1.
    destruct (has_prefix pref (fst x)) eqn:Ux.
    + f_equal. apply IH; [exact Hs'|].
      destruct (lex_ltb (fst y) pref) eqn:Hy; [|reflexivity].
      assert (lex_ltb (fst x) (fst y) = true) as Hxy by (apply Hlt; now left).
      now rewrite (lex_ltb_trans _ _ _ Hxy Hy) in Hx.
    + symmetry. apply filter_none. intros e He.
      apply (prefix_passed _ _ _ Hx Ux). now apply Hlt.
Qed.

(** On a store in key order, seeking to a prefix and going on while the
    prefix holds visits exactly the records under the prefix. *)
Lemma scan_sorted (pref : bytes) (db : store) :
  store_sorted db = true ->
  valid_items pref (seek_from pref db) = filter (under pref) db.
Proof.
  induction db as [|x db IH]; intros Hs; [reflexivity|].
  destruct (store_sorted_tail _ _ Hs) as [Hs' Hlt].
  cbn [seek_from]. destruct (lex_ltb (fst x) pref) eqn:Hx.
  - rewrite (IH Hs'). cbn [filter]. unfold under at 2.
    destruct (has_prefix pref (fst x)) eqn:Ux; [|reflexivity].
    now rewrite (prefix_not_below _ _ Ux) in Hx.
  - now apply valid_items_not_below.
Qed.

Lemma filter_sorted (P : entry -> bool) (db : store) :
  store_sorted db = true -> store_sorted (filter P db) = true.
Proof.
  induction db as [|e db IH]; intros Hs; [reflexivity|].
  destruct (store_sorted_tail _ _ Hs) as [Hs' Hlt].
  cbn [filter]. destruct (P e); [|now apply IH].
  apply store_sorted_cons; [now apply IH|].
  intros e' He'. apply filter_In in He' as [He' _]. now apply Hlt.
Qed.

(** In a store in key order a key has one record. *)
Lemma sorted_get (db : store) (k v : bytes) :
  store_sorted db = true -> In (k, v) db -> db_get k db = Some v.
Proof.
  induction db as [|e db IH]; intros Hs Hin; [destruct Hin|].
  destruct (store_sorted_tail _ _ Hs) as [Hs' Hlt].
  cbn [db_get]. destruct Hin as [->|Hin].
  - cbn [fst snd]. now rewrite (proj2 (bytes_eqb_eq k k) eq_refl).
  - destruct (bytes_eqb (fst e) k) eqn:E; [|now apply IH].
    apply bytes_eqb_eq in E. specialize (Hlt _ Hin). cbn [fst] in Hlt.
    rewrite E, lex_ltb_irrefl in Hlt. discriminate.
Qed.

Lemma db_get_In (db : store) (k v : bytes) :
  db_get k db = Some v -> In (k, v) db.
Proof.
  induction db as [|[k' v'] db IH]; cbn [db_get fst snd]; [discriminate|].
  destruct (bytes_eqb k' k) eqn:E.
  - intros [= ->]. apply bytes_eqb_eq in E. subst. now left.
  - intros H. right. now apply IH.
Qed.

(* ================================================================= *)
(** ** The namespace registry *)

Lemma bytesEq_loop_eq (a b : bytes) :
  List.length a = List.length b -> (bytesEq_loop a b = true <-> a = b).
Proof.
  revert b; induction a as [|x a IH]; intros [|y b] H; cbn in H;
    try discriminate.
  - split; reflexivity.
  - cbn [bytesEq_loop]. destruct (Byte.eqb x y) eqn:E; cbn [negb].
    + apply byte_eqb_eq in E. subst y.
      rewrite (IH b) by lia. split; [now intros ->|now intros [= ->]].
    + split; [discriminate|]. intros [= -> _].
      rewrite (proj2 (byte_eqb_eq y y) eq_refl) in E. discriminate.
Qed.

Lemma bytesEq_spec (a b : bytes) : bytesEq a b = true <-> a = b.
Proof.
  unfold bytesEq, len.
  destruct (Z.eqb_spec (Z.of_nat (List.length a)) (Z.of_nat (List.length b)))
    as [E|E]; cbn [negb].
  - apply bytesEq_loop_eq. lia.
  - split; [discriminate|]. intros ->. now destruct E.
Qed.

(** X1. [bytesEq] decides the equality of two byte strings. *)
Theorem bytesEq_eq (a b : bytes) : bytesEq a b = true <-> a = b.
Proof.
  unfold bytesEq, len.
  destruct (Z.eqb_spec (Z.of_nat (List.length a)) (Z.of_nat (List.length b)))
    as [E|E]; cbn [negb].
  - apply bytesEq_loop_eq. lia.
  - split; [discriminate|]. intros ->. now destruct E.
Qed.

Lemma registered_spec (l : list bytes) (n : bytes) :
  existsb (fun x => bytesEq x n) l = true <-> In n l.
Proof.
  rewrite existsb_exists. split.
  - intros (x & Hx & E). apply bytesEq_spec in E. now subst.
  - intros H. exists n. split; [exact H|]. now apply bytesEq_spec.
Qed.

Lemma ensureNamespace_known (b : BlobStore) (ref : BlobRef) :
  In (Namespace ref) (namespaces b) -> ensureNamespace b ref = (None, b).
Proof.
  intros H. unfold ensureNamespace.
  now rewrite (proj2 (registered_spec _ _) H).
Qed.

Lemma ensureNamespace_new (b : BlobStore) (ref : BlobRef) :
  ~ In (Namespace ref) (namespaces b) ->
  ensureNamespace b ref
  = (None,
     mkStore (db_set (namespacePrefix ++ Namespace ref) [x01] (bs_db b))
             (namespaces b ++ [Namespace ref]) (dir b)).
Proof.
  intros H. unfold ensureNamespace.
  destruct (existsb _ (namespaces b)) eqn:E.
  - apply registered_spec in E. contradiction.
  - reflexivity.
Qed.

(** X2. On a store whose registry has no duplicate, [Create] returns no
    error and a new writer, leaves the registry without duplicate and with
    the namespace of the reference in it, and a second [Create] in the same
    namespace changes neither the records nor the registry. *)
Theorem Create_registers_once (b : BlobStore) (ref ref' : BlobRef) :
  NoDup (namespaces b) -> Namespace ref' = Namespace ref ->
  let '(w, err, b1) := Create b ref in
  w = NewWriter ref /\ err = None /\
  NoDup (namespaces b1) /\ In (Namespace ref) (namespaces b1) /\
  Create b1 ref' = (NewWriter ref', None, b1).
Proof.
  intros Hnd Hns. unfold Create.
  destruct (in_dec (list_eq_dec Byte.byte_eq_dec) (Namespace ref)
                   (namespaces b)) as [Hin|Hnin].
  - rewrite (ensureNamespace_known b ref Hin).
    repeat split; try assumption.
    rewrite <- Hns in Hin. now rewrite (ensureNamespace_known b ref' Hin).
  - rewrite (ensureNamespace_new b ref Hnin).
    assert (In (Namespace ref) (namespaces b ++ [Namespace ref])) as Hin
      by (apply in_or_app; right; now left).
    repeat split; try assumption.
    + cbn [namespaces]. apply NoDup_app; [assumption| |].
      * constructor; [intros []|constructor].
      * intros x Hx [<-|[]]. contradiction.
    + rewrite ensureNamespace_known; [reflexivity|].
      cbn [namespaces]. now rewrite Hns.
Qed.

Lemma Create_registers_once_witness :
  let '(w, err, b1) := Create (NewBlobStore "storage" []) test_ref in
  w = NewWriter test_ref /\ err = None /\
  NoDup (namespaces b1) /\ In (Namespace test_ref) (namespaces b1) /\
  Create b1 (mkRef (bytes_of "ns") (bytes_of "key2"))
  = (NewWriter (mkRef (bytes_of "ns") (bytes_of "key2")), None, b1).
Proof.
  apply (@Create_registers_once (NewBlobStore "storage" []) test_ref
           (mkRef (bytes_of "ns") (bytes_of "key2"))).
  - constructor.
  - reflexivity.
Defined.

Lemma for_valid_prefix_collect (A : Type) (pref : bytes) (f : entry -> A)
    (l : list entry) :
  forall acc,
    Forall (fun e => under pref e = true) l ->
    for_valid_prefix pref l (fun item acc => (acc ++ [f item], None)) acc
    = (acc ++ map f l, None).
Proof.
  induction l as [|e l IH]; intros acc H; cbn [for_valid_prefix map].
  - now rewrite app_nil_r.
  - inversion H as [|? ? He Hl]; subst. unfold under in He. rewrite He.
    rewrite IH by assumption. now rewrite <- app_assoc.
Qed.

(** X3. Opening a store on an engine whose records are in key order, and
    from "nmspc" on no more than the 100 items the iterator holds, loads
    the registry from the marker records: one entry per record under
    "nmspc", the key without that prefix, in key order. *)
Theorem NewBlobStore_loads_markers (d : string) (db : store) :
  store_sorted db = true ->
  within_window defaultPrefetchSize (seek_from namespacePrefix db) ->
  NewBlobStore d db
  = mkStore db
      (map (fun e => skipn (List.length namespacePrefix) (fst e))
           (filter (under namespacePrefix) db))
      d.
Proof.
  intros Hs _. unfold NewBlobStore, db_View, txn_NewIterator, it_Seek.
  cbn [Prefix DefaultIteratorOptions it_all it_cur txn_view has_prefix].
  rewrite filter_all by reflexivity.
  rewrite for_valid_prefix_items, scan_sorted by assumption.
  rewrite (@for_valid_prefix_collect bytes namespacePrefix
             (fun e => skipn (List.length namespacePrefix) (fst e)))
    by apply Forall_filter_under.
  reflexivity.
Qed.

Lemma NewBlobStore_loads_markers_witness :
  NewBlobStore "storage"
    [(blobPrefix ++ bytes_of "nsk", bytes_of "v");
     (namespacePrefix ++ bytes_of "ns", [x01]);
     (namespacePrefix ++ bytes_of "other", [x01])]
  = mkStore
      [(blobPrefix ++ bytes_of "nsk", bytes_of "v");
       (namespacePrefix ++ bytes_of "ns", [x01]);
       (namespacePrefix ++ bytes_of "other", [x01])]
      [bytes_of "ns"; bytes_of "other"] "storage".
Proof.
  apply (@NewBlobStore_loads_markers "storage"
           [(blobPrefix ++ bytes_of "nsk", bytes_of "v");
            (namespacePrefix ++ bytes_of "ns", [x01]);
            (namespacePrefix ++ bytes_of "other", [x01])]).
  - reflexivity.
  - unfold within_window, defaultPrefetchSize. simpl. lia.
Defined.

(** X4. [Create] keeps the registry and the marker records together: when
    every namespace of the registry has its marker record before, every one
    has it after, the namespace of the reference included. *)
Theorem Create_keeps_registry_consistent (b : BlobStore) (ref : BlobRef) :
  registry_consistent b ->
  registry_consistent (snd (Create b ref)) /\
  In (Namespace ref) (namespaces (snd (Create b ref))).
Proof.
  intros Hc. unfold Create.
  destruct (in_dec (list_eq_dec Byte.byte_eq_dec) (Namespace ref)
                   (namespaces b)) as [Hin|Hnin].
  - rewrite (ensureNamespace_known b ref Hin). cbn [snd]. now split.
  - rewrite (ensureNamespace_new b ref Hnin). cbn [snd]. split.
    + intros n Hn. cbn [namespaces bs_db] in *. rewrite db_get_set.
      destruct (bytes_eqb _ _) eqn:E; [reflexivity|].
      apply in_app_or in Hn as [Hn|[<-|[]]]; [now apply Hc|].
      rewrite (proj2 (bytes_eqb_eq _ _) eq_refl) in E. discriminate.
    + cbn [namespaces]. apply in_or_app. right. now left.
Qed.

Lemma Create_keeps_registry_consistent_witness :
  registry_consistent (snd (Create (NewBlobStore "storage" []) test_ref)) /\
  In (Namespace test_ref)
     (namespaces (snd (Create (NewBlobStore "storage" []) test_ref))).
Proof.
  apply (@Create_keeps_registry_consistent (NewBlobStore "storage" [])
           test_ref).
  intros n [].
Defined.

(* ================================================================= *)
(** ** DeleteNamespace *)

Lemma has_prefix_refl (p : bytes) : has_prefix p p = true.
Proof.
  rewrite <- (app_nil_r p) at 2. apply has_prefix_app.
Qed.

(** A key under the prefix of a reference is a blob key: it is under no
    marker prefix and under no trash prefix. *)
Lemma under_keyPrefix_blob (r : BlobRef) (k : bytes) :
  has_prefix (keyPrefix r) k = true -> exists s, k = blobPrefix ++ s.
Proof.
  intros H. apply has_prefix_split in H as [s ->].
  exists (Namespace r ++ Key r ++ s). unfold keyPrefix.
  now rewrite <- !app_assoc.
Qed.

Lemma blob_not_nmspc (x s : bytes) :
  has_prefix (namespacePrefix ++ x) (blobPrefix ++ s) = false.
Proof. reflexivity. Qed.

Lemma blob_not_trash (x s : bytes) :
  has_prefix (trashPrefix ++ x) (blobPrefix ++ s) = false.
Proof. reflexivity. Qed.

(** X5. On a store in key order that holds, from "nmspc" followed by the
    namespace on, no more than the 100 items the iterator holds,
    [DeleteNamespace] returns no error and removes exactly the records
    under "nmspc" followed by the namespace - marker records; it leaves
    the registry as it was, and every reference opens as before: no blob
    is deleted. *)
Theorem DeleteNamespace_removes_markers_only (b : BlobStore)
    (namespace : bytes) (ref : BlobRef) :
  store_sorted (bs_db b) = true ->
  within_window defaultPrefetchSize
    (seek_from (namespacePrefix ++ namespace) (bs_db b)) ->
  let b' := mkStore
              (filter (fun e => negb (under (namespacePrefix ++ namespace) e))
                      (bs_db b))
              (namespaces b) (dir b) in
  DeleteNamespace b namespace = (None, b') /\ Open b' ref = Open b ref.
Proof.
  intros Hs _ b'. split.
  - unfold DeleteNamespace, db_Update, txn_NewIterator, it_Seek.
    cbn [Prefix DefaultIteratorOptions it_all it_cur txn_view has_prefix].
    rewrite filter_all by reflexivity.
    rewrite for_valid_prefix_items, scan_sorted by assumption.
    rewrite (@for_valid_prefix_delete (namespacePrefix ++ namespace))
      by apply Forall_filter_under.
    cbn [txn_view]. now rewrite delete_all_under.
  - unfold Open, b'. cbn [bs_db]. apply NewReader_filter.
    rewrite filter_filter. apply filter_ext. intros e.
    destruct (has_prefix (keyPrefix ref) (fst e)) eqn:E;
      [|apply andb_false_r].
    apply under_keyPrefix_blob in E as [s E].
    unfold under. rewrite E, blob_not_nmspc. reflexivity.
Qed.

Lemma DeleteNamespace_removes_markers_only_witness :
  let b := mkStore [(key test_ref (mkTime 5 0) 1, [x01]);
                    (namespacePrefix ++ bytes_of "ns", [x01])]
                   [bytes_of "ns"] "storage" in
  let b' := mkStore
              (filter (fun e => negb (under (namespacePrefix ++ bytes_of "ns")
                                            e))
                      (bs_db b))
              (namespaces b) (dir b) in
  DeleteNamespace b (bytes_of "ns") = (None, b') /\
  Open b' test_ref = Open b test_ref.
Proof.
  intros b.
  apply (@DeleteNamespace_removes_markers_only b (bytes_of "ns") test_ref).
  - reflexivity.
  - unfold within_window, defaultPrefetchSize. simpl. lia.
Defined.

(** X6. The registry is not told of a deleted namespace. On a new store,
    after [Create], [DeleteNamespace] of the namespace of the reference and
    a save of a blob under the same reference, [ListNamespaces] still has
    the namespace but its marker record is not written again: the store
    holds the blob record alone, and a store opened on it lists no
    namespace although the blob opens. *)
Theorem DeleteNamespace_leaves_registry_stale (d : string) (ref : BlobRef)
    (B : bytes) (now : Time) :
  len B <= bufferCap ->
  let b1 := snd (Create (NewBlobStore d []) ref) in
  let b2 := snd (DeleteNamespace b1 (Namespace ref)) in
  let b3 := mkStore [(key ref now (len B), B)] [Namespace ref] d in
  save b2 ref B now = Done (None, b3) /\
  ListNamespaces b3 = ([Namespace ref], None) /\
  ListNamespaces (NewBlobStore d (bs_db b3)) = ([], None) /\
  Open (NewBlobStore d (bs_db b3)) ref
  = (Some (mkReader 0 (len B) B), None).
Proof.
  intros Hcap b1 b2 b3.
  assert (b2 = mkStore [] [Namespace ref] d) as Hb2.
  { unfold b2, b1. rewrite Create_fresh. cbn [snd].
    unfold DeleteNamespace, db_Update, txn_NewIterator, it_Seek.
    cbn [Prefix DefaultIteratorOptions it_all it_cur txn_view has_prefix
         bs_db filter seek_from fst].
    rewrite lex_ltb_irrefl. cbn [for_valid_prefix fst].
    rewrite has_prefix_refl. unfold txn_Delete, db_delete.
    cbn [txn_update txn_view filter fst].
    rewrite (proj2 (bytes_eqb_eq _ _) eq_refl). reflexivity. }
  rewrite Hb2.
  assert (NewBlobStore d [(key ref now (len B), B)]
          = mkStore [(key ref now (len B), B)] [] d) as Hreopen.
  { unfold NewBlobStore, db_View, txn_NewIterator, it_Seek.
    cbn [Prefix DefaultIteratorOptions it_all it_cur txn_view has_prefix
         bs_db filter seek_from fst].
    assert (lex_ltb (key ref now (len B)) namespacePrefix = true) as ->
      by reflexivity.
    reflexivity. }
  assert (0 <= len B) by (unfold len; lia).
  pose proof bufferCap_small.
  split; [|split; [reflexivity|split]].
  - unfold save, Create.
    rewrite ensureNamespace_known by (cbn [namespaces]; now left).
    rewrite (@Write_fits (NewWriter ref) (make_bytes 5000000) B eq_refl);
      unfold make_bytes;
      cbn [NewWriter w_offset w_length w_buffer w_ref b_len];
      fold bufferCap; try lia.
    erewrite Commit_open;
      [|reflexivity|unfold buf_copy_at; cbn [w_offset b_len]; lia].
    cbn [w_offset w_ref bs_db namespaces dir].
    unfold buf_slice_to, buf_copy_at. cbn [b_head].
    change (head_upto (Z.to_nat 0) []) with (@nil byte).
    rewrite skipn_nil, app_nil_r. cbn [app].
    rewrite Z.add_0_l.
    replace (Z.to_nat (len B)) with (List.length B) by (unfold len; lia).
    rewrite head_upto_all. reflexivity.
  - unfold b3. cbn [bs_db]. now rewrite Hreopen.
  - unfold b3. cbn [bs_db]. rewrite Hreopen.
    unfold Open, NewReader. cbn [bs_db].
    unfold db_View, txn_NewIterator, it_Seek, it_ValidForPrefix, it_Item.
    cbn [Prefix it_all it_cur txn_view filter fst snd].
    rewrite keyPrefix_key. cbn [seek_from fst].
    rewrite key_not_below_keyPrefix. cbn [hd fst snd].
    rewrite keyPrefix_key. reflexivity.
Qed.

Lemma DeleteNamespace_leaves_registry_stale_witness :
  let B := bytes_of "1234567890" in
  let now := mkTime 1700000000 0 in
  let b1 := snd (Create (NewBlobStore "storage" []) test_ref) in
  let b2 := snd (DeleteNamespace b1 (Namespace test_ref)) in
  let b3 := mkStore [(key test_ref now (len B), B)] [Namespace test_ref]
                    "storage" in
  save b2 test_ref B now = Done (None, b3) /\
  ListNamespaces b3 = ([Namespace test_ref], None) /\
  ListNamespaces (NewBlobStore "storage" (bs_db b3)) = ([], None) /\
  Open (NewBlobStore "storage" (bs_db b3)) test_ref
  = (Some (mkReader 0 (len B) B), None).
Proof.
  apply (@DeleteNamespace_leaves_registry_stale "storage" test_ref
           (bytes_of "1234567890") (mkTime 1700000000 0)).
  vm_compute. discriminate.
Defined.

(* ================================================================= *)
(** ** Open *)

Lemma NewReader_first (db : store) (ref : BlobRef) :
  NewReader db ref
  = match filter (under (keyPrefix ref)) db with
    | [] => (None, Some ErrMissingBlob)
    | e :: _ => (Some (mkReader 0 (len (snd e)) (snd e)), None)
    end.
Proof.
  unfold NewReader, db_View, txn_NewIterator, it_Seek, it_ValidForPrefix,
    it_Item.
  cbn [Prefix it_all it_cur txn_view].
  pose proof (Forall_filter_under (keyPrefix ref) db) as H.
  unfold under, entry in *.
  rewrite seek_from_all_under by exact H.
  destruct (filter (fun e : bytes * bytes => has_prefix (keyPrefix ref) (fst e))
                   db) as [|e l]; [reflexivity|].
  inversion H as [|? ? He _]; subst.
  cbn [hd]. now rewrite He.
Qed.

(** X7. [Open] gives a reader, at offset 0, on a copy of the value of the
    first stored record whose key begins with [keyPrefix ref], and fails
    with "missing blob" exactly when no record does. *)
Theorem Open_first_under_prefix (b : BlobStore) (ref : BlobRef) :
  Open b ref
  = match filter (under (keyPrefix ref)) (bs_db b) with
    | [] => (None, Some ErrMissingBlob)
    | e :: _ => (Some (mkReader 0 (len (snd e)) (snd e)), None)
    end.
Proof.
  unfold Open, NewReader, db_View, txn_NewIterator, it_Seek,
    it_ValidForPrefix, it_Item.
  cbn [Prefix it_all it_cur txn_view].
  pose proof (Forall_filter_under (keyPrefix ref) (bs_db b)) as H.
  unfold under, entry in *.
  rewrite seek_from_all_under by exact H.
  destruct (filter (fun e : bytes * bytes => has_prefix (keyPrefix ref) (fst e))
                   (bs_db b)) as [|e l]; [reflexivity|].
  inversion H as [|? ? He _]; subst.
  cbn [hd]. now rewrite He.
Qed.

(* ================================================================= *)
(** ** Several commits under one reference *)

Lemma save_known (b : BlobStore) (ref : BlobRef) (B : bytes) (now : Time) :
  In (Namespace ref) (namespaces b) -> len B <= bufferCap ->
  save b ref B now
  = Done (None,
          mkStore (db_set (key ref now (len B)) B (bs_db b))
                  (namespaces b) (dir b)).
Proof.
  intros Hin Hcap.
  assert (0 <= len B) by (unfold len; lia).
  pose proof bufferCap_small.
  unfold save, Create. rewrite ensureNamespace_known by assumption.
  rewrite (@Write_fits (NewWriter ref) (make_bytes 5000000) B eq_refl);
    unfold make_bytes;
    cbn [NewWriter w_offset w_length w_buffer w_ref b_len];
    fold bufferCap; try lia.
  erewrite Commit_open;
    [|reflexivity|unfold buf_copy_at; cbn [w_offset b_len]; lia].
  cbn [w_offset w_ref bs_db namespaces dir].
  unfold buf_slice_to, buf_copy_at. cbn [b_head].
  change (head_upto (Z.to_nat 0) []) with (@nil byte).
  rewrite skipn_nil, app_nil_r. cbn [app].
  rewrite Z.add_0_l.
  replace (Z.to_nat (len B)) with (List.length B) by (unfold len; lia).
  rewrite head_upto_all. reflexivity.
Qed.

(** The keys of one reference are ordered by seconds, then size, both as
    unsigned 64-bit numbers. *)
Lemma key_compare_versions (r : BlobRef) (t1 t2 : Time) (s1 s2 : Z) :
  lex_compare (key r t1 s1) (key r t2 s2)
  = match u64 (Time_Unix t1) ?= u64 (Time_Unix t2) with
    | Eq => u64 s1 ?= u64 s2
    | o => o
    end.
Proof.
  rewrite !key_prefix_suffix.
  rewrite lex_compare_app by reflexivity. rewrite lex_compare_refl.
  rewrite lex_compare_app by now rewrite !be_encode_length.
  now rewrite !be_encode_compare by apply u64_range.
Qed.

Lemma key_version_lt (r : BlobRef) (t1 t2 : Time) (s1 s2 : Z) :
  0 <= Time_Unix t1 -> Time_Unix t2 < 2 ^ 63 ->
  0 <= s1 -> s2 < 2 ^ 63 ->
  Time_Unix t1 < Time_Unix t2 \/ (Time_Unix t1 = Time_Unix t2 /\ s1 < s2) ->
  lex_compare (key r t1 s1) (key r t2 s2) = Lt.
Proof.
  intros H1 H2 H3 H4 H.
  rewrite key_compare_versions.
  destruct H as [H|[H H']].
  - rewrite !(u64_nonneg (z := Time_Unix _)) by lia.
    now rewrite (proj2 (Z.compare_lt_iff _ _) H).
  - rewrite H, Z.compare_refl, !u64_nonneg by lia.
    now apply Z.compare_lt_iff.
Qed.

(** X8. The store keeps one record per commit and [Open] reads the first
    in key order. After a save of [B1] and a save of [B2] under one
    reference in a new store, the second later by whole seconds (or in the
    same second with a longer payload), both records are stored and [Open]
    returns the earlier payload [B1], not the newer [B2]. *)
Theorem Open_returns_oldest_version (d : string) (ref : BlobRef)
    (B1 B2 : bytes) (t1 t2 : Time) :
  len B1 <= bufferCap -> len B2 <= bufferCap ->
  0 <= Time_Unix t1 -> Time_Unix t2 < 2 ^ 63 ->
  Time_Unix t1 < Time_Unix t2
  \/ (Time_Unix t1 = Time_Unix t2 /\ len B1 < len B2) ->
  let marker := (namespacePrefix ++ Namespace ref, [x01]) in
  let b1 := mkStore [(key ref t1 (len B1), B1); marker] [Namespace ref] d in
  let b2 := mkStore [(key ref t1 (len B1), B1); (key ref t2 (len B2), B2);
                     marker] [Namespace ref] d in
  save (NewBlobStore d []) ref B1 t1 = Done (None, b1) /\
  save b1 ref B2 t2 = Done (None, b2) /\
  Open b2 ref = (Some (mkReader 0 (len B1) B1), None).
Proof.
  intros Hc1 Hc2 Ht1 Ht2 Hlt marker b1 b2.
  assert (0 <= len B1) by (unfold len; lia).
  pose proof bufferCap_small.
  assert (lex_compare (key ref t1 (len B1)) (key ref t2 (len B2)) = Lt)
    as Hk by (apply key_version_lt; lia).
  split; [now apply save_fresh|]. split.
  - rewrite save_known by (assumption || (cbn [namespaces]; now left)).
    unfold b2, b1, marker. cbn [bs_db namespaces dir]. do 3 f_equal.
    unfold db_set, db_delete, bytes_eqb. cbn [filter fst].
    rewrite Hk, cmp_nmspc_blob. cbn [negb db_insert fst].
    unfold lex_ltb. rewrite (lex_compare_antisym (key ref t1 (len B1))), Hk.
    cbn [CompOpp]. now rewrite cmp_blob_nmspc.
  - unfold Open, b2. cbn [bs_db]. rewrite NewReader_first.
    cbn [filter]. unfold under at 1. cbn [fst].
    now rewrite keyPrefix_key.
Qed.

Lemma Open_returns_oldest_version_witness :
  let marker := (namespacePrefix ++ Namespace test_ref, [x01]) in
  let B1 := bytes_of "old" in
  let B2 := bytes_of "newer" in
  let t1 := mkTime 1700000000 0 in
  let t2 := mkTime 1700000005 0 in
  let b1 := mkStore [(key test_ref t1 (len B1), B1); marker]
                    [Namespace test_ref] "storage" in
  let b2 := mkStore [(key test_ref t1 (len B1), B1);
                     (key test_ref t2 (len B2), B2); marker]
                    [Namespace test_ref] "storage" in
  save (NewBlobStore "storage" []) test_ref B1 t1 = Done (None, b1) /\
  save b1 test_ref B2 t2 = Done (None, b2) /\
  Open b2 test_ref = (Some (mkReader 0 (len B1) B1), None).
Proof.
  apply (@Open_returns_oldest_version "storage" test_ref (bytes_of "old")
           (bytes_of "newer") (mkTime 1700000000 0) (mkTime 1700000005 0)).
  - vm_compute. discriminate.
  - vm_compute. discriminate.
  - vm_compute. discriminate.
  - vm_compute. reflexivity.
  - left. vm_compute. reflexivity.
Defined.

(** X9. Two commits under one reference in the same second with payloads
    of one length have one key: the second save replaces the record of the
    first, and [Open] returns the second payload. *)
Theorem same_second_same_size_overwrites (d : string) (ref : BlobRef)
    (B1 B2 : bytes) (t1 t2 : Time) :
  len B1 <= bufferCap ->
  Time_Unix t1 = Time_Unix t2 -> List.length B1 = List.length B2 ->
  let marker := (namespacePrefix ++ Namespace ref, [x01]) in
  let b1 := mkStore [(key ref t1 (len B1), B1); marker] [Namespace ref] d in
  let b2 := mkStore [(key ref t1 (len B1), B2); marker] [Namespace ref] d in
  save (NewBlobStore d []) ref B1 t1 = Done (None, b1) /\
  save b1 ref B2 t2 = Done (None, b2) /\
  Open b2 ref = (Some (mkReader 0 (len B2) B2), None).
Proof.
  intros Hc1 Ht Hl marker b1 b2.
  assert (len B2 = len B1) as Hlen by (unfold len; lia).
  assert (key ref t2 (len B2) = key ref t1 (len B1)) as Hk
    by (unfold key; now rewrite Ht, Hlen).
  split; [now apply save_fresh|]. split.
  - rewrite save_known by (lia || (cbn [namespaces]; now left)).
    unfold b2, b1, marker. cbn [bs_db namespaces dir]. do 3 f_equal.
    rewrite Hk. unfold db_set, db_delete, bytes_eqb. cbn [filter fst].
    rewrite lex_compare_refl, cmp_nmspc_blob. cbn [negb db_insert fst].
    unfold lex_ltb. now rewrite cmp_blob_nmspc.
  - unfold Open, b2. cbn [bs_db]. rewrite NewReader_first.
    cbn [filter]. unfold under at 1. cbn [fst].
    now rewrite keyPrefix_key.
Qed.

Lemma same_second_same_size_overwrites_witness :
  let marker := (namespacePrefix ++ Namespace test_ref, [x01]) in
  let B1 := bytes_of "first" in
  let B2 := bytes_of "again" in
  let t1 := mkTime 1700000000 100 in
  let t2 := mkTime 1700000000 900 in
  let b1 := mkStore [(key test_ref t1 (len B1), B1); marker]
                    [Namespace test_ref] "storage" in
  let b2 := mkStore [(key test_ref t1 (len B1), B2); marker]
                    [Namespace test_ref] "storage" in
  save (NewBlobStore "storage" []) test_ref B1 t1 = Done (None, b1) /\
  save b1 test_ref B2 t2 = Done (None, b2) /\
  Open b2 test_ref = (Some (mkReader 0 (len B2) B2), None).
Proof.
  apply (@same_second_same_size_overwrites "storage" test_ref
           (bytes_of "first") (bytes_of "again") (mkTime 1700000000 100)
           (mkTime 1700000000 900)).
  - vm_compute. discriminate.
  - reflexivity.
  - reflexivity.
Defined.

(* ================================================================= *)
(** ** References whose keys extend one another *)

Lemma Delete_filter (b : BlobStore) (ref : BlobRef) :
  Delete b ref
  = (None,
     mkStore (filter (fun e => negb (under (keyPrefix ref) e)) (bs_db b))
             (namespaces b) (dir b)).
Proof.
  unfold Delete, db_Update, txn_NewIterator, it_Seek.
  cbn [Prefix it_all it_cur txn_view].
  change (fun e : bytes * bytes => has_prefix (keyPrefix ref) (fst e))
    with (under (keyPrefix ref)).
  rewrite seek_from_all_under by apply Forall_filter_under.
  rewrite for_valid_prefix_delete by apply Forall_filter_under.
  cbn [txn_view]. now rewrite delete_all_under.
Qed.

(** X10. The prefix of a reference is its namespace followed by its key,
    with no separator: a reference [r] whose namespace and key together
    begin those of another reference [r'] shares the records of [r']. With
    the blob of [r'] alone in a new store, [Open r] returns that blob and
    [Delete r] deletes it. *)
Theorem shorter_reference_shares_records (d : string) (r r' : BlobRef)
    (x B : bytes) (now : Time) :
  len B <= bufferCap ->
  Namespace r' ++ Key r' = Namespace r ++ Key r ++ x ->
  let b1 := mkStore [(key r' now (len B), B);
                     (namespacePrefix ++ Namespace r', [x01])]
                    [Namespace r'] d in
  save (NewBlobStore d []) r' B now = Done (None, b1) /\
  Open b1 r = (Some (mkReader 0 (len B) B), None) /\
  Open (snd (Delete b1 r)) r' = (None, Some ErrMissingBlob).
Proof.
  intros Hcap Hx b1.
  assert (has_prefix (keyPrefix r) (key r' now (len B)) = true) as Hu.
  { assert (key r' now (len B)
            = keyPrefix r
              ++ x ++ be_encode 8 (u64 (Time_Unix now))
              ++ be_encode 8 (u64 (len B))) as ->.
    { rewrite key_unfold. unfold keyPrefix.
      rewrite (app_assoc (Namespace r') (Key r')), Hx.
      now rewrite <- !app_assoc. }
    apply has_prefix_app. }
  split; [now apply save_fresh|]. split.
  - unfold Open, b1. cbn [bs_db]. rewrite NewReader_first.
    cbn [filter]. unfold under at 1. cbn [fst]. now rewrite Hu.
  - rewrite Delete_filter. cbn [snd]. unfold Open, b1. cbn [bs_db].
    rewrite NewReader_first. cbn [filter]. unfold under at 2 4.
    cbn [fst]. rewrite Hu, keyPrefix_not_nmspc. cbn [negb filter].
    unfold under. cbn [fst]. now rewrite keyPrefix_not_nmspc.
Qed.

Lemma shorter_reference_shares_records_witness :
  let r := mkRef (bytes_of "ns") (bytes_of "key1") in
  let r' := mkRef (bytes_of "ns") (bytes_of "key10") in
  let B := bytes_of "1234567890" in
  let now := mkTime 1700000000 0 in
  let b1 := mkStore [(key r' now (len B), B);
                     (namespacePrefix ++ Namespace r', [x01])]
                    [Namespace r'] "storage" in
  save (NewBlobStore "storage" []) r' B now = Done (None, b1) /\
  Open b1 r = (Some (mkReader 0 (len B) B), None) /\
  Open (snd (Delete b1 r)) r' = (None, Some ErrMissingBlob).
Proof.
  apply (@shorter_reference_shares_records "storage"
           (mkRef (bytes_of "ns") (bytes_of "key1"))
           (mkRef (bytes_of "ns") (bytes_of "key10")) (bytes_of "0")
           (bytes_of "1234567890") (mkTime 1700000000 0)).
  - vm_compute. discriminate.
  - reflexivity.
Defined.

(* ================================================================= *)
(** ** Trash *)

Lemma bytes_eqb_neq (a b : bytes) : a <> b -> bytes_eqb a b = false.
Proof.
  intros H. destruct (bytes_eqb a b) eqn:E; [|reflexivity].
  apply bytes_eqb_eq in E. contradiction.
Qed.

Lemma for_valid_prefix_trash (pref : bytes) (l : list entry) :
  forall view,
    Forall (fun e => under pref e = true) l ->
    for_valid_prefix pref l
      (fun item txn =>
         let key := fst item in
         let '(txn, err) :=
           txn_Set (trashPrefix ++ skipn 5 key) (snd item) txn in
         match err with
         | Some e => (txn, Some e)
         | None => txn_Delete key txn
         end)
      (mkTxn true view)
    = (mkTxn true (fold_left trash_step l view), None).
Proof.
  induction l as [|e l IH]; intros view H; cbn [for_valid_prefix fold_left].
  - reflexivity.
  - inversion H as [|? ? He Hl]; subst. unfold under in He. rewrite He.
    unfold txn_Set, txn_Delete. cbn [txn_update txn_view].
    now apply IH.
Qed.

(** The trash key of a blob key under the prefix of a reference. *)
Lemma trash_of_under (r : BlobRef) (k : bytes) :
  has_prefix (keyPrefix r) k = true ->
  exists s, k = keyPrefix r ++ s /\
            trashPrefix ++ skipn 5 k = trashKey r ++ s.
Proof.
  intros H. apply has_prefix_split in H as [s ->]. exists s.
  split; [reflexivity|]. unfold keyPrefix, trashKey.
  rewrite <- !app_assoc. reflexivity.
Qed.

Lemma trashKey_not_keyPrefix (r r' : BlobRef) (s : bytes) :
  has_prefix (keyPrefix r) (trashKey r' ++ s) = false.
Proof. reflexivity. Qed.

Lemma keyPrefix_not_trashKey (r r' : BlobRef) (s : bytes) :
  has_prefix (trashKey r) (keyPrefix r' ++ s) = false.
Proof. reflexivity. Qed.

Lemma trash_step_get (view : store) (e : entry) (q : bytes) :
  q <> fst e -> q <> trashPrefix ++ skipn 5 (fst e) ->
  db_get q (trash_step view e) = db_get q view.
Proof.
  intros H1 H2. unfold trash_step.
  rewrite db_get_delete, (bytes_eqb_neq H1), db_get_set.
  rewrite bytes_eqb_neq; [reflexivity|]. intros E. now apply H2.
Qed.

Lemma trash_fold_frame (l : list entry) (q : bytes) :
  forall view,
    (forall e, In e l ->
               q <> fst e /\ q <> trashPrefix ++ skipn 5 (fst e)) ->
    db_get q (fold_left trash_step l view) = db_get q view.
Proof.
  induction l as [|e l IH]; intros view H; cbn [fold_left]; [reflexivity|].
  rewrite IH by (intros e' He'; apply H; now right).
  destruct (H e (or_introl eq_refl)) as [H1 H2].
  now apply trash_step_get.
Qed.

Lemma trash_fold_moved (r : BlobRef) (l : list entry) :
  forall view k v,
    store_sorted l = true ->
    Forall (fun e => under (keyPrefix r) e = true) l ->
    In (k, v) l ->
    db_get (trashPrefix ++ skipn 5 k) (fold_left trash_step l view)
    = Some v.
Proof.
  induction l as [|e l IH]; intros view k v Hs Hu Hin; [destruct Hin|].
  destruct (store_sorted_tail _ _ Hs) as [Hs' Hlt].
  inversion Hu as [|? ? He Hl]; subst.
  cbn [fold_left]. destruct Hin as [->|Hin]; [|now apply IH].
  cbn [fst] in *. unfold under in He. cbn [fst] in He.
  destruct (trash_of_under _ _ He) as (s & Hk & Ht).
  rewrite trash_fold_frame.
  - unfold trash_step. cbn [fst snd].
    rewrite db_get_delete, db_get_set.
    rewrite (proj2 (bytes_eqb_eq _ _) eq_refl).
    rewrite bytes_eqb_neq; [reflexivity|].
    rewrite Ht, Hk. intros E.
    pose proof (keyPrefix_not_trashKey r r s) as C.
    rewrite <- E, has_prefix_app in C. discriminate.
  - intros e' He'.
    assert (under (keyPrefix r) e' = true) as Ue'
      by (rewrite Forall_forall in Hl; now apply Hl).
    unfold under in Ue'.
    destruct (trash_of_under _ _ Ue') as (s' & Hk' & Ht').
    split.
    + rewrite Ht, Hk'. intros E.
      pose proof (keyPrefix_not_trashKey r r s') as C.
      rewrite <- E, has_prefix_app in C. discriminate.
    + rewrite Ht, Ht'. intros E. apply app_inv_head in E. subst s'.
      specialize (Hlt _ He'). cbn [fst] in Hlt.
      rewrite Hk, <- Hk', lex_ltb_irrefl in Hlt. discriminate.
Qed.

Lemma filter_comm (A : Type) (P Q : A -> bool) (l : list A) :
  filter P (filter Q l) = filter Q (filter P l).
Proof.
  rewrite !filter_filter. apply filter_ext. intros x. apply andb_comm.
Qed.

Lemma trash_fold_filter (r : BlobRef) (l : list entry) :
  forall view,
    Forall (fun e => under (keyPrefix r) e = true) l ->
    filter (under (keyPrefix r)) (fold_left trash_step l view)
    = fold_left (fun db e => db_delete (fst e) db) l
                (filter (under (keyPrefix r)) view).
Proof.
  induction l as [|e l IH]; intros view H; cbn [fold_left]; [reflexivity|].
  inversion H as [|? ? He Hl]; subst.
  rewrite IH by assumption. f_equal.
  unfold trash_step, db_delete at 1 2.
  rewrite filter_comm. f_equal.
  apply filter_db_set. intros v'. unfold under in *. cbn [fst].
  destruct (trash_of_under _ _ He) as (s & _ & ->).
  apply trashKey_not_keyPrefix.
Qed.

Lemma trash_fold_sorted (l : list entry) :
  forall view,
    store_sorted view = true ->
    store_sorted (fold_left trash_step l view) = true.
Proof.
  induction l as [|e l IH]; intros view H; cbn [fold_left]; [exact H|].
  apply IH. unfold trash_step. now apply db_delete_sorted, db_set_sorted.
Qed.

Lemma Trash_fold (b : BlobStore) (ref : BlobRef) (ts : Time) :
  Trash b ref ts
  = (None,
     mkStore (fold_left trash_step
                        (filter (under (keyPrefix ref)) (bs_db b)) (bs_db b))
             (namespaces b) (dir b)).
Proof.
  unfold Trash, db_Update, txn_NewIterator, it_Seek.
  cbn [Prefix it_all it_cur txn_view].
  change (fun e : bytes * bytes => has_prefix (keyPrefix ref) (fst e))
    with (under (keyPrefix ref)).
  rewrite seek_from_all_under by apply Forall_filter_under.
  rewrite for_valid_prefix_trash by apply Forall_filter_under.
  reflexivity.
Qed.

(** X11. On a store in key order with at most two records under
    [keyPrefix ref] - the items the iterator of [Trash] holds - [Trash]
    returns no error and moves every record under [keyPrefix ref] - both
    versions, when there are two - to the key that has the trash prefix in
    place of the blob prefix, with its value: afterwards the old key is
    absent, [Open ref] fails with "missing blob", the store is still in
    key order, and every key under neither [keyPrefix ref] nor
    [trashKey ref] reads as before. *)
Theorem Trash_moves_every_version (b : BlobStore) (ref : BlobRef)
    (ts : Time) :
  store_sorted (bs_db b) = true ->
  within_window keyOnlyPrefetchSize
    (filter (under (keyPrefix ref)) (bs_db b)) ->
  exists db',
    Trash b ref ts = (None, mkStore db' (namespaces b) (dir b)) /\
    store_sorted db' = true /\
    Open (mkStore db' (namespaces b) (dir b)) ref
    = (None, Some ErrMissingBlob) /\
    (forall k v,
        In (k, v) (bs_db b) -> has_prefix (keyPrefix ref) k = true ->
        db_get (trashPrefix ++ skipn 5 k) db' = Some v /\
        db_get k db' = None) /\
    (forall q,
        has_prefix (keyPrefix ref) q = false ->
        has_prefix (trashKey ref) q = false ->
        db_get q db' = db_get q (bs_db b)).
Proof.
  intros Hs _.
  set (l := filter (under (keyPrefix ref)) (bs_db b)).
  exists (fold_left trash_step l (bs_db b)).
  assert (filter (under (keyPrefix ref)) (fold_left trash_step l (bs_db b))
          = []) as Hnone.
  { rewrite trash_fold_filter by apply Forall_filter_under.
    fold l. rewrite fold_db_delete. apply filter_none.
    intros e He. apply negb_false_iff, existsb_exists.
    exists e. split; [exact He|]. now apply bytes_eqb_eq. }
  split; [apply Trash_fold|].
  split; [now apply trash_fold_sorted|].
  split; [unfold Open; cbn [bs_db]; now rewrite NewReader_first, Hnone|].
  split.
  - intros k v Hin Hu. split.
    + apply (@trash_fold_moved ref).
      * now apply filter_sorted.
      * apply Forall_filter_under.
      * apply filter_In. split; [exact Hin|exact Hu].
    + destruct (db_get k (fold_left trash_step l (bs_db b))) as [v'|] eqn:E;
        [|reflexivity].
      apply db_get_In in E.
      assert (In (k, v')
                 (filter (under (keyPrefix ref))
                         (fold_left trash_step l (bs_db b)))) as C
        by (apply filter_In; split; [exact E|exact Hu]).
      rewrite Hnone in C. destruct C.
  - intros q Hq Ht. apply trash_fold_frame. intros e He.
    apply filter_In in He as [_ Ue]. unfold under in Ue.
    destruct (trash_of_under _ _ Ue) as (s & Hk & Htk).
    split.
    + intros ->. congruence.
    + intros ->. rewrite Htk, has_prefix_app in Ht. discriminate.
Qed.

Lemma Trash_moves_every_version_witness :
  let b := mkStore [(key test_ref (mkTime 5 0) 1, [x01]);
                    (key test_ref (mkTime 6 0) 2, [x02; x03]);
                    (namespacePrefix ++ bytes_of "ns", [x01])]
                   [bytes_of "ns"] "storage" in
  exists db',
    Trash b test_ref (mkTime 9 0)
    = (None, mkStore db' (namespaces b) (dir b)) /\
    store_sorted db' = true /\
    Open (mkStore db' (namespaces b) (dir b)) test_ref
    = (None, Some ErrMissingBlob) /\
    (forall k v,
        In (k, v) (bs_db b) -> has_prefix (keyPrefix test_ref) k = true ->
        db_get (trashPrefix ++ skipn 5 k) db' = Some v /\
        db_get k db' = None) /\
    (forall q,
        has_prefix (keyPrefix test_ref) q = false ->
        has_prefix (trashKey test_ref) q = false ->
        db_get q db' = db_get q (bs_db b)).
Proof.
  intros b.
  apply (@Trash_moves_every_version b test_ref (mkTime 9 0)).
  - reflexivity.
  - unfold within_window, keyOnlyPrefetchSize. simpl. lia.
Defined.

(** X12. [Trash] of a reference with no record under its prefix returns
    no error and leaves the records and the registry as they are. *)
Theorem Trash_absent_is_noop (b : BlobStore) (ref : BlobRef) (ts : Time) :
  (forall e, In e (bs_db b) -> has_prefix (keyPrefix ref) (fst e) = false) ->
  Trash b ref ts = (None, mkStore (bs_db b) (namespaces b) (dir b)).
Proof.
  intros H. rewrite Trash_fold.
  rewrite filter_none by (intros e He; now apply H).
  reflexivity.
Qed.

Lemma Trash_absent_is_noop_witness :
  Trash (NewBlobStore "storage" []) test_ref (mkTime 9 0)
  = (None, mkStore [] [] "storage").
Proof.
  apply (@Trash_absent_is_noop (NewBlobStore "storage" []) test_ref
           (mkTime 9 0)).
  intros e [].
Defined.

Lemma stat_suffix (pre : bytes) (a c : Z) :
  stat (pre ++ be_encode 8 (u64 a) ++ be_encode 8 (u64 c))
  = Done (time_Unix0 (wrap64 (u64 a)), wrap64 (u64 c)).
Proof.
  unfold stat, len.
  set (raw := be_encode 8 (u64 a) ++ be_encode 8 (u64 c)).
  assert (List.length raw = 16%nat) as Hraw
    by (unfold raw; now rewrite length_app, !be_encode_length).
  rewrite length_app, Hraw.
  destruct (Z.ltb_spec (Z.of_nat (List.length pre + 16) - 16) 0); [lia|].
  rewrite skipn_length_app by lia.
  unfold raw.
  rewrite firstn_length_app by now rewrite be_encode_length.
  rewrite skipn_length_app by now rewrite be_encode_length.
  now rewrite !Uint64_be_encode.
Qed.

(** X13. The key [Trash] gives a record is [trashKey ref] followed by the
    16-byte suffix of the blob key, so the write time and the size are
    still read back from it by [stat]. *)
Theorem trash_key_keeps_suffix (ref : BlobRef) (t : Time) (size : Z) :
  int64_range (Time_Unix t) -> 0 <= size < 2 ^ 63 ->
  trashPrefix ++ skipn 5 (key ref t size)
  = trashKey ref ++ be_encode 8 (u64 (Time_Unix t))
    ++ be_encode 8 (u64 size) /\
  stat (trashPrefix ++ skipn 5 (key ref t size))
  = Done (Truncate_Second t, size).
Proof.
  intros Ht Hs.
  assert (trashPrefix ++ skipn 5 (key ref t size)
          = trashKey ref ++ be_encode 8 (u64 (Time_Unix t))
            ++ be_encode 8 (u64 size)) as E.
  { rewrite key_unfold. unfold trashKey. rewrite <- !app_assoc.
    reflexivity. }
  split; [exact E|].
  rewrite E, stat_suffix, !wrap64_u64; try assumption.
  - reflexivity.
  - unfold int64_range. lia.
Qed.

Lemma trash_key_keeps_suffix_witness :
  trashPrefix ++ skipn 5 (key test_ref (mkTime 1700000000 7) 10)
  = trashKey test_ref ++ be_encode 8 (u64 1700000000)
    ++ be_encode 8 (u64 10) /\
  stat (trashPrefix ++ skipn 5 (key test_ref (mkTime 1700000000 7) 10))
  = Done (mkTime 1700000000 0, 10).
Proof.
  apply (@trash_key_keeps_suffix test_ref (mkTime 1700000000 7) 10).
  - unfold int64_range. cbn. lia.
  - lia.
Defined.

(** X14. [RestoreTrash] on a store with no record under the trash prefix
    returns no key and no error and leaves the store as it is. *)
Theorem RestoreTrash_nothing_trashed (b : BlobStore) (namespace : bytes) :
  (forall e, In e (bs_db b) -> has_prefix trashPrefix (fst e) = false) ->
  RestoreTrash b namespace
  = ([], None, mkStore (bs_db b) (namespaces b) (dir b)).
Proof.
  intros H.
  unfold RestoreTrash, db_Update, txn_NewIterator, it_Seek.
  cbn [Prefix DefaultIteratorOptions it_all it_cur txn_view has_prefix].
  rewrite filter_all by reflexivity.
  destruct (seek_from trashPrefix (bs_db b)) as [|e rest] eqn:E;
    [reflexivity|].
  cbn [for_valid_prefix]. rewrite H; [reflexivity|].
  apply (seek_from_In trashPrefix). rewrite E. now left.
Qed.

Lemma RestoreTrash_nothing_trashed_witness :
  RestoreTrash (snd (Create (NewBlobStore "storage" []) test_ref))
               (bytes_of "ns")
  = ([], None,
     mkStore [(namespacePrefix ++ bytes_of "ns", [x01])] [bytes_of "ns"]
             "storage").
Proof.
  apply (@RestoreTrash_nothing_trashed
           (snd (Create (NewBlobStore "storage" []) test_ref))
           (bytes_of "ns")).
  intros e [<-|[]]. reflexivity.
Defined.

(* ================================================================= *)
(** ** Space accounting *)

Lemma values_size_nonneg (l : list entry) : 0 <= values_size l.
Proof.
  induction l as [|e l IH]; cbn [values_size fold_right]; [lia|].
  fold (values_size l). unfold len. lia.
Qed.

Lemma for_valid_prefix_sum (pref : bytes) (l : list entry) :
  forall s,
    Forall (fun e => under pref e = true) l ->
    0 <= s -> s + values_size l < 2 ^ 63 ->
    for_valid_prefix pref l
      (fun item s => (wrap64 (s + len (snd item)), None)) s
    = (s + values_size l, None).
Proof.
  induction l as [|e l IH]; intros s H Hs Hb;
    cbn [for_valid_prefix values_size fold_right] in *.
  - now rewrite Z.add_0_r.
  - fold (values_size l) in *.
    inversion H as [|? ? He Hl]; subst. unfold under in He. rewrite He.
    pose proof (values_size_nonneg l).
    assert (0 <= len (snd e)) by (unfold len; lia).
    rewrite wrap64_small by lia.
    rewrite IH by (assumption || lia). f_equal. lia.
Qed.

Lemma space_used_sorted (pref : bytes) (b : BlobStore) :
  store_sorted (bs_db b) = true ->
  values_size (filter (under pref) (bs_db b)) < 2 ^ 63 ->
  space_used pref b = (values_size (filter (under pref) (bs_db b)), None).
Proof.
  intros Hs Hb. unfold space_used, db_View, txn_NewIterator, it_Seek.
  cbn [Prefix DefaultIteratorOptions it_all it_cur txn_view has_prefix].
  rewrite filter_all by reflexivity.
  rewrite for_valid_prefix_items, scan_sorted by assumption.
  rewrite for_valid_prefix_sum;
    [reflexivity | apply Forall_filter_under | lia | lia].
Qed.

(** X15. On a store in key order whose trashed values are all shorter
    than the value threshold of the engine (1 MiB), so that the engine
    keeps them beside their keys and [ValueSize] is their length,
    [SpaceUsedForTrash] is the total length of the values of the records
    under the trash prefix (as long as the total is an [int64]). *)
Theorem SpaceUsedForTrash_sums_trash (b : BlobStore) :
  store_sorted (bs_db b) = true ->
  values_inline (filter (under trashPrefix) (bs_db b)) ->
  values_size (filter (under trashPrefix) (bs_db b)) < 2 ^ 63 ->
  SpaceUsedForTrash b
  = (values_size (filter (under trashPrefix) (bs_db b)), None).
Proof.
  intros Hs _ Hb.
  unfold SpaceUsedForTrash, space_used, db_View, txn_NewIterator, it_Seek.
  cbn [Prefix DefaultIteratorOptions it_all it_cur txn_view has_prefix].
  rewrite filter_all by reflexivity.
  rewrite for_valid_prefix_items, scan_sorted by assumption.
  rewrite for_valid_prefix_sum;
    [reflexivity | apply Forall_filter_under | lia | lia].
Qed.

Lemma SpaceUsedForTrash_sums_trash_witness :
  SpaceUsedForTrash store_with_trashed_blob = (10, None).
Proof.
  apply (@SpaceUsedForTrash_sums_trash store_with_trashed_blob).
  - vm_compute. reflexivity.
  - repeat constructor.
  - vm_compute. reflexivity.
Defined.

(** X16. [SpaceUsedForBlobs] and [SpaceUsedForBlobsInNamespace] scan the
    marker prefix "nmspc", not the blob prefix: on a store in key order
    they are the total length of the values of the marker records (of the
    namespaces that begin with the given one), whatever the blobs
    stored. *)
Theorem SpaceUsedForBlobs_sums_markers (b : BlobStore) (namespace : bytes) :
  store_sorted (bs_db b) = true ->
  values_size (filter (under namespacePrefix) (bs_db b)) < 2 ^ 63 ->
  values_size (filter (under (namespacePrefix ++ namespace)) (bs_db b))
  < 2 ^ 63 ->
  SpaceUsedForBlobs b
  = (values_size (filter (under namespacePrefix) (bs_db b)), None) /\
  SpaceUsedForBlobsInNamespace b namespace
  = (values_size (filter (under (namespacePrefix ++ namespace)) (bs_db b)),
     None).
Proof.
  intros Hs H1 H2. split; now apply space_used_sorted.
Qed.

Lemma SpaceUsedForBlobs_sums_markers_witness :
  let b := mkStore [(key test_ref (mkTime 1700000000 0) 10,
                     bytes_of "1234567890");
                    (namespacePrefix ++ bytes_of "ns", [x01])]
                   [bytes_of "ns"] "storage" in
  SpaceUsedForBlobs b = (1, None) /\
  SpaceUsedForBlobsInNamespace b (bytes_of "ns") = (1, None).
Proof.
  intros b.
  apply (@SpaceUsedForBlobs_sums_markers b (bytes_of "ns")).
  - vm_compute. reflexivity.
  - vm_compute. reflexivity.
  - vm_compute. reflexivity.
Defined.

(* ================================================================= *)
(** ** WalkNamespace *)

Lemma walk_info_shape (n mid : bytes) (a c : Z) :
  walk_info n (ns n ++ mid ++ be_encode 8 (u64 a) ++ be_encode 8 (u64 c))
  = Done (mkBlobInfo (mkRef n mid) (wrap64 (wrap64 (u64 c))) mid
                     (time_Unix0 (wrap64 (u64 a)))).
Proof.
  set (raw := be_encode 8 (u64 a) ++ be_encode 8 (u64 c)).
  set (K := ns n ++ mid ++ raw).
  assert (List.length raw = 16%nat) as Hraw
    by (unfold raw; now rewrite length_app, !be_encode_length).
  assert (len K = len (ns n) + len mid + 16) as HlenK
    by (unfold K, len; rewrite !length_app, Hraw; lia).
  assert (firstn (Z.to_nat (len K - 16)) K = ns n ++ mid) as Hfirst.
  { rewrite HlenK. unfold K. rewrite app_assoc. apply firstn_length_app.
    unfold len. rewrite length_app. lia. }
  assert (stat K = Done (time_Unix0 (wrap64 (u64 a)), wrap64 (u64 c)))
    as Hstat.
  { unfold K, raw. rewrite app_assoc. apply stat_suffix. }
  assert (0 <= len (ns n)) by (unfold len; lia).
  assert (0 <= len mid) by (unfold len; lia).
  unfold walk_info. rewrite Hfirst, Hstat.
  destruct (Z.leb_spec 0 (len (ns n))); [|lia].
  destruct (Z.leb_spec (len (ns n)) (len K - 16)); [|lia].
  destruct (Z.leb_spec (len K - 16) (len K)); [|lia].
  cbn [andb].
  rewrite skipn_length_app by (unfold len; lia).
  reflexivity.
Qed.

Lemma walk_info_key (n x : bytes) (r : BlobRef) (t : Time) (size : Z) :
  Namespace r = n ++ x ->
  int64_range (Time_Unix t) -> 0 <= size < 2 ^ 63 ->
  walk_info n (key r t size)
  = Done (mkBlobInfo (mkRef n (x ++ Key r)) size (x ++ Key r)
                     (Truncate_Second t)).
Proof.
  intros Hn Ht Hs.
  assert (key r t size
          = ns n ++ (x ++ Key r) ++ be_encode 8 (u64 (Time_Unix t))
            ++ be_encode 8 (u64 size)) as ->.
  { rewrite key_unfold, Hn. unfold ns. now rewrite <- !app_assoc. }
  rewrite walk_info_shape, !wrap64_u64;
    try assumption; try (unfold int64_range; lia).
  rewrite wrap64_small by lia. reflexivity.
Qed.

(** X17. [WalkNamespace] visits the records under "blobs" followed by the
    namespace, no separator, and takes the logical key to be what lies
    between that prefix and the 16-byte suffix. With one blob saved in a
    new store under a reference whose namespace begins with the walked
    namespace, [walkFunc] is called once, and the descriptor has the rest
    of the namespace followed by the key as its key, the payload length as
    its size and the save time in whole seconds; what [walkFunc] returns is
    the result. *)
Theorem WalkNamespace_reports_saved_blob (S : Type) (d : string)
    (r : BlobRef) (n x B : bytes) (now : Time) (startFromPrefix : string)
    (walkFunc : BlobInfo -> S -> S * option error) (s : S) :
  len B <= bufferCap -> int64_range (Time_Unix now) ->
  Namespace r = n ++ x ->
  let b1 := mkStore [(key r now (len B), B);
                     (namespacePrefix ++ Namespace r, [x01])]
                    [Namespace r] d in
  save (NewBlobStore d []) r B now = Done (None, b1) /\
  WalkNamespace b1 n startFromPrefix walkFunc s
  = Done (walkFunc (mkBlobInfo (mkRef n (x ++ Key r)) (len B) (x ++ Key r)
                               (Truncate_Second now)) s).
Proof.
  intros Hcap Ht Hn b1. split; [now apply save_fresh|].
  assert (0 <= len B < 2 ^ 63) as Hs
    by (pose proof bufferCap_small; unfold len in *; lia).
  assert (has_prefix (ns n) (key r now (len B)) = true) as Hu.
  { rewrite key_unfold, Hn. unfold ns. rewrite <- !app_assoc.
    rewrite (app_assoc blobPrefix n). apply has_prefix_app. }
  unfold WalkNamespace, txn_NewIterator, it_Seek, b1.
  cbn [Prefix DefaultIteratorOptions it_all it_cur txn_view has_prefix
       bs_db filter seek_from fst].
  rewrite (prefix_not_below _ _ Hu).
  cbn [for_valid_prefix_exec fst]. rewrite Hu.
  rewrite (@walk_info_key n x r now (len B) Hn Ht Hs).
  destruct (walkFunc _ s) as [s' [e|]]; [reflexivity|].
  assert (has_prefix (ns n) (namespacePrefix ++ Namespace r) = false) as ->
    by reflexivity.
  reflexivity.
Qed.

Lemma WalkNamespace_reports_saved_blob_witness :
  let r := mkRef (bytes_of "nsx") (bytes_of "k") in
  let B := bytes_of "abc" in
  let now := mkTime 1700000000 5 in
  let b1 := mkStore [(key r now (len B), B);
                     (namespacePrefix ++ Namespace r, [x01])]
                    [Namespace r] "storage" in
  save (NewBlobStore "storage" []) r B now = Done (None, b1) /\
  WalkNamespace b1 (bytes_of "ns") ""
    (fun i (acc : list BlobInfo) => (acc ++ [i], None)) []
  = Done ([] ++ [mkBlobInfo (mkRef (bytes_of "ns") (bytes_of "xk")) 3
                            (bytes_of "xk") (mkTime 1700000000 0)],
          None).
Proof.
  apply (@WalkNamespace_reports_saved_blob (list BlobInfo) "storage"
           (mkRef (bytes_of "nsx") (bytes_of "k")) (bytes_of "ns")
           (bytes_of "x") (bytes_of "abc") (mkTime 1700000000 5) ""
           (fun i acc => (acc ++ [i], None)) []).
  - vm_compute. discriminate.
  - unfold int64_range. cbn. lia.
  - reflexivity.
Defined.

(* ================================================================= *)
(** ** The reader: seeks, ends and closing *)

(** X18. On an open reader a seek from the start to an offset within the
    content returns the offset, and reading to the end then returns the
    content from that offset on. *)
Theorem Seek_then_read_all (grow : nat -> nat) (r : reader) (offset : Z)
    (fuel : nat) :
  (forall c, (c < grow c)%nat) ->
  reader_ok r -> 0 <= offset <= len (r_buffer r) ->
  (List.length (r_buffer r) - Z.to_nat offset < fuel)%nat ->
  exists r',
    reader_Seek r offset SeekStart = Done (offset, None, r') /\
    rall grow fuel r'
    = Some (Done (skipn (Z.to_nat offset) (r_buffer r), None)).
Proof.
  intros Hgrow (Hl & Hb & Ho) Hoff Hfuel.
  exists (mkReader offset (r_length r) (r_buffer r)).
  assert (wrap64 offset = offset) as Hw by (apply wrap64_small; lia).
  split.
  - unfold reader_Seek. change (negb (SeekStart =? SeekStart)) with false.
    cbv iota. cbn [r_offset]. now rewrite !Hw.
  - unfold rall. rewrite rall_loop_spec; cbn [r_offset r_buffer r_length].
    + reflexivity.
    + assumption.
    + unfold reader_ok. cbn [r_offset r_buffer r_length]. lia.
    + cbn. lia.
    + assumption.
Qed.

Lemma Seek_then_read_all_witness :
  exists r',
    reader_Seek (mkReader 0 10 (bytes_of "1234567890")) 6 SeekStart
    = Done (6, None, r') /\
    rall (fun c => S (2 * c)) 5 r'
    = Some (Done (skipn (Z.to_nat 6) (bytes_of "1234567890"), None)).
Proof.
  apply (@Seek_then_read_all (fun c => S (2 * c))
           (mkReader 0 10 (bytes_of "1234567890")) 6 5).
  - intros c. lia.
  - unfold reader_ok. vm_compute. repeat split; discriminate.
  - vm_compute. split; discriminate.
  - vm_compute. lia.
Defined.

(** X19. [Close] drops the buffer but not the length: [Size] is then 0,
    and a [Read] on a closed reader that had content left never reports
    the end of the stream - with the cursor at 0 it returns 0 bytes and no
    error, with the cursor further on it panics on the slice bounds. *)
Theorem Read_after_Close (r : reader) (p : bytes) :
  reader_ok r -> r_offset r < r_length r ->
  let c := snd (Close r) in
  reader_Size c = (0, None) /\
  Read c p = if r_offset r =? 0 then Done (0, None, p, c)
             else Panic PanicSliceBounds.
Proof.
  intros (Hl & Hb & Ho) Hlt c. split; [reflexivity|].
  unfold c, Close, Read, slice_from. cbn [snd r_offset r_length r_buffer].
  rewrite Z.geb_leb.
  destruct (Z.leb_spec (r_length r) (r_offset r)); [lia|].
  destruct (Z.leb_spec 0 (r_offset r)); [|lia].
  change (len []) with 0.
  destruct (Z.eqb_spec (r_offset r) 0) as [E|E].
  - rewrite E. destruct p; reflexivity.
  - destruct (Z.leb_spec (r_offset r) 0); [lia|]. reflexivity.
Qed.

Lemma Read_after_Close_witness :
  let c := snd (Close (mkReader 0 10 (bytes_of "1234567890"))) in
  reader_Size c = (0, None) /\
  Read c (bytes_of "....")
  = if 0 =? 0 then Done (0, None, bytes_of "....", c)
    else Panic PanicSliceBounds.
Proof.
  apply (@Read_after_Close (mkReader 0 10 (bytes_of "1234567890"))
           (bytes_of "....")).
  - unfold reader_ok. vm_compute. repeat split; discriminate.
  - reflexivity.
Defined.

(* ================================================================= *)
(** ** The writer: capacity, finalization, invariants *)

(** X20. A write is all or nothing. On a writer whose buffer is the
    staging array, with the cursor at or after 0, [Write] copies all of [p]
    and returns its length when [p] ends within the 5,000,000 bytes, and
    panics on the slice bounds otherwise; it never copies a part. *)
Theorem Write_all_or_panic (w : writer) (p : bytes) :
  writer_wf w -> 0 <= w_offset w -> w_offset w + len p < 2 ^ 63 ->
  Write w p
  = if w_offset w + len p <=? bufferCap then
      match w_buffer w with
      | Some b =>
          Done (len p, None,
                mkWriter (w_offset w + len p)
                         (Z.max (w_length w) (w_offset w + len p))
                         (Some (buf_copy_at b (w_offset w) p)) (w_ref w))
      | None => Panic PanicSliceBounds
      end
    else Panic PanicSliceBounds.
Proof.
  intros (b & Hb & Hwf & Hlen) Ho Hsum.
  assert (0 <= len p) by (unfold len; lia).
  pose proof bufferCap_small.
  destruct (Z.leb_spec (w_offset w + len p) bufferCap).
  - rewrite Hb. apply Write_fits; lia || assumption.
  - unfold Write. rewrite Hb, Hlen.
    rewrite (wrap64_small (z := len p + w_offset w)) by lia.
    destruct (Z.leb_spec 0 (w_offset w)); [|lia].
    destruct (Z.leb_spec (w_offset w) (len p + w_offset w)); [|lia].
    destruct (Z.leb_spec (len p + w_offset w) bufferCap); [lia|].
    reflexivity.
Qed.

Lemma Write_all_or_panic_witness :
  Write (mkWriter 4999998 4999998 (Some (make_bytes 5000000)) test_ref)
        (bytes_of "abc")
  = if 4999998 + len (bytes_of "abc") <=? bufferCap then
      Done (len (bytes_of "abc"), None,
            mkWriter (4999998 + len (bytes_of "abc"))
                     (Z.max 4999998 (4999998 + len (bytes_of "abc")))
                     (Some (buf_copy_at (make_bytes 5000000) 4999998
                                        (bytes_of "abc"))) test_ref)
    else Panic PanicSliceBounds.
Proof.
  apply (@Write_all_or_panic
           (mkWriter 4999998 4999998 (Some (make_bytes 5000000)) test_ref)
           (bytes_of "abc")).
  - exists (make_bytes 5000000). repeat split. unfold buf_wf. cbn. lia.
  - cbn. lia.
  - vm_compute. reflexivity.
Defined.

(** X21. After a commit or a cancel the buffer is the nil slice: a write
    of one byte or more panics on the slice bounds, whatever the cursor. *)
Theorem Write_finalized_panics (w : writer) (p : bytes) :
  w_buffer w = None -> p <> [] -> len p < 2 ^ 63 ->
  int64_range (w_offset w) ->
  Write w p = Panic PanicSliceBounds.
Proof.
  intros Hb Hp Hlen Ho. unfold Write. rewrite Hb.
  assert (0 < len p) by (destruct p; [contradiction|unfold len; cbn; lia]).
  destruct (Z.leb_spec 0 (w_offset w)); [|reflexivity].
  destruct (Z.leb_spec (w_offset w) (wrap64 (len p + w_offset w)));
    [|reflexivity].
  destruct (Z.leb_spec (wrap64 (len p + w_offset w)) 0); [|reflexivity].
  exfalso.
  assert (w_offset w = 0) as E0 by lia.
  rewrite E0, Z.add_0_r, wrap64_small in * by lia. lia.
Qed.

Lemma Write_finalized_panics_witness :
  Write (snd (Cancel (NewWriter test_ref))) (bytes_of "x")
  = Panic PanicSliceBounds.
Proof.
  apply (@Write_finalized_panics (snd (Cancel (NewWriter test_ref)))
           (bytes_of "x")).
  - reflexivity.
  - discriminate.
  - vm_compute. reflexivity.
  - unfold int64_range. cbn. lia.
Defined.

(** X22. [Seek] accepts every offset, but [Commit] slices the array up to
    the cursor: after a seek before 0 or past the 5,000,000 bytes the seek
    returns the offset with no error and the commit panics on the slice
    bounds. *)
Theorem Commit_after_seek_outside_panics (w : writer) (offset : Z)
    (now : Time) (db : store) :
  writer_wf w -> int64_range offset -> offset < 0 \/ bufferCap < offset ->
  exists w',
    writer_Seek w offset SeekStart = Done (offset, None, w') /\
    Commit w' now db = Panic PanicSliceBounds.
Proof.
  intros (b & Hb & Hwf & Hlen) Hr Hout.
  exists (mkWriter offset (Z.max (w_length w) offset) (w_buffer w)
                   (w_ref w)).
  split; [now apply writer_Seek_start|].
  unfold Commit. cbn [w_buffer w_offset]. rewrite Hb, Hlen.
  destruct (Z.leb_spec 0 offset); [|reflexivity].
  destruct (Z.leb_spec offset bufferCap); [lia|reflexivity].
Qed.

Lemma Commit_after_seek_outside_panics_witness :
  exists w',
    writer_Seek (NewWriter test_ref) 5000001 SeekStart
    = Done (5000001, None, w') /\
    Commit w' (mkTime 1700000000 0) [] = Panic PanicSliceBounds.
Proof.
  apply (@Commit_after_seek_outside_panics (NewWriter test_ref) 5000001
           (mkTime 1700000000 0) []).
  - apply NewWriter_wf.
  - unfold int64_range. cbn. lia.
  - right. vm_compute. reflexivity.
Defined.

Lemma Write_inv (w w' : writer) (p : bytes) (i : Z) (err : option error) :
  session_inv w -> Write w p = Done (i, err, w') -> session_inv w'.
Proof.
  intros (Hwf & Hol & Hl0 & Hh) E.
  pose proof (@Write_wf w w' p i err Hwf E) as Hwf'.
  destruct Hwf as (b & Hb & Hbwf & Hlen).
  pose proof bufferCap_small.
  unfold Write in E. rewrite Hb in E.
  set (hi := wrap64 (len p + w_offset w)) in *.
  destruct (Z.leb_spec 0 (w_offset w)); [|discriminate].
  destruct (Z.leb_spec (w_offset w) hi); [|discriminate].
  destruct (Z.leb_spec hi (b_len b)); [|discriminate].
  cbn [andb] in E.
  set (n := Z.min (hi - w_offset w) (len p)) in *.
  assert (0 <= len p) by (unfold len; lia).
  assert (0 <= n <= hi - w_offset w) by (unfold n; lia).
  assert (wrap64 (w_offset w + n) = w_offset w + n) as Hw
    by (apply wrap64_small; lia).
  cbn [w_offset w_length w_buffer w_ref] in E. rewrite Hw in E.
  assert (len (firstn (Z.to_nat n) p) = n) as Hq
    by (unfold len; rewrite length_firstn; unfold len in *; lia).
  specialize (Hh b Hb).
  assert (len (b_head (buf_copy_at b (w_offset w) (firstn (Z.to_nat n) p)))
          <= Z.max (w_length w) (w_offset w + n)) as Hhead.
  { unfold buf_copy_at. cbn [b_head]. unfold len in *.
    rewrite !length_app, head_upto_length, length_skipn. lia. }
  destruct (Z.gtb_spec (w_offset w + n) (w_length w));
    injection E as _ _ <-; (split; [exact Hwf'|]);
    cbn [w_offset w_length w_buffer];
    (split; [lia|]); (split; [lia|]);
    intros b' [= <-]; lia.
Qed.

Lemma writer_Seek_inv (w w' : writer) (offset r : Z) (err : option error) :
  session_inv w -> writer_Seek w offset SeekStart = Done (r, err, w') ->
  session_inv w'.
Proof.
  intros ((b & Hb & Hbwf & Hlen) & Hol & Hl0 & Hh) E.
  unfold writer_Seek in E.
  change (negb (SeekStart =? SeekStart)) with false in E. cbv iota in E.
  cbn [w_offset w_length w_buffer w_ref] in E.
  destruct (Z.gtb_spec (wrap64 offset) (w_length w));
    injection E as _ _ <-;
    (split; [exists b; cbn [w_buffer]; auto|]);
    cbn [w_offset w_length w_buffer];
    (split; [lia|]); (split; [lia|]);
    intros b' Hb'; specialize (Hh b' Hb'); lia.
Qed.

Lemma run_ops_inv (ops : list writer_op) :
  forall w w', session_inv w -> run_ops w ops = Done w' -> session_inv w'.
Proof.
  induction ops as [|[offset|p] ops IH]; intros w w' Hw H; cbn [run_ops] in H.
  - now injection H as <-.
  - destruct (writer_Seek w offset SeekStart) as [[[r err] w1]|] eqn:E;
      [|discriminate].
    apply (IH w1); [|exact H]. eapply writer_Seek_inv; eassumption.
  - destruct (Write w p) as [[[i err] w1]|] eqn:E; [|discriminate].
    apply (IH w1); [|exact H]. eapply Write_inv; eassumption.
Qed.

(** X23. Through every sequence of seeks and writes on a new writer that
    does not panic, the writer keeps its reference and its array of
    5,000,000 bytes, the cursor never exceeds the length, the length is
    never negative, and every byte of the array at or after the length is
    still zero. *)
Theorem session_keeps_invariant (ref : BlobRef) (ops : list writer_op)
    (w : writer) :
  run_ops (NewWriter ref) ops = Done w ->
  w_ref w = ref /\ w_offset w <= w_length w /\ 0 <= w_length w /\
  exists b,
    w_buffer w = Some b /\ b_len b = bufferCap /\
    List.length (buf_list b) = Z.to_nat bufferCap /\
    forall i, (Z.to_nat (w_length w) <= i)%nat -> nth i (buf_list b) x00 = x00.
Proof.
  intros H.
  assert (session_inv (NewWriter ref)) as H0.
  { split; [apply NewWriter_wf|]. cbn [NewWriter w_offset w_length w_buffer].
    repeat split; try lia. intros b [= <-]. cbn. lia. }
  destruct (run_ops_inv _ H0 H) as ((b & Hb & Hwf & Hlen) & Hol & Hl0 & Hh).
  split; [exact (run_ops_ref _ _ H)|].
  split; [exact Hol|]. split; [exact Hl0|].
  exists b. split; [exact Hb|]. split; [exact Hlen|].
  specialize (Hh b Hb). unfold buf_wf, len in *. split.
  - unfold buf_list. rewrite length_app, repeat_length. lia.
  - intros i Hi. unfold buf_list. rewrite app_nth2 by lia.
    apply nth_repeat.
Qed.

Lemma session_keeps_invariant_witness :
  let w := mkWriter 31 32
             (Some (mkBuf bufferCap (documented_payload ++ bytes_of "l")))
             test_ref in
  w_ref w = test_ref /\ w_offset w <= w_length w /\ 0 <= w_length w /\
  exists b,
    w_buffer w = Some b /\ b_len b = bufferCap /\
    List.length (buf_list b) = Z.to_nat bufferCap /\
    forall i, (Z.to_nat (w_length w) <= i)%nat -> nth i (buf_list b) x00 = x00.
Proof.
  intros w.
  apply (@session_keeps_invariant test_ref documented_ops w).
  reflexivity.
Defined.

(* ================================================================= *)
(** ** EmptyTrash on every store *)

(** X24. [EmptyTrash] never removes a record. On a store in key order it
    returns the store as it is; it returns no error exactly when no record
    is under the trash prefix, and otherwise the error of the read-only
    transaction with the single key it met. *)
Theorem EmptyTrash_never_deletes (b : BlobStore) (namespace : bytes)
    (trashedBefore : Time) :
  store_sorted (bs_db b) = true ->
  exists keys err,
    EmptyTrash b namespace trashedBefore = (0, keys, err, b) /\
    (err = None <->
     forall e, In e (bs_db b) -> has_prefix trashPrefix (fst e) = false) /\
    (err <> None ->
     err = Some ErrReadOnlyTxn /\ exists k, keys = [k]).
Proof.
  intros Hs.
  destruct (filter (under trashPrefix) (bs_db b)) as [|e l] eqn:E.
  - assert (forall e, In e (bs_db b) ->
                      has_prefix trashPrefix (fst e) = false) as Hnone.
    { intros e He. destruct (has_prefix trashPrefix (fst e)) eqn:U;
        [|reflexivity].
      assert (In e (filter (under trashPrefix) (bs_db b))) as C
        by (apply filter_In; now split).
      rewrite E in C. destruct C. }
    exists [], None. rewrite (EmptyTrash_nothing_trashed _ _ _ Hnone).
    split; [reflexivity|]. split.
    + split; [intros _; exact Hnone|reflexivity].
    + intros C. now destruct C.
  - assert (In e (filter (under trashPrefix) (bs_db b))) as He
      by (rewrite E; now left).
    apply filter_In in He as [Hin Hu].
    destruct (EmptyTrash_read_only b namespace trashedBefore e Hs Hin Hu)
      as (k & Hk & Heq).
    exists [k], (Some ErrReadOnlyTxn). rewrite Heq.
    split; [reflexivity|]. split.
    + split; [discriminate|]. intros Hnone.
      unfold under in Hu. rewrite (Hnone e Hin) in Hu. discriminate.
    + intros _. split; [reflexivity|]. now exists k.
Qed.

Lemma EmptyTrash_never_deletes_witness :
  exists keys err,
    EmptyTrash store_with_trashed_blob (bytes_of "ns") (mkTime 1800000000 0)
    = (0, keys, err, store_with_trashed_blob) /\
    (err = None <->
     forall e, In e (bs_db store_with_trashed_blob) ->
               has_prefix trashPrefix (fst e) = false) /\
    (err <> None ->
     err = Some ErrReadOnlyTxn /\ exists k, keys = [k]).
Proof.
  apply (@EmptyTrash_never_deletes store_with_trashed_blob (bytes_of "ns")
           (mkTime 1800000000 0)).
  vm_compute. reflexivity.
Defined.

(* ================================================================= *)
(** ** RestoreTrash on every store *)

Lemma under_trash_split (k : bytes) :
  has_prefix trashPrefix k = true ->
  k = trashPrefix ++ skipn (List.length trashPrefix) k.
Proof.
  intros H. apply has_prefix_split in H as [s ->].
  now rewrite skipn_length_app.
Qed.

Lemma restored_not_trash (s : bytes) :
  has_prefix trashPrefix (blobPrefix ++ s) = false.
Proof. reflexivity. Qed.

Lemma restore_step_get (view : store) (e : entry) (q : bytes) :
  q <> fst e ->
  q <> blobPrefix ++ skipn (List.length trashPrefix) (fst e) ->
  db_get q (restore_step view e) = db_get q view.
Proof.
  intros H1 H2. unfold restore_step.
  rewrite db_get_delete, (bytes_eqb_neq H1), db_get_set.
  rewrite bytes_eqb_neq; [reflexivity|]. intros E. now apply H2.
Qed.

Lemma restore_fold_frame (l : list entry) (q : bytes) :
  forall view,
    (forall e, In e l ->
       q <> fst e /\
       q <> blobPrefix ++ skipn (List.length trashPrefix) (fst e)) ->
    db_get q (fold_left restore_step l view) = db_get q view.
Proof.
  induction l as [|e l IH]; intros view H; cbn [fold_left]; [reflexivity|].
  rewrite IH by (intros e' He'; apply H; now right).
  destruct (H e (or_introl eq_refl)) as [H1 H2].
  now apply restore_step_get.
Qed.

(** Two records of a list in key order under the trash prefix have
    different keys, and different keys once restored. *)
Lemma later_trash_entry_differs (e e' : entry) (l : list entry) :
  store_sorted (e :: l) = true ->
  Forall (fun x => under trashPrefix x = true) (e :: l) ->
  In e' l ->
  fst e <> fst e' /\
  fst e <> blobPrefix ++ skipn (List.length trashPrefix) (fst e') /\
  fst e' <> blobPrefix ++ skipn (List.length trashPrefix) (fst e) /\
  blobPrefix ++ skipn (List.length trashPrefix) (fst e)
  <> blobPrefix ++ skipn (List.length trashPrefix) (fst e').
Proof.
  intros Hs Hu Hin.
  destruct (store_sorted_tail _ _ Hs) as [_ Hlt].
  specialize (Hlt _ Hin).
  rewrite Forall_forall in Hu.
  pose proof (Hu e (or_introl eq_refl)) as Ue.
  pose proof (Hu e' (or_intror Hin)) as Ue'.
  unfold under in Ue, Ue'.
  assert (fst e <> fst e') as Hne
    by (intros E; rewrite E, lex_ltb_irrefl in Hlt; discriminate).
  repeat split.
  - exact Hne.
  - intros E. rewrite E, restored_not_trash in Ue. discriminate.
  - intros E. rewrite E, restored_not_trash in Ue'. discriminate.
  - intros E. apply app_inv_head in E. apply Hne.
    rewrite (under_trash_split _ Ue), (under_trash_split _ Ue').
    now rewrite E.
Qed.

Lemma for_valid_prefix_restore (l : list entry) :
  forall view keys,
    store_sorted l = true ->
    Forall (fun e => under trashPrefix e = true) l ->
    (forall k v, In (k, v) l -> db_get k view = Some v) ->
    for_valid_prefix trashPrefix l
      (fun item '(keys, txn) =>
         let key := fst item in
         let keys := keys ++ [key] in
         let origKey :=
           blobPrefix ++ skipn (List.length trashPrefix) key in
         let '(txn, err) := move txn key origKey in
         ((keys, txn), err))
      (keys, mkTxn true view)
    = ((keys ++ map fst l, mkTxn true (fold_left restore_step l view)),
       None).
Proof.
  induction l as [|[k v] l IH]; intros view keys Hs Hu Hget;
    cbn [for_valid_prefix map fold_left].
  - now rewrite app_nil_r.
  - destruct (store_sorted_tail _ _ Hs) as [Hs' _].
    inversion Hu as [|? ? Uk Ul]; subst. unfold under in Uk.
    cbn [fst snd] in *. rewrite Uk.
    unfold move, txn_Get. cbn [txn_view].
    rewrite (Hget k v (or_introl eq_refl)).
    unfold txn_Set, txn_Delete. cbn [txn_update txn_view].
    change (db_delete k
              (db_set (blobPrefix ++ skipn (List.length trashPrefix) k) v
                      view))
      with (restore_step view (k, v)).
    rewrite IH; [now rewrite <- app_assoc|exact Hs'|exact Ul|].
    intros k' v' Hin'.
    destruct (@later_trash_entry_differs (k, v) (k', v') l Hs Hu Hin')
      as (N1 & N2 & N3 & N4).
    cbn [fst] in *.
    rewrite restore_step_get; cbn [fst]; try congruence.
    apply Hget. now right.
Qed.

Lemma restore_fold_moved (l : list entry) :
  forall view k v,
    store_sorted l = true ->
    Forall (fun e => under trashPrefix e = true) l ->
    In (k, v) l ->
    db_get (blobPrefix ++ skipn (List.length trashPrefix) k)
           (fold_left restore_step l view) = Some v /\
    db_get k (fold_left restore_step l view) = None.
Proof.
  induction l as [|e l IH]; intros view k v Hs Hu Hin; [destruct Hin|].
  destruct (store_sorted_tail _ _ Hs) as [Hs' _].
  inversion Hu as [|? ? Ue Ul]; subst.
  cbn [fold_left]. destruct Hin as [->|Hin]; [|now apply IH].
  unfold under in Ue. cbn [fst] in Ue.
  assert (forall e', In e' l ->
            k <> fst e' /\
            k <> blobPrefix ++ skipn (List.length trashPrefix) (fst e') /\
            fst e' <> blobPrefix ++ skipn (List.length trashPrefix) k /\
            blobPrefix ++ skipn (List.length trashPrefix) k
            <> blobPrefix ++ skipn (List.length trashPrefix) (fst e'))
    as Hd by (intros e' He';
              apply (@later_trash_entry_differs (k, v) e' l Hs Hu He')).
  split.
  - rewrite restore_fold_frame.
    + unfold restore_step. cbn [fst snd].
      rewrite db_get_delete, db_get_set.
      rewrite (proj2 (bytes_eqb_eq _ _) eq_refl).
      rewrite bytes_eqb_neq; [reflexivity|].
      intros E. rewrite <- E, restored_not_trash in Ue. discriminate.
    + intros e' He'. destruct (Hd e' He') as (N1 & N2 & N3 & N4).
      split; congruence.
  - rewrite restore_fold_frame.
    + unfold restore_step. cbn [fst snd].
      rewrite db_get_delete.
      now rewrite (proj2 (bytes_eqb_eq _ _) eq_refl).
    + intros e' He'. destruct (Hd e' He') as (N1 & N2 & N3 & N4).
      split; assumption.
Qed.

Lemma restore_fold_sorted (l : list entry) :
  forall view,
    store_sorted view = true ->
    store_sorted (fold_left restore_step l view) = true.
Proof.
  induction l as [|e l IH]; intros view H; cbn [fold_left]; [exact H|].
  apply IH. unfold restore_step. now apply db_delete_sorted, db_set_sorted.
Qed.

(** X25. On a store in key order that holds, from "trash" on, no more
    than the 100 items the iterator holds, their keys and values no more
    than 4 MB in all, [RestoreTrash] returns no error and moves every
    record under the trash prefix - of every namespace, whatever its
    namespace argument - back to the key with the blob prefix, with its
    value; it returns the trash keys in key order, the store stays in key
    order, and every key outside the trash prefix that is not a restored
    key reads as before. *)
Theorem RestoreTrash_moves_every_record (b : BlobStore) (namespace : bytes) :
  store_sorted (bs_db b) = true ->
  within_window defaultPrefetchSize (seek_from trashPrefix (bs_db b)) ->
  records_size (seek_from trashPrefix (bs_db b)) <= txnBudget ->
  exists db',
    RestoreTrash b namespace
    = (map fst (filter (under trashPrefix) (bs_db b)), None,
       mkStore db' (namespaces b) (dir b)) /\
    store_sorted db' = true /\
    (forall k v,
        In (k, v) (bs_db b) -> has_prefix trashPrefix k = true ->
        db_get (blobPrefix ++ skipn (List.length trashPrefix) k) db' = Some v
        /\ db_get k db' = None) /\
    (forall q,
        has_prefix trashPrefix q = false ->
        (forall e, In e (bs_db b) -> has_prefix trashPrefix (fst e) = true ->
                   q <> blobPrefix
                        ++ skipn (List.length trashPrefix) (fst e)) ->
        db_get q db' = db_get q (bs_db b)).
Proof.
  intros Hs _ _.
  set (l := filter (under trashPrefix) (bs_db b)).
  assert (store_sorted l = true) as Hsl by now apply filter_sorted.
  assert (Forall (fun e => under trashPrefix e = true) l) as Hul
    by apply Forall_filter_under.
  exists (fold_left restore_step l (bs_db b)).
  split; [|split; [|split]].
  - unfold RestoreTrash, db_Update, txn_NewIterator, it_Seek.
    cbn [Prefix DefaultIteratorOptions it_all it_cur txn_view has_prefix].
    rewrite filter_all by reflexivity.
    rewrite for_valid_prefix_items, scan_sorted by assumption. fold l.
    rewrite for_valid_prefix_restore; [reflexivity|exact Hsl|exact Hul|].
    intros k v Hin. apply filter_In in Hin as [Hin _].
    now apply sorted_get.
  - now apply restore_fold_sorted.
  - intros k v Hin Hu. apply restore_fold_moved; try assumption.
    apply filter_In. now split.
  - intros q Hq Hne. apply restore_fold_frame. intros e He.
    apply filter_In in He as [Hin Ue]. unfold under in Ue. split.
    + intros ->. congruence.
    + now apply Hne.
Qed.

Lemma RestoreTrash_moves_every_record_witness :
  exists db',
    RestoreTrash store_with_trashed_blob (bytes_of "other")
    = (map fst (filter (under trashPrefix) (bs_db store_with_trashed_blob)),
       None,
       mkStore db' (namespaces store_with_trashed_blob)
               (dir store_with_trashed_blob)) /\
    store_sorted db' = true /\
    (forall k v,
        In (k, v) (bs_db store_with_trashed_blob) ->
        has_prefix trashPrefix k = true ->
        db_get (blobPrefix ++ skipn (List.length trashPrefix) k) db' = Some v
        /\ db_get k db' = None) /\
    (forall q,
        has_prefix trashPrefix q = false ->
        (forall e, In e (bs_db store_with_trashed_blob) ->
                   has_prefix trashPrefix (fst e) = true ->
                   q <> blobPrefix
                        ++ skipn (List.length trashPrefix) (fst e)) ->
        db_get q db' = db_get q (bs_db store_with_trashed_blob)).
Proof.
  apply (@RestoreTrash_moves_every_record store_with_trashed_blob
           (bytes_of "other")).
  - vm_compute. reflexivity.
  - unfold within_window, defaultPrefetchSize. vm_compute. lia.
  - vm_compute. discriminate.
Defined.

(* ================================================================= *)
(** ** WalkNamespace on every store *)

Lemma for_valid_prefix_exec_walk (S : Type) (n : bytes)
    (walkFunc : BlobInfo -> S -> S * option error)
    (f : entry -> BlobInfo) (l : list entry) :
  forall s,
    Forall (fun e => under (ns n) e = true) l ->
    (forall e, In e l -> walk_info n (fst e) = Done (f e)) ->
    for_valid_prefix_exec (ns n) l
      (fun item s =>
         let key := fst item in
         match walk_info n key with
         | Panic p => Panic p
         | Done info => Done (walkFunc info s)
         end) s
    = Done (walk_fold walkFunc (map f l) s).
Proof.
  induction l as [|e l IH]; intros s Hu Hf;
    cbn [for_valid_prefix_exec map walk_fold]; [reflexivity|].
  inversion Hu as [|? ? Ue Ul]; subst. unfold under in Ue. rewrite Ue.
  rewrite (Hf e (or_introl eq_refl)).
  destruct (walkFunc (f e) s) as [s' [err|]]; [reflexivity|].
  apply IH; [exact Ul|]. intros e' He'. apply Hf. now right.
Qed.

(** X26. On a store in key order whose records under "blobs" followed by
    the namespace all decode (each key is at least that prefix and the
    16-byte suffix long), [WalkNamespace] calls [walkFunc] on the
    descriptor of each of them, once each, in key order, stops at the
    first error [walkFunc] returns and returns it, and returns no error
    when it reaches the end. *)
Theorem WalkNamespace_visits_in_key_order (S : Type) (b : BlobStore)
    (n : bytes) (startFromPrefix : string)
    (walkFunc : BlobInfo -> S -> S * option error) (f : entry -> BlobInfo)
    (s : S) :
  store_sorted (bs_db b) = true ->
  (forall e, In e (bs_db b) -> has_prefix (ns n) (fst e) = true ->
             walk_info n (fst e) = Done (f e)) ->
  WalkNamespace b n startFromPrefix walkFunc s
  = Done (walk_fold walkFunc (map f (filter (under (ns n)) (bs_db b))) s).
Proof.
  intros Hs Hf. unfold WalkNamespace, txn_NewIterator, it_Seek.
  cbn [Prefix DefaultIteratorOptions it_all it_cur txn_view has_prefix].
  rewrite filter_all by reflexivity.
  rewrite for_valid_prefix_exec_items, scan_sorted by assumption.
  apply for_valid_prefix_exec_walk; [apply Forall_filter_under|].
  intros e He. apply filter_In in He as [Hin Ue]. now apply Hf.
Qed.

Lemma WalkNamespace_visits_in_key_order_witness :
  let k1 := key (mkRef (bytes_of "ns1") (bytes_of "key0")) (mkTime 7 0) 0 in
  let k2 := key (mkRef (bytes_of "ns1") (bytes_of "key1")) (mkTime 7 0) 1 in
  let b := mkStore [(k1, []); (k2, [x00]);
                    (namespacePrefix ++ bytes_of "ns1", [x01])]
                   [bytes_of "ns1"] "storage" in
  let f := fun e : entry =>
             match walk_info (bytes_of "ns1") (fst e) with
             | Done i => i
             | Panic _ => zeroBlobInfo
             end in
  WalkNamespace b (bytes_of "ns1") ""
    (fun i (acc : list (bytes * Z)) => (acc ++ [(bi_name i, bi_size i)], None))
    []
  = Done (walk_fold
            (fun i (acc : list (bytes * Z)) =>
               (acc ++ [(bi_name i, bi_size i)], None))
            (map f (filter (under (ns (bytes_of "ns1"))) (bs_db b))) []).
Proof.
  intros k1 k2 b f.
  apply (@WalkNamespace_visits_in_key_order (list (bytes * Z)) b
           (bytes_of "ns1") ""
           (fun i acc => (acc ++ [(bi_name i, bi_size i)], None)) f []).
  - reflexivity.
  - intros e [<-|[<-|[<-|[]]]] H; try reflexivity. discriminate H.
Defined.

